(** * godbm: a file-backed hash table with per-bucket search trees

    A shallow embedding of [godbm.go] and the verification of its
    specification.  The database file is a list of bytes; the machine
    integers of the Go code are integers of [Z] with their wrap-around
    written out; the [*os.File] handle is a record of the file's bytes
    and its position; a Go panic and the exhaustion of the recursion
    budget of [binSearch] are explicit outcomes.

    Platform: 64-bit Go ([int] is [int64]). *)

From Stdlib Require Import Strings.Byte Strings.String.
From Stdlib Require Import ZArith List Lia Bool.
Import ListNotations.
Local Open Scope Z_scope.

(** ** Bytes and machine integers *)

Definition bytes := list byte.

Definition byte_to_Z (b : byte) : Z := Z.of_N (Byte.to_N b).

Definition byte_of_Z (z : Z) : byte :=
  match Byte.of_N (Z.to_N (z mod 256)) with
  | Some b => b
  | None => x00
  end.

(** The number of elements of a slice, as Go's [len]. *)
Definition len {A : Type} (l : list A) : Z := Z.of_nat (length l).

(** Conversions to [uint32] and [uint64] keep the low bits. *)
Definition wrap32 (x : Z) : Z := x mod 2 ^ 32.
Definition wrap64 (x : Z) : Z := x mod 2 ^ 64.

(** Conversion of a [uint64] to [int64]: two's complement. *)
Definition to_int64 (x : Z) : Z :=
  let y := wrap64 x in if y <? 2 ^ 63 then y else y - 2 ^ 64.

(** [encoding/binary], big endian: [be_bytes n x] are the [n] low bytes
    of [x], the most significant first. *)
Fixpoint be_bytes (n : nat) (x : Z) : bytes :=
  match n with
  | O => []
  | S n' => be_bytes n' (x / 256) ++ [byte_of_Z x]
  end.

Definition be_value (bs : bytes) : Z :=
  fold_left (fun acc b => acc * 256 + byte_to_Z b) bs 0.

(** [bytes.Compare]: lexicographic order on unsigned bytes; the result
    is -1, 0 or 1. *)
Fixpoint Compare (a b : bytes) : Z :=
  match a, b with
  | [], [] => 0
  | [], _ :: _ => -1
  | _ :: _, [] => 1
  | x :: a', y :: b' =>
      if byte_to_Z x <? byte_to_Z y then -1
      else if byte_to_Z y <? byte_to_Z x then 1
      else Compare a' b'
  end.

(** ** [crypto/md5]

    The digest of RFC 1321, as the Go standard library computes it. *)
Module MD5.

Definition K : list Z :=
  [3614090360; 3905402710; 606105819; 3250441966; 4118548399; 1200080426;
   2821735955; 4249261313; 1770035416; 2336552879; 4294925233; 2304563134;
   1804603682; 4254626195; 2792965006; 1236535329; 4129170786; 3225465664;
   643717713; 3921069994; 3593408605; 38016083; 3634488961; 3889429448;
   568446438; 3275163606; 4107603335; 1163531501; 2850285829; 4243563512;
   1735328473; 2368359562; 4294588738; 2272392833; 1839030562; 4259657740;
   2763975236; 1272893353; 4139469664; 3200236656; 681279174; 3936430074;
   3572445317; 76029189; 3654602809; 3873151461; 530742520; 3299628645;
   4096336452; 1126891415; 2878612391; 4237533241; 1700485571; 2399980690;
   4293915773; 2240044497; 1873313359; 4264355552; 2734768916; 1309151649;
   4149444226; 3174756917; 718787259; 3951481745].

Definition shifts : list Z :=
  [7; 12; 17; 22; 7; 12; 17; 22; 7; 12; 17; 22; 7; 12; 17; 22;
   5; 9; 14; 20; 5; 9; 14; 20; 5; 9; 14; 20; 5; 9; 14; 20;
   4; 11; 16; 23; 4; 11; 16; 23; 4; 11; 16; 23; 4; 11; 16; 23;
   6; 10; 15; 21; 6; 10; 15; 21; 6; 10; 15; 21; 6; 10; 15; 21].

Definition rotl (x s : Z) : Z :=
  Z.lor (wrap32 (Z.shiftl x s)) (Z.shiftr x (32 - s)).

Definition not32 (x : Z) : Z := Z.lxor x (2 ^ 32 - 1).

(** Little-endian words, as MD5 reads its input and writes its state. *)
Fixpoint le_bytes (n : nat) (x : Z) : bytes :=
  match n with
  | O => []
  | S n' => byte_of_Z x :: le_bytes n' (x / 256)
  end.

Definition le_value (bs : bytes) : Z :=
  fold_right (fun b acc => byte_to_Z b + 256 * acc) 0 bs.

Fixpoint words (n : nat) (bs : bytes) : list Z :=
  match n with
  | O => []
  | S n' => le_value (firstn 4 bs) :: words n' (skipn 4 bs)
  end.

Definition pad (msg : bytes) : bytes :=
  msg ++ [x80] ++ repeat x00 (Z.to_nat ((55 - len msg) mod 64))
      ++ le_bytes 8 (wrap64 (8 * len msg)).

Definition state : Type := Z * Z * Z * Z.

Definition step (M : list Z) (st : state) (i : nat) : state :=
  let '(a, b, c, d) := st in
  let iz := Z.of_nat i in
  let '(f, g) :=
    if (i <? 16)%nat then (Z.lor (Z.land b c) (Z.land (not32 b) d), iz)
    else if (i <? 32)%nat then
      (Z.lor (Z.land d b) (Z.land (not32 d) c), (5 * iz + 1) mod 16)
    else if (i <? 48)%nat then (Z.lxor (Z.lxor b c) d, (3 * iz + 5) mod 16)
    else (Z.lxor c (Z.lor b (not32 d)), (7 * iz) mod 16) in
  let f' := wrap32 (f + a + nth i K 0 + nth (Z.to_nat g) M 0) in
  (d, wrap32 (b + rotl f' (nth i shifts 0)), b, c).

Definition compress (st : state) (chunk : bytes) : state :=
  let '(a0, b0, c0, d0) := st in
  let '(a, b, c, d) := fold_left (step (words 16 chunk)) (seq 0 64) st in
  (wrap32 (a0 + a), wrap32 (b0 + b), wrap32 (c0 + c), wrap32 (d0 + d)).

Fixpoint blocks (n : nat) (bs : bytes) (st : state) : state :=
  match n with
  | O => st
  | S n' => blocks n' (skipn 64 bs) (compress st (firstn 64 bs))
  end.

Definition init : state := (1732584193, 4023233417, 2562383102, 271733878).

(** [md5.New(); Write(msg); Sum()]: the 16 bytes of the digest. *)
Definition sum (msg : bytes) : bytes :=
  let p := pad msg in
  let '(a, b, c, d) := blocks (Nat.div (length p) 64) p init in
  le_bytes 4 a ++ le_bytes 4 b ++ le_bytes 4 c ++ le_bytes 4 d.

End MD5.

(** ** Outcomes of the Go code

    A call returns, panics (an index or a slice bound out of range, an
    allocation the runtime refuses) or exhausts the budget of recursive
    calls that the embedding gives to [binSearch]. *)
Inductive outcome (A : Type) : Type :=
| Ret (a : A)
| Panic
| OutOfFuel.
Arguments Ret {A} a.
Arguments Panic {A}.
Arguments OutOfFuel {A}.

Definition bind {A B : Type} (m : outcome A) (k : A -> outcome B) : outcome B :=
  match m with
  | Ret a => k a
  | Panic => Panic
  | OutOfFuel => OutOfFuel
  end.

Notation "x <- m ;; k" := (bind m (fun x => k))
  (at level 61, m at next level, right associativity).

(** The values of [os.Error] that the file operations produce. *)
Inductive error : Type :=
| EOF       (* a read reaches past the end of the file *)
| EINVAL    (* negative offset *)
| EFBIG.    (* a write reaches past the largest file offset *)

(** ** The file

    [*os.File]: the bytes of the file and the position of the handle.
    Offsets are [int64], so no byte lies at or after offset [2^63 - 1]. *)
Record File : Type := mkFile { data : bytes; pos : Z }.

Definition maxOffset : Z := 2 ^ 63 - 1.

(** [f.Seek(offset, whence)]; the new position is returned. *)
Definition Seek (f : File) (off whence : Z) : File * Z * option error :=
  let target :=
    if whence =? 0 then off
    else if whence =? 1 then pos f + off
    else len (data f) + off in
  if target <? 0 then (f, 0, Some EINVAL)
  else (mkFile (data f) target, target, None).

(** The bytes of [d] after [b] is written at index [off]; a gap between
    the end of the file and [off] reads as zeros. *)
Definition splice (d : bytes) (off : nat) (b : bytes) : bytes :=
  firstn off d ++ repeat x00 (off - length d) ++ b
    ++ skipn (off + length b) d.

(** [f.WriteAt(b, off)]. *)
Definition WriteAt (f : File) (b : bytes) (off : Z) : File * option error :=
  if off <? 0 then (f, Some EINVAL)
  else match b with
       | [] => (f, None)
       | _ :: _ =>
           if maxOffset <? off + len b then (f, Some EFBIG)
           else (mkFile (splice (data f) (Z.to_nat off) b) (pos f), None)
       end.

(** [f.Write(b)]: at the position of the handle, which advances. *)
Definition Write (f : File) (b : bytes) : File * option error :=
  match WriteAt f b (pos f) with
  | (f', None) => (mkFile (data f') (pos f + len b), None)
  | (f', Some e) => (f', Some e)
  end.

(** [f.ReadAt(buf, off)] with [len(buf) = n]: the [n] bytes, or an error
    when fewer than [n] bytes are there. *)
Definition ReadAt (f : File) (n off : Z) : bytes * option error :=
  if off <? 0 then ([], Some EINVAL)
  else if n =? 0 then ([], None)
  else if off + n <=? len (data f)
       then (firstn (Z.to_nat n) (skipn (Z.to_nat off) (data f)), None)
       else ([], Some EOF).

(** ** The database *)

Record record : Type := mkRecord {
  offset : Z;        (* absolute offset of this record *)
  size : Z;          (* size (in bytes), including padding *)
  left : Z;          (* absolute offset of the left node *)
  right : Z;         (* absolute offset of the right node *)
  key : bytes;
  value : bytes
}.

Record HashDB : Type := mkHashDB {
  nbuckets : Z;      (* 2^nbuckets buckets *)
  buckets : list Z;  (* bucket array *)
  file : File        (* associated file *)
}.

(** [&record{offset: off}]: the other fields are zero. *)
Definition record_at_offset (off : Z) : record := mkRecord off 0 0 0 [] [].

(** The largest allocation of the Go runtime on a 64-bit platform. *)
Definition maxAlloc : Z := 2 ^ 48.

(** [make([]T, n)] for elements of [elem_size] bytes. *)
Definition make {A : Type} (zero : A) (n elem_size : Z) : outcome (list A) :=
  if (n <? 0) || (maxAlloc <? n * elem_size) then Panic
  else Ret (repeat zero (Z.to_nat n)).

(** [x << n] on [int]. *)
Definition shl_int (x n : Z) : Z :=
  if 64 <=? n then 0 else to_int64 (Z.shiftl x n).

(** [l[i]] and [l[i] = x] for an unsigned index. *)
Definition index (l : list Z) (i : Z) : outcome Z :=
  match nth_error l (Z.to_nat i) with
  | Some x => Ret x
  | None => Panic
  end.

Fixpoint update (l : list Z) (i : nat) (x : Z) : list Z :=
  match l, i with
  | [], _ => []
  | _ :: l', O => x :: l'
  | y :: l', S i' => y :: update l' i' x
  end.

(** Write the bucket array to the file.  The errors of the writes are
    dropped, as in the source. *)
Definition writeBuckets (db : HashDB) : HashDB :=
  let '(f0, _, _) := Seek (file db) 0 0 in
  let '(f1, _) := Write f0 (be_bytes 4 (nbuckets db)) in
  let '(f2, _) := Write f1 (flat_map (be_bytes 8) (buckets db)) in
  mkHashDB (nbuckets db) (buckets db) f2.

(** Create a new hash database with 2^nbuckets available slots.
    [os.Create] gives an empty file; the argument is a [uint32]. *)
Definition Create (nbuckets : Z) : outcome (HashDB * option error) :=
  let nbuckets := wrap32 nbuckets in
  bs <- make 0 (shl_int 1 nbuckets) 8 ;;
  Ret (writeBuckets (mkHashDB nbuckets bs (mkFile [] 0)), None).

(** [sum[i] << (8 * i)]: a shift of a [byte] stays a [byte]. *)
Definition shl_uint8 (b : byte) (n : Z) : Z := (byte_to_Z b * 2 ^ n) mod 256.

(** Calculate the bucket ID for a given key. *)
Definition bucket (db : HashDB) (key : bytes) : Z :=
  let sum := MD5.sum key in
  let bucket_id :=
    fold_left
      (fun id i => Z.lor id (wrap64 (shl_uint8 (nth i sum x00) (8 * Z.of_nat i))))
      (seq 0 8) 0 in
  Z.land bucket_id (Z.shiftr (2 ^ 64 - 1) (wrap32 (64 - nbuckets db))).

(** Calculates the next power of two.  The loop runs for
    [i = 1, 2, 4, ..., 64]. *)
Definition nextPowerTwo (x : Z) : Z :=
  if x =? 0 then 1
  else
    let x := wrap32 (x - 1) in
    let x := fold_left (fun x i => Z.lor x (Z.shiftr x i))
                       [1; 2; 4; 8; 16; 32; 64] x in
    wrap32 (x + 1).

(** The bytes that [writeRecord] puts into its buffer. *)
Definition record_bytes (rec : record) : bytes :=
  be_bytes 4 (wrap32 (size rec)) ++ be_bytes 8 (wrap64 (left rec))
    ++ be_bytes 8 (wrap64 (right rec))
    ++ be_bytes 4 (wrap32 (len (key rec)))
    ++ be_bytes 4 (wrap32 (len (value rec)))
    ++ key rec ++ value rec.

(** [buffer.Bytes()[:rec.size]]: the buffer has capacity [rec.size] and
    starts zeroed, so a shorter content is followed by zeros and a longer
    one is cut. *)
Definition encode (rec : record) : bytes :=
  let b := record_bytes rec in
  firstn (Z.to_nat (size rec)) (b ++ repeat x00 (Z.to_nat (size rec) - length b)).

(** Write a record to the file. *)
Definition writeRecord (f : File) (rec : record) : File * option error :=
  WriteAt f (encode rec) (to_int64 (offset rec)).

(** Read a record from the file. *)
Definition readRecord (f : File) (rec : record) : outcome (record * option error) :=
  match ReadAt f 28 (to_int64 (offset rec)) with
  | (_, Some e) => Ret (rec, Some e)
  | (header, None) =>
      let size := be_value (firstn 4 header) in
      let left := be_value (firstn 8 (skipn 4 header)) in
      let right := be_value (firstn 8 (skipn 12 header)) in
      let keyl := be_value (firstn 4 (skipn 20 header)) in
      let vall := be_value (firstn 4 (skipn 24 header)) in
      let rec1 := mkRecord (offset rec) size left right (key rec) (value rec) in
      match ReadAt f (wrap32 (keyl + vall))
                   (to_int64 (to_int64 (offset rec) + 28)) with
      | (_, Some e) => Ret (rec1, Some e)
      | (data, None) =>
          if wrap32 (keyl + vall) <? keyl then Panic
          else Ret (mkRecord (offset rec) size left right
                      (firstn (Z.to_nat keyl) data)
                      (firstn (Z.to_nat vall) (skipn (Z.to_nat keyl) data)),
                    None)
      end
  end.

(** Perform a binary search to find a specific record.  If no matching
    record was found, the record returned is the parent record.  [fuel]
    bounds the number of records read. *)
Fixpoint binSearch (fuel : nat) (f : File) (k : bytes) (rec : record)
  : outcome (record * Z * option error) :=
  match fuel with
  | O => OutOfFuel
  | S fuel' =>
      r <- readRecord f rec ;;
      match r with
      | (rec, Some e) => Ret (rec, 0, Some e)
      | (rec, None) =>
          let cmp := Compare k (key rec) in
          if (cmp <? 0) && negb (left rec =? 0) then
            binSearch fuel' f k
              (mkRecord (left rec) (size rec) (left rec) (right rec)
                        (key rec) (value rec))
          else if (0 <? cmp) && negb (right rec =? 0) then
            binSearch fuel' f k
              (mkRecord (right rec) (size rec) (left rec) (right rec)
                        (key rec) (value rec))
          else Ret (rec, cmp, None)
      end
  end.

(** The record that [Set] creates for a pair: [&record{offset: ..., size:
    nextPowerTwo(uint32(28 + len(key) + len(value))), key: ..., value:
    ...}]. *)
Definition new_record (off : Z) (k v : bytes) : record :=
  mkRecord off (nextPowerTwo (wrap32 (28 + len k + len v))) 0 0 k v.

(** The budget that [Set_] and [Get] give to [binSearch]: a walk that
    reads more records than the file has bytes has read one offset
    twice, and then never ends. *)
Definition walk_budget (f : File) : nat := S (length (data f)).

(** The last statements of [Set]: the new record is written and the
    error of this write is the result. *)
Definition Set_write (db : HashDB) (new : record) : outcome (HashDB * option error) :=
  let '(f, err) := writeRecord (file db) new in
  Ret (mkHashDB (nbuckets db) (buckets db) f, err).

(** Store a (key, value) pair in the database ([Set] in the source; the
    name is reserved here).  The errors of [writeBuckets] and of the
    write of the parent record are dropped, as in the source. *)
Definition Set_ (db : HashDB) (k v : bytes) : outcome (HashDB * option error) :=
  match Seek (file db) 0 2 with
  | (f, _, Some e) => Ret (mkHashDB (nbuckets db) (buckets db) f, Some e)
  | (f, off, None) =>
      let db := mkHashDB (nbuckets db) (buckets db) f in
      let bucket_id := bucket db k in
      root <- index (buckets db) bucket_id ;;
      if root =? 0 then
        Set_write
          (writeBuckets
             (mkHashDB (nbuckets db)
                       (update (buckets db) (Z.to_nat bucket_id) off)
                       (file db)))
          (new_record off k v)
      else
        r <- binSearch (walk_budget (file db)) (file db) k
                       (record_at_offset root) ;;
        match r with
        | (_, _, Some e) => Ret (db, Some e)
        | (other, cmp, None) =>
            if cmp =? 0 then Set_write db (new_record off k v)
            else if cmp <? 0 then
              let other := mkRecord (offset other) (size other) off
                             (right other) (key other) (value other) in
              Set_write (mkHashDB (nbuckets db) (buckets db)
                                  (fst (writeRecord (file db) other)))
                        (new_record off k v)
            else
              let other := mkRecord (offset other) (size other) (left other)
                             off (key other) (value other) in
              Set_write (mkHashDB (nbuckets db) (buckets db)
                                  (fst (writeRecord (file db) other)))
                        (new_record off k v)
        end
  end.

(** Retrieve a (key, value) pair from the database.  The value is [nil]
    ([None]) when the key is absent or an error is returned. *)
Definition Get (db : HashDB) (k : bytes) : outcome (option bytes * option error) :=
  off <- index (buckets db) (bucket db k) ;;
  if off =? 0 then Ret (None, None)
  else
    r <- binSearch (walk_budget (file db)) (file db) k (record_at_offset off) ;;
    match r with
    | (_, _, Some e) => Ret (None, Some e)
    | (rec, cmp, None) =>
        if cmp =? 0 then Ret (Some (value rec), None) else Ret (None, None)
    end.

(** A run of [Set_] calls, each of which returns without an error. *)
Fixpoint SetAll (db : HashDB) (ops : list (bytes * bytes)) : option HashDB :=
  match ops with
  | [] => Some db
  | (k, v) :: ops' =>
      match Set_ db k v with
      | Ret (db', None) => SetAll db' ops'
      | _ => None
      end
  end.

Definition CreateAndSet (nbuckets : Z) (ops : list (bytes * bytes)) : option HashDB :=
  match Create nbuckets with
  | Ret (db, None) => SetAll db ops
  | _ => None
  end.


(** * Definitions of the specification *)

(** Byte strings of the tests. *)
Definition str (s : string) : bytes := list_byte_of_string s.

Definition hex (bs : bytes) : list Z := map byte_to_Z bs.

Definition pairs (l : list (string * string)) : list (bytes * bytes) :=
  map (fun p => (str (fst p), str (snd p))) l.

Definition test_data : list (string * string) :=
  [("foo", "bar"); ("key", "value");
   ("user/1102", "id=1102&username=steve&data=3"); ("empty", "")]%string.

Definition GetAll (db : option HashDB) (ks : list string) :=
  match db with
  | Some db => map (fun k => Get db (str k)) ks
  | None => []
  end.

(** The keys and values of the repository's test [TestCollision]:
    [key00 .. key15] and [value00 .. value15]. *)
Definition two_digits (i : nat) : string :=
  String (Ascii.ascii_of_nat (48 + i / 10))
    (String (Ascii.ascii_of_nat (48 + i mod 10)) EmptyString).

Definition collision_data : list (string * string) :=
  map (fun i => (String.append "key" (two_digits i),
                 String.append "value" (two_digits i))) (seq 0 16).

(** A record as the file format holds it: the fields are in the range
    of their types, the record lies below the largest file offset and
    its payload fits into its allocated size. *)
Definition wf_record (r : record) : Prop :=
  0 <= offset r /\ offset r + size r <= maxOffset /\
  28 + len (key r) + len (value r) <= size r /\ size r < 2 ^ 32 /\
  0 <= left r < 2 ^ 64 /\ 0 <= right r < 2 ^ 64.

(** The fixed-length header of a record. *)
Definition record_header (r : record) : bytes :=
  be_bytes 4 (wrap32 (size r)) ++ be_bytes 8 (wrap64 (left r))
    ++ be_bytes 8 (wrap64 (right r))
    ++ be_bytes 4 (wrap32 (len (key r)))
    ++ be_bytes 4 (wrap32 (len (value r))).

(** The zero padding after the payload. *)
Definition record_padding (r : record) : bytes :=
  repeat x00 (Z.to_nat (size r - 28 - len (key r) - len (value r))).

(** The header and the bucket directory, as [writeBuckets] writes them. *)
Definition directory (db : HashDB) : bytes :=
  be_bytes 4 (nbuckets db) ++ flat_map (be_bytes 8) (buckets db).

(** [bits_of m a y]: bit [j] of [a] is set exactly when one of the [m]
    bits of [y] from [j] upwards is set. *)
Definition bits_of (m a y : Z) : Prop :=
  forall j, 0 <= j ->
    (Z.testbit a j = true <-> exists d, 0 <= d < m /\ Z.testbit y (j + d) = true).

(** The loop of [nextPowerTwo]. *)
Definition smear (y : Z) : Z :=
  fold_left (fun x i => Z.lor x (Z.shiftr x i)) [1; 2; 4; 8; 16; 32; 64] y.

(** A pair whose record the 32-bit size field can hold: up to [2^31]
    the next power of two is still a [uint32]. *)
Definition fits (k v : bytes) : Prop := 28 + len k + len v <= 2 ^ 31.

(** [s] is the smallest power of two that is at least [n]. *)
Definition least_power_of_two (n s : Z) : Prop :=
  (exists e, 0 <= e /\ s = 2 ^ e) /\ n <= s /\
  (forall e, 0 <= e -> n <= 2 ^ e -> s <= 2 ^ e).

(** ** The record log

    After the directory the file is a sequence of records, each at the
    offset where the one before it ends. *)
Fixpoint laid_out (off : Z) (log : list record) : Prop :=
  match log with
  | [] => True
  | r :: log' => offset r = off /\ wf_record r /\ laid_out (off + size r) log'
  end.

Definition image (log : list record) : bytes := flat_map encode log.

(** Reading at the offset of a record of the log gives that record. *)
Definition reads_ok (f : File) (log : list record) : Prop :=
  forall r rec, In r log -> offset rec = offset r ->
    readRecord f rec = Ret (r, None).

(** A link is zero or the offset of a record further on in the file. *)
Definition link_ok (log : list record) (r : record) (x : Z) : Prop :=
  x = 0 \/ (offset r < x /\ exists c, In c log /\ offset c = x).

Definition links_ok (log : list record) : Prop :=
  forall r, In r log -> link_ok log r (left r) /\ link_ok log r (right r).

(** ** Search trees of records *)
Inductive tree : Type :=
| Leaf
| Node (l : tree) (r : record) (rt : tree).

Fixpoint In_tree (x : record) (t : tree) : Prop :=
  match t with
  | Leaf => False
  | Node l r rt => x = r \/ In_tree x l \/ In_tree x rt
  end.

Fixpoint all_keys (P : bytes -> Prop) (t : tree) : Prop :=
  match t with
  | Leaf => True
  | Node l r rt => P (key r) /\ all_keys P l /\ all_keys P rt
  end.

(** The order of a binary search tree under [bytes.Compare]: the keys on
    the left compare less and the keys on the right compare greater. *)
Fixpoint bst (t : tree) : Prop :=
  match t with
  | Leaf => True
  | Node l r rt =>
      all_keys (fun k => Compare k (key r) < 0) l /\
      all_keys (fun k => 0 < Compare k (key r)) rt /\
      bst l /\ bst rt
  end.

Fixpoint height (t : tree) : nat :=
  match t with
  | Leaf => O
  | Node l _ rt => S (Nat.max (height l) (height rt))
  end.

(** [tree_at f off t]: the records that the file [f] holds from offset
    [off] on along the left and right offsets are the nodes of [t]. *)
Fixpoint tree_at (f : File) (off : Z) (t : tree) : Prop :=
  match t with
  | Leaf => off = 0
  | Node l r rt =>
      off <> 0 /\ readRecord f (record_at_offset off) = Ret (r, None) /\
      tree_at f (left r) l /\ tree_at f (right r) rt
  end.

(** The same over the records of a log. *)
Fixpoint repr (log : list record) (off : Z) (t : tree) : Prop :=
  match t with
  | Leaf => off = 0
  | Node l r rt =>
      off <> 0 /\ In r log /\ offset r = off /\
      repr log (left r) l /\ repr log (right r) rt
  end.

(** The record at which the walk of [binSearch] for [k] stops. *)
Fixpoint tstop (k : bytes) (t : tree) : record :=
  match t with
  | Leaf => record_at_offset 0
  | Node l r rt =>
      let cmp := Compare k (key r) in
      if (cmp <? 0) && negb (left r =? 0) then tstop k l
      else if (0 <? cmp) && negb (right r =? 0) then tstop k rt
      else r
  end.

(** The value that a search tree holds for a key. *)
Fixpoint tvalue (k : bytes) (t : tree) : option bytes :=
  match t with
  | Leaf => None
  | Node l r rt =>
      let cmp := Compare k (key r) in
      if cmp <? 0 then tvalue k l
      else if 0 <? cmp then tvalue k rt
      else Some (value r)
  end.

Definition set_left (r : record) (x : Z) : record :=
  mkRecord (offset r) (size r) x (right r) (key r) (value r).

Definition set_right (r : record) (x : Z) : record :=
  mkRecord (offset r) (size r) (left r) x (key r) (value r).

(** The parent record with the link that [Set] rewrites. *)
Definition relink (p : record) (cmp x : Z) : record :=
  if cmp <? 0 then set_left p x else set_right p x.

(** The tree after [Set] has threaded the record [new] under it. *)
Fixpoint tinsert (new : record) (t : tree) : tree :=
  match t with
  | Leaf => Node Leaf new Leaf
  | Node l r rt =>
      let cmp := Compare (key new) (key r) in
      if cmp =? 0 then t
      else if cmp <? 0 then
        Node (tinsert new l)
             (if left r =? 0 then set_left r (offset new) else r) rt
      else
        Node l (if right r =? 0 then set_right r (offset new) else r)
             (tinsert new rt)
  end.

(** The value of the first pair with key [k]. *)
Fixpoint first_value (ops : list (bytes * bytes)) (k : bytes) : option bytes :=
  match ops with
  | [] => None
  | (k', v) :: ops' =>
      if Compare k' k =? 0 then Some v else first_value ops' k
  end.

(** The root offset of bucket [i]. *)
Definition root (db : HashDB) (i : Z) : Z := nth (Z.to_nat i) (buckets db) 0.

(** ** The invariant of the database

    [ops] are the pairs stored so far, [log] the records of the file and
    [trees] the search tree of each bucket. *)
Record Inv (db : HashDB) (ops : list (bytes * bytes)) (log : list record)
           (trees : Z -> tree) : Prop := mkInv {
  inv_nbuckets : 0 <= nbuckets db <= 45;
  inv_buckets : len (buckets db) = 2 ^ nbuckets db;
  inv_data : data (file db) = directory db ++ image log;
  inv_max : len (data (file db)) <= maxOffset;
  inv_layout : laid_out (len (directory db)) log;
  inv_links : links_ok log;
  inv_trees : forall i, 0 <= i < 2 ^ nbuckets db ->
      repr log (root db i) (trees i) /\ bst (trees i) /\
      all_keys (fun k => bucket db k = i) (trees i);
  inv_values : forall k,
      tvalue k (trees (bucket db k)) = first_value ops k
}.

(** The trees with the tree of bucket [i] replaced. *)
Definition upd (trees : Z -> tree) (i : Z) (t : tree) (j : Z) : tree :=
  if j =? i then t else trees j.

(** What one [Set] does to the bucket array, to the log and to the
    trees: it takes the root of an empty bucket, or finds the key and
    appends a record that nothing links to, or rewrites one link of the
    parent found by the walk. *)
Inductive set_change (db : HashDB) (log : list record) (trees : Z -> tree)
    (k v : bytes) (db' : HashDB) (log' : list record) (trees' : Z -> tree)
  : Prop :=
| change_root :
    root db (bucket db k) = 0 ->
    buckets db' = update (buckets db) (Z.to_nat (bucket db k))
                         (len (data (file db))) ->
    log' = log ++ [new_record (len (data (file db))) k v] ->
    trees' = upd trees (bucket db k)
               (tinsert (new_record (len (data (file db))) k v)
                        (trees (bucket db k))) ->
    set_change db log trees k v db' log' trees'
| change_none :
    root db (bucket db k) <> 0 ->
    Compare k (key (tstop k (trees (bucket db k)))) = 0 ->
    buckets db' = buckets db ->
    log' = log ++ [new_record (len (data (file db))) k v] ->
    trees' = trees ->
    set_change db log trees k v db' log' trees'
| change_link (l1 l2 : list record) :
    root db (bucket db k) <> 0 ->
    Compare k (key (tstop k (trees (bucket db k)))) <> 0 ->
    log = l1 ++ tstop k (trees (bucket db k)) :: l2 ->
    buckets db' = buckets db ->
    log' = (l1 ++ relink (tstop k (trees (bucket db k)))
                         (Compare k (key (tstop k (trees (bucket db k)))))
                         (len (data (file db))) :: l2)
           ++ [new_record (len (data (file db))) k v] ->
    trees' = upd trees (bucket db k)
               (tinsert (new_record (len (data (file db))) k v)
                        (trees (bucket db k))) ->
    set_change db log trees k v db' log' trees'.

(** ** Runs of the database *)

(** The calls of the interface. *)
Inductive op : Type :=
| DoSet (k v : bytes)
| DoGet (k : bytes).

(** A run of calls, each of which returns, the [Set] calls without an
    error. *)
Fixpoint run (db : HashDB) (l : list op) : option HashDB :=
  match l with
  | [] => Some db
  | DoSet k v :: l' =>
      match Set_ db k v with
      | Ret (db', None) => run db' l'
      | _ => None
      end
  | DoGet k :: l' =>
      match Get db k with
      | Ret _ => run db l'
      | _ => None
      end
  end.

Definition CreateAndRun (nbuckets : Z) (l : list op) : option HashDB :=
  match Create nbuckets with
  | Ret (db, None) => run db l
  | _ => None
  end.

(** The pairs that a run stores, and the runs whose pairs all fit. *)
Fixpoint sets_of (l : list op) : list (bytes * bytes) :=
  match l with
  | [] => []
  | DoSet k v :: l' => (k, v) :: sets_of l'
  | DoGet _ :: l' => sets_of l'
  end.

Definition all_fit (ops : list (bytes * bytes)) : Prop :=
  Forall (fun p => fits (fst p) (snd p)) ops.

(** Every link of the tree leads to a greater offset. *)
Fixpoint forward (t : tree) : Prop :=
  match t with
  | Leaf => True
  | Node l r rt =>
      (left r = 0 \/ offset r < left r) /\
      (right r = 0 \/ offset r < right r) /\
      forward l /\ forward rt
  end.

(** Two records with the same place and the same payload. *)
Definition same_payload (r r' : record) : Prop :=
  offset r' = offset r /\ size r' = size r /\
  key r' = key r /\ value r' = value r.

(** [later db db']: [db'] is the database after some calls of [Set] and
    [Get] on [db] that return, with or without an error. *)
Inductive later : HashDB -> HashDB -> Prop :=
| later_refl (db : HashDB) : later db db
| later_Set (db db1 db' : HashDB) (k v : bytes) (err : option error) :
    Set_ db k v = Ret (db1, err) -> later db1 db' -> later db db'
| later_Get (db db' : HashDB) (k : bytes) (res : option bytes * option error) :
    Get db k = Ret res -> later db db' -> later db db'.

(** ** The bucket index of the specification

    "Interpret its first 8 bytes as an unsigned 64-bit integer assembled
    in little-endian byte order (byte 0 is the least-significant byte);
    mask to retain only the lowest B bits." *)
Definition bucket_of_spec (k : bytes) (B : Z) : Z :=
  Z.land (MD5.le_value (firstn 8 (MD5.sum k))) (Z.ones B).

(** ** States of the database for the evaluations *)

Definition state_after (nb : Z) (ops : list (bytes * bytes)) : HashDB :=
  match CreateAndSet nb ops with
  | Some db => db
  | None => mkHashDB 0 [] (mkFile [] 0)
  end.

Definition db_of (o : outcome (HashDB * option error)) : HashDB :=
  match o with
  | Ret (db, _) => db
  | _ => mkHashDB 0 [] (mkFile [] 0)
  end.

(** A key of [2^31 - 1] bytes, the longest that a slice indexed by a
    32-bit [int] holds: the letter c and zeros.  With its header of 28
    bytes its record is longer than [2^31] bytes. *)
Definition big_key : bytes := x63 :: repeat x00 (Z.to_nat (2 ^ 31 - 2)).

(** One bucket: the empty database, and the database with the pair
    ("b", "1"). *)
Definition db_empty : HashDB := Eval vm_compute in state_after 0 [].

Definition db_b : HashDB :=
  Eval vm_compute in state_after 0 [(str "b", str "1")].

(** The record of "b" in [db_b]. *)
Definition rec_b : record :=
  Eval vm_compute in
    match readRecord (file db_b) (record_at_offset 12) with
    | Ret (r, _) => r
    | _ => record_at_offset 0
    end.

(** [db_empty] and [db_b] after [Set] of [big_key]: the root, or the
    right offset of "b", is the end of the file, where nothing is
    written. *)
Definition db_big : HashDB :=
  Eval vm_compute in
    writeBuckets (mkHashDB 0 [12] (mkFile (data (file db_empty)) 12)).

Definition db_b_big : HashDB :=
  Eval vm_compute in
    mkHashDB 0 [12]
      (fst (writeRecord (mkFile (data (file db_b)) 44) (set_right rec_b 44))).

(** [db_b_big] after [Set] of ("b", "2") and after [Set] of ("a", "0"). *)
Definition db_b_big_b : HashDB :=
  Eval vm_compute in db_of (Set_ db_b_big (str "b") (str "2")).

Definition db_b_big_a : HashDB :=
  Eval vm_compute in db_of (Set_ db_b_big (str "a") (str "0")).

(** Two buckets: the empty database; [big_key] stored in bucket 0 and
    then "key01" (bucket 1) and "key00" (bucket 0); [big_key] stored in
    bucket 1 and then "key00" and "key01". *)
Definition db2_empty : HashDB := Eval vm_compute in state_after 1 [].

Definition db2_big0 : HashDB :=
  Eval vm_compute in
    writeBuckets (mkHashDB 1 [20; 0] (mkFile (data (file db2_empty)) 20)).

Definition db2_big0_key01 : HashDB :=
  Eval vm_compute in db_of (Set_ db2_big0 (str "key01") (str "value01")).

Definition db2_big0_key01_key00 : HashDB :=
  Eval vm_compute in db_of (Set_ db2_big0_key01 (str "key00") (str "value00")).

Definition db2_big1 : HashDB :=
  Eval vm_compute in
    writeBuckets (mkHashDB 1 [0; 20] (mkFile (data (file db2_empty)) 20)).

Definition db2_big1_key00 : HashDB :=
  Eval vm_compute in db_of (Set_ db2_big1 (str "key00") (str "value00")).

Definition db2_big1_key00_key01 : HashDB :=
  Eval vm_compute in db_of (Set_ db2_big1_key00 (str "key01") (str "value01")).

(** The record at offset 20 of the two databases before the last [Set]. *)
Definition rec_key01 : record :=
  Eval vm_compute in
    match readRecord (file db2_big0_key01) (record_at_offset 20) with
    | Ret (r, _) => r
    | _ => record_at_offset 0
    end.

Definition rec_key00 : record :=
  Eval vm_compute in
    match readRecord (file db2_big1_key00) (record_at_offset 20) with
    | Ret (r, _) => r
    | _ => record_at_offset 0
    end.

(** The database of [Create 64]. *)
Definition db_64 : HashDB := Eval vm_compute in db_of (Create 64).

(** [db_b_big_a]: the record of "b", whose two offsets are 44, and the
    record of "a" at 44. *)
Definition rec_b_both : record :=
  Eval vm_compute in
    match readRecord (file db_b_big_a) (record_at_offset 12) with
    | Ret (r, _) => r
    | _ => record_at_offset 0
    end.

Definition rec_a : record :=
  Eval vm_compute in
    match readRecord (file db_b_big_a) (record_at_offset 44) with
    | Ret (r, _) => r
    | _ => record_at_offset 0
    end.

(** Two buckets and three pairs whose keys are all of bucket 0; the
    last pair has an empty key and an empty value. *)
Definition ops3 : list (bytes * bytes) :=
  [(str "key00", str "value00"); (str "key02", str "value02"); ([], [])].

Definition db1 : HashDB :=
  Eval vm_compute in state_after 1 [(str "key00", str "value00")].

Definition db2 : HashDB :=
  Eval vm_compute in
    state_after 1 [(str "key00", str "value00"); (str "key02", str "value02")].

Definition db3 : HashDB := Eval vm_compute in state_after 1 ops3.

Definition calls3 : list op :=
  [DoSet (str "key00") (str "value00"); DoGet (str "key00");
   DoSet (str "key02") (str "value02"); DoGet (str "nokey"); DoSet [] []].

(** The runs with the long key. *)
Definition ops_big : list (bytes * bytes) := [(big_key, [])].

Definition ops_b_big : list (bytes * bytes) :=
  [(str "b", str "1"); (big_key, [])].

(** * Definitions for the further properties of the code *)

(** The allocated size of the record of a pair, as [Set] computes it:
    [nextPowerTwo(uint32(28 + len(key) + len(value)))]. *)
Definition record_size (k v : bytes) : Z :=
  nextPowerTwo (wrap32 (28 + len k + len v)).

(** The bytes that the records of a run of [Set] calls take. *)
Fixpoint total_size (ops : list (bytes * bytes)) : Z :=
  match ops with
  | [] => 0
  | (k, v) :: ops' => record_size k v + total_size ops'
  end.



(** The pairs of [TestCollision] for [n] keys:
    [fmt.Sprintf("key%02d", i)] and [fmt.Sprintf("value%02d", i)]. *)
Definition collision_key (i : nat) : bytes :=
  str (String.append "key" (two_digits i)).

Definition collision_value (i : nat) : bytes :=
  str (String.append "value" (two_digits i)).

Definition collision_pairs (n : nat) : list (bytes * bytes) :=
  map (fun i => (collision_key i, collision_value i)) (seq 0 n).

(** The number that the two digits of a key of [TestCollision] spell. *)
Definition collision_index (k : bytes) : nat :=
  Z.to_nat (10 * (byte_to_Z (nth 3 k x00) - 48) + (byte_to_Z (nth 4 k x00) - 48)).

(** The file of [db_b] cut in the value of its record, and a file that
    is one header whose two lengths add up to [2^32]. *)
Definition file_cut : File :=
  mkFile (directory db_b ++ firstn 29 (encode rec_b)) 0.

Definition file_long_lengths : File :=
  mkFile ([] ++ (be_bytes 4 32 ++ be_bytes 8 0 ++ be_bytes 8 0
                   ++ be_bytes 4 (2 ^ 32 - 1) ++ be_bytes 4 1) ++ []) 0.




(** * Bytes, integers and lists *)

Lemma byte_to_Z_range (b : byte) : 0 <= byte_to_Z b < 256.
Proof.
  unfold byte_to_Z. pose proof (Byte.to_N_bounded b). lia.
Qed.

Lemma byte_to_of_Z (z : Z) : byte_to_Z (byte_of_Z z) = z mod 256.
Proof.
  unfold byte_to_Z, byte_of_Z.
  pose proof (Z.mod_pos_bound z 256 ltac:(lia)) as Hm.
  destruct (Byte.of_N (Z.to_N (z mod 256))) as [b|] eqn:E.
  - apply Byte.to_of_N in E. rewrite E. apply Z2N.id. lia.
  - apply Byte.of_N_None_iff in E. lia.
Qed.

Lemma byte_of_to_Z (b : byte) : byte_of_Z (byte_to_Z b) = b.
Proof.
  unfold byte_of_Z. rewrite Z.mod_small by apply byte_to_Z_range.
  unfold byte_to_Z. rewrite N2Z.id, Byte.of_to_N. reflexivity.
Qed.

Lemma byte_to_Z_inj (a b : byte) : byte_to_Z a = byte_to_Z b -> a = b.
Proof.
  intros H. rewrite <- (byte_of_to_Z a), <- (byte_of_to_Z b), H. reflexivity.
Qed.

Lemma len_nonneg {A : Type} (l : list A) : 0 <= len l.
Proof. unfold len. lia. Qed.

Lemma len_app {A : Type} (l1 l2 : list A) : len (l1 ++ l2) = len l1 + len l2.
Proof. unfold len. rewrite length_app. lia. Qed.

Lemma len_nil {A : Type} : len (@nil A) = 0.
Proof. reflexivity. Qed.

Lemma to_nat_len {A : Type} (l : list A) : Z.to_nat (len l) = length l.
Proof. unfold len. lia. Qed.

Lemma length_be_bytes (n : nat) (x : Z) : length (be_bytes n x) = n.
Proof.
  revert x. induction n as [|n IH]; intros x; simpl.
  - reflexivity.
  - rewrite length_app, IH. simpl. lia.
Qed.

Lemma be_value_snoc (l : bytes) (b : byte) :
  be_value (l ++ [b]) = be_value l * 256 + byte_to_Z b.
Proof. unfold be_value. rewrite fold_left_app. reflexivity. Qed.

(** Decoding what was encoded gives the [n] low bytes back. *)
Lemma be_value_be_bytes (n : nat) (x : Z) :
  be_value (be_bytes n x) = x mod 256 ^ Z.of_nat n.
Proof.
  revert x. induction n as [|n IH]; intros x.
  - simpl. rewrite Z.mod_1_r. reflexivity.
  - cbn [be_bytes]. rewrite be_value_snoc, IH, byte_to_of_Z.
    rewrite Nat2Z.inj_succ, Z.pow_succ_r by lia.
    rewrite (Z.rem_mul_r x 256 (256 ^ Z.of_nat n)) by lia. lia.
Qed.

Lemma be_value_be_bytes_small (n : nat) (x : Z) :
  0 <= x < 256 ^ Z.of_nat n -> be_value (be_bytes n x) = x.
Proof.
  intros H. rewrite be_value_be_bytes. apply Z.mod_small. exact H.
Qed.

Lemma wrap32_small (x : Z) : 0 <= x < 2 ^ 32 -> wrap32 x = x.
Proof. intros H. apply Z.mod_small. exact H. Qed.

Lemma wrap64_small (x : Z) : 0 <= x < 2 ^ 64 -> wrap64 x = x.
Proof. intros H. apply Z.mod_small. exact H. Qed.

Lemma to_int64_small (x : Z) : 0 <= x < 2 ^ 63 -> to_int64 x = x.
Proof.
  intros H. unfold to_int64. rewrite wrap64_small by lia.
  destruct (Z.ltb_spec x (2 ^ 63)); lia.
Qed.

(** ** [bytes.Compare] *)

Lemma Compare_refl (a : bytes) : Compare a a = 0.
Proof.
  induction a as [|x a IH]; simpl.
  - reflexivity.
  - rewrite Z.ltb_irrefl. exact IH.
Qed.

Lemma Compare_eq (a b : bytes) : Compare a b = 0 -> a = b.
Proof.
  revert b. induction a as [|x a IH]; intros [|y b]; simpl; try discriminate.
  - reflexivity.
  - destruct (Z.ltb_spec (byte_to_Z x) (byte_to_Z y)); [discriminate|].
    destruct (Z.ltb_spec (byte_to_Z y) (byte_to_Z x)); [discriminate|].
    intros Hc. f_equal.
    + apply byte_to_Z_inj. lia.
    + apply IH. exact Hc.
Qed.

Lemma Compare_values (a b : bytes) :
  Compare a b = -1 \/ Compare a b = 0 \/ Compare a b = 1.
Proof.
  revert b. induction a as [|x a IH]; intros [|y b]; simpl; auto.
  destruct (byte_to_Z x <? byte_to_Z y); auto.
  destruct (byte_to_Z y <? byte_to_Z x); auto.
Qed.

Lemma Compare_antisym (a b : bytes) : Compare b a = - Compare a b.
Proof.
  revert b. induction a as [|x a IH]; intros [|y b]; simpl; try reflexivity.
  destruct (Z.ltb_spec (byte_to_Z x) (byte_to_Z y));
    destruct (Z.ltb_spec (byte_to_Z y) (byte_to_Z x)); try lia; auto.
Qed.

(** ** Slices of lists *)

Lemma firstn_app_exact {A : Type} (l1 l2 : list A) (n : nat) :
  n = length l1 -> firstn n (l1 ++ l2) = l1.
Proof.
  intros ->. rewrite firstn_app, Nat.sub_diag, firstn_all. simpl.
  apply app_nil_r.
Qed.

Lemma skipn_app_exact {A : Type} (l1 l2 : list A) (n : nat) :
  n = length l1 -> skipn n (l1 ++ l2) = l2.
Proof.
  intros ->. rewrite skipn_app, Nat.sub_diag, skipn_all. reflexivity.
Qed.

Lemma firstn_app_le {A : Type} (l1 l2 : list A) (n : nat) :
  (n <= length l1)%nat -> firstn n (l1 ++ l2) = firstn n l1.
Proof.
  intros H. rewrite firstn_app.
  replace (n - length l1)%nat with O by lia. simpl. apply app_nil_r.
Qed.

Lemma splice_middle (pre m m' post : bytes) (off : nat) :
  off = length pre -> length m' = length m ->
  splice (pre ++ m ++ post) off m' = pre ++ m' ++ post.
Proof.
  intros -> Hlen. unfold splice.
  rewrite firstn_app_exact by reflexivity.
  rewrite length_app.
  replace (length pre - (length pre + length (m ++ post)))%nat with O by lia.
  rewrite skipn_app.
  replace (length pre + length m' - length pre)%nat with (length m') by lia.
  rewrite skipn_all2 by lia. rewrite Hlen.
  rewrite skipn_app_exact by reflexivity. reflexivity.
Qed.

Lemma splice_end (d b : bytes) (off : nat) :
  off = length d -> splice d off b = d ++ b.
Proof.
  intros ->. unfold splice. rewrite firstn_all, Nat.sub_diag.
  rewrite skipn_all2 by lia. simpl. rewrite app_nil_r. reflexivity.
Qed.

Lemma length_splice_inside (d b : bytes) (off : nat) :
  (off + length b <= length d)%nat -> length (splice d off b) = length d.
Proof.
  intros H. unfold splice.
  rewrite !length_app, length_firstn, repeat_length, length_skipn. lia.
Qed.

(** * The record codec *)

Lemma length_record_header (r : record) : length (record_header r) = 28%nat.
Proof.
  unfold record_header. rewrite !length_app, !length_be_bytes. reflexivity.
Qed.

Lemma record_bytes_header (r : record) :
  record_bytes r = record_header r ++ key r ++ value r.
Proof.
  unfold record_bytes, record_header. rewrite <- !app_assoc. reflexivity.
Qed.

Lemma len_record_bytes (r : record) :
  len (record_bytes r) = 28 + len (key r) + len (value r).
Proof.
  rewrite record_bytes_header, !len_app. unfold len at 1.
  rewrite length_record_header. lia.
Qed.

(** [encode] always gives as many bytes as the size field says. *)
Lemma length_encode (r : record) : length (encode r) = Z.to_nat (size r).
Proof.
  unfold encode. rewrite length_firstn, length_app, repeat_length. lia.
Qed.

(** When the payload fits, [encode] is header, key, value and zeros. *)
Lemma encode_layout (r : record) :
  28 + len (key r) + len (value r) <= size r ->
  encode r = record_header r ++ (key r ++ value r) ++ record_padding r.
Proof.
  intros Hfit. unfold encode, record_padding.
  pose proof (len_record_bytes r) as Hlen. unfold len in Hlen.
  rewrite firstn_all2.
  - rewrite record_bytes_header, <- !app_assoc. do 3 f_equal.
    rewrite !length_app, length_record_header. f_equal. unfold len in *. lia.
  - rewrite length_app, repeat_length. unfold len in *. lia.
Qed.

Lemma ReadAt_app (f : File) (pre m post : bytes) :
  data f = pre ++ m ++ post -> ReadAt f (len m) (len pre) = (m, None).
Proof.
  intros Hd. unfold ReadAt.
  destruct (Z.ltb_spec (len pre) 0) as [Hneg|_].
  { pose proof (len_nonneg pre). lia. }
  destruct (Z.eqb_spec (len m) 0) as [Hz|Hnz].
  - destruct m; [reflexivity | discriminate].
  - rewrite Hd, !len_app.
    destruct (Z.leb_spec (len pre + len m) (len pre + (len m + len post)))
      as [_|Hgt].
    + rewrite !to_nat_len, skipn_app_exact, firstn_app_exact by reflexivity.
      reflexivity.
    + pose proof (len_nonneg post). lia.
Qed.

Lemma ReadAt_short (f : File) (n off : Z) :
  0 <= off -> 0 < n -> len (data f) < off + n -> ReadAt f n off = ([], Some EOF).
Proof.
  intros Hoff Hn Hlen. unfold ReadAt.
  destruct (Z.ltb_spec off 0); [lia|].
  destruct (Z.eqb_spec n 0); [lia|].
  destruct (Z.leb_spec (off + n) (len (data f))); [lia|reflexivity].
Qed.

Ltac list_slices :=
  repeat first
    [ rewrite firstn_app_exact by (rewrite ?length_be_bytes; reflexivity)
    | rewrite skipn_app_exact by (rewrite ?length_be_bytes; reflexivity) ].

(** The five fields of a header, read back. *)
Lemma header_fields (a b c d e : Z) :
  let h := be_bytes 4 a ++ be_bytes 8 b ++ be_bytes 8 c
             ++ be_bytes 4 d ++ be_bytes 4 e in
  firstn 4 h = be_bytes 4 a /\
  firstn 8 (skipn 4 h) = be_bytes 8 b /\
  firstn 8 (skipn 12 h) = be_bytes 8 c /\
  firstn 4 (skipn 20 h) = be_bytes 4 d /\
  firstn 4 (skipn 24 h) = be_bytes 4 e.
Proof.
  intros h. subst h.
  assert (S12 : forall l : bytes, skipn 12 l = skipn 8 (skipn 4 l))
    by (intros l; rewrite skipn_skipn; reflexivity).
  assert (S20 : forall l : bytes, skipn 20 l = skipn 8 (skipn 12 l))
    by (intros l; rewrite skipn_skipn; reflexivity).
  assert (S24 : forall l : bytes, skipn 24 l = skipn 4 (skipn 20 l))
    by (intros l; rewrite skipn_skipn; reflexivity).
  rewrite S24, S20, S12. list_slices.
  repeat split.
Qed.

(** Reading a record where it was encoded gives the record back. *)
Lemma readRecord_encode (f : File) (pre post : bytes) (r rec : record) :
  wf_record r ->
  data f = pre ++ encode r ++ post ->
  offset r = len pre ->
  offset rec = offset r ->
  readRecord f rec = Ret (r, None).
Proof.
  intros (Hoff & Hmax & Hfit & Hsize & Hleft & Hright) Hd Hpre Hrec.
  pose proof (len_nonneg (key r)) as Hk.
  pose proof (len_nonneg (value r)) as Hv.
  unfold maxOffset in Hmax.
  rewrite encode_layout in Hd by exact Hfit.
  unfold readRecord. rewrite Hrec.
  rewrite (to_int64_small (offset r)) by lia.
  rewrite (to_int64_small (offset r + 28)) by lia.
  assert (H28 : len (record_header r) = 28)
    by (unfold len; rewrite length_record_header; reflexivity).
  rewrite Hpre, <- H28.
  rewrite (ReadAt_app f pre (record_header r)
             ((key r ++ value r) ++ record_padding r ++ post))
    by (rewrite Hd, <- !app_assoc; reflexivity).
  destruct (header_fields (wrap32 (size r)) (wrap64 (left r))
              (wrap64 (right r)) (wrap32 (len (key r)))
              (wrap32 (len (value r)))) as (F1 & F2 & F3 & F4 & F5).
  fold (record_header r) in F1, F2, F3, F4, F5.
  rewrite F1, F2, F3, F4, F5.
  rewrite !be_value_be_bytes_small
    by (cbn; unfold wrap32, wrap64; apply Z.mod_pos_bound; lia).
  rewrite (wrap32_small (size r)), (wrap32_small (len (key r))),
    (wrap32_small (len (value r))), (wrap64_small (left r)),
    (wrap64_small (right r)) by lia.
  rewrite (wrap32_small (len (key r) + len (value r))) by lia.
  replace (len (key r) + len (value r)) with (len (key r ++ value r))
    by apply len_app.
  replace (len pre + len (record_header r))
    with (len (pre ++ record_header r)) by apply len_app.
  rewrite (ReadAt_app f (pre ++ record_header r) (key r ++ value r)
             (record_padding r ++ post))
    by (rewrite Hd, <- !app_assoc; reflexivity).
  rewrite len_app.
  destruct (Z.ltb_spec (len (key r) + len (value r)) (len (key r))); [lia|].
  rewrite !to_nat_len.
  rewrite firstn_app_exact, skipn_app_exact by reflexivity.
  rewrite firstn_all.
  destruct r; simpl in *. subst. reflexivity.
Qed.

(** * Writes to the file *)

Lemma encode_nonempty (r : record) : 0 < size r -> encode r <> [].
Proof.
  intros Hs He. pose proof (length_encode r) as Hl. rewrite He in Hl.
  simpl in Hl. lia.
Qed.

Lemma len_encode (r : record) : 0 <= size r -> len (encode r) = size r.
Proof. intros H. unfold len. rewrite length_encode. lia. Qed.

Lemma WriteAt_ok (f : File) (b : bytes) (off : Z) :
  0 <= off -> b <> [] -> off + len b <= maxOffset ->
  WriteAt f b off = (mkFile (splice (data f) (Z.to_nat off) b) (pos f), None).
Proof.
  intros Hoff Hb Hmax. unfold WriteAt.
  destruct (Z.ltb_spec off 0); [lia|].
  destruct b as [|x b]; [congruence|].
  destruct (Z.ltb_spec maxOffset (off + len (x :: b))); [lia|reflexivity].
Qed.

(** A record rewritten where a record of the same size lies. *)
Lemma writeRecord_inplace (f : File) (pre post : bytes) (r r' : record) :
  data f = pre ++ encode r ++ post ->
  offset r' = len pre -> size r' = size r -> 0 < size r' ->
  offset r' + size r' <= maxOffset ->
  writeRecord f r' = (mkFile (pre ++ encode r' ++ post) (pos f), None).
Proof.
  intros Hd Hoff Hsz Hpos Hmax.
  pose proof (len_nonneg pre) as Hp. unfold maxOffset in Hmax.
  unfold writeRecord. rewrite to_int64_small by lia.
  rewrite WriteAt_ok.
  - rewrite Hd, Hoff, to_nat_len.
    rewrite splice_middle; [reflexivity|reflexivity|].
    rewrite !length_encode, Hsz. reflexivity.
  - lia.
  - apply encode_nonempty. exact Hpos.
  - rewrite len_encode by lia. exact Hmax.
Qed.

(** A record written at the end of the file. *)
Lemma writeRecord_append (f : File) (r : record) :
  offset r = len (data f) -> 0 < size r ->
  offset r + size r <= maxOffset ->
  writeRecord f r = (mkFile (data f ++ encode r) (pos f), None).
Proof.
  intros Hoff Hpos Hmax.
  pose proof (len_nonneg (data f)) as Hp. unfold maxOffset in Hmax.
  unfold writeRecord. rewrite to_int64_small by lia.
  rewrite WriteAt_ok.
  - rewrite Hoff, to_nat_len, splice_end by reflexivity. reflexivity.
  - lia.
  - apply encode_nonempty. exact Hpos.
  - rewrite len_encode by lia. exact Hmax.
Qed.

(** The file is full: the record is not written. *)
Lemma writeRecord_full (f : File) (r : record) :
  0 <= offset r < 2 ^ 63 -> 0 < size r -> maxOffset < offset r + size r ->
  writeRecord f r = (f, Some EFBIG).
Proof.
  intros Hoff Hpos Hmax.
  unfold writeRecord, WriteAt. rewrite to_int64_small by lia.
  destruct (Z.ltb_spec (offset r) 0); [lia|].
  pose proof (encode_nonempty r Hpos) as Hne.
  pose proof (len_encode r ltac:(lia)) as Hl.
  destruct (encode r) as [|x b]; [congruence|].
  rewrite Hl.
  destruct (Z.ltb_spec maxOffset (offset r + size r)); [reflexivity|lia].
Qed.

Lemma length_flat_be8 (l : list Z) :
  length (flat_map (be_bytes 8) l) = (8 * length l)%nat.
Proof.
  induction l as [|x l IH]; [reflexivity|].
  cbn [flat_map]. rewrite length_app, length_be_bytes, IH. simpl. lia.
Qed.

Lemma length_directory (db : HashDB) :
  length (directory db) = (4 + 8 * length (buckets db))%nat.
Proof.
  unfold directory. rewrite length_app, length_be_bytes, length_flat_be8.
  reflexivity.
Qed.

Lemma len_directory (db : HashDB) : len (directory db) = 4 + 8 * len (buckets db).
Proof. unfold len. rewrite length_directory. lia. Qed.

Lemma Write_ok (f : File) (b : bytes) :
  0 <= pos f -> pos f + len b <= maxOffset ->
  Write f b =
  (mkFile (match b with
           | [] => data f
           | _ :: _ => splice (data f) (Z.to_nat (pos f)) b
           end) (pos f + len b), None).
Proof.
  intros Hp Hmax. unfold Write.
  destruct b as [|x b].
  - unfold WriteAt. destruct (Z.ltb_spec (pos f) 0); [lia|reflexivity].
  - rewrite WriteAt_ok by (lia || discriminate). reflexivity.
Qed.

(** [writeBuckets] replaces the directory at the start of the file and
    leaves the rest of the file alone. *)
Lemma writeBuckets_data (db : HashDB) (dir rest : bytes) :
  data (file db) = dir ++ rest ->
  length dir = length (directory db) ->
  len (data (file db)) <= maxOffset ->
  writeBuckets db =
  mkHashDB (nbuckets db) (buckets db)
           (mkFile (directory db ++ rest) (len (directory db))).
Proof.
  intros Hd Hlen Hmax.
  pose proof (length_directory db) as Hdir.
  rewrite Hd, len_app in Hmax. pose proof (len_nonneg rest) as Hrest.
  assert (Hdl : len dir = 4 + 8 * len (buckets db))
    by (unfold len; rewrite Hlen, Hdir; lia).
  pose proof (len_nonneg (buckets db)) as Hb.
  unfold writeBuckets, Seek. cbn [Z.eqb Z.ltb Z.compare].
  assert (M : 2 ^ 62 <= maxOffset) by (unfold maxOffset; lia).
  rewrite Write_ok
    by (cbn [pos]; unfold len; rewrite ?length_be_bytes; lia).
  cbn [pos data].
  set (h := be_bytes 4 (nbuckets db)).
  set (body := flat_map (be_bytes 8) (buckets db)).
  assert (Hh : length h = 4%nat) by apply length_be_bytes.
  assert (Hbody : length body = (8 * length (buckets db))%nat)
    by apply length_flat_be8.
  assert (Hsplit : dir = firstn 4 dir ++ skipn 4 dir)
    by (symmetry; apply firstn_skipn).
  assert (H4 : length (firstn 4 dir) = 4%nat)
    by (rewrite length_firstn; lia).
  assert (H8 : length (skipn 4 dir) = length body)
    by (rewrite length_skipn; lia).
  assert (Hd1 : data (file db) = [] ++ firstn 4 dir ++ (skipn 4 dir ++ rest)).
  { rewrite Hd. rewrite Hsplit at 1. rewrite <- app_assoc. reflexivity. }
  replace (match h with
           | [] => data (file db)
           | _ :: _ => splice (data (file db)) (Z.to_nat 0) h
           end) with (h ++ skipn 4 dir ++ rest).
  2:{ destruct h as [|x h'] eqn:Eh; [discriminate|]. rewrite <- Eh.
      rewrite Hd1, splice_middle;
        [reflexivity|reflexivity|rewrite H4; apply length_be_bytes]. }
  rewrite Write_ok.
  2:{ cbn [pos]. unfold len. lia. }
  2:{ cbn [pos]. unfold len in *. lia. }
  cbn [pos data]. f_equal. f_equal.
  - unfold directory. fold h. fold body. rewrite <- app_assoc.
    destruct body as [|y body'] eqn:Eb.
    + destruct (skipn 4 dir); [reflexivity|discriminate].
    + rewrite <- Eb. rewrite splice_middle; [reflexivity| |].
      * unfold len. lia.
      * rewrite Eb. symmetry. exact H8.
  - unfold directory. fold h. fold body. rewrite len_app. lia.
Qed.

(** * The next power of two *)

Lemma bits_of_start (y : Z) : bits_of 1 y y.
Proof.
  intros j Hj. split.
  - intros H. exists 0. rewrite Z.add_0_r. split; [lia|exact H].
  - intros (d & Hd & H). replace (j + d) with j in H by lia. exact H.
Qed.

Lemma bits_of_step (m a y : Z) :
  0 < m -> bits_of m a y -> bits_of (2 * m) (Z.lor a (Z.shiftr a m)) y.
Proof.
  intros Hm Ha j Hj.
  rewrite Z.lor_spec, Z.shiftr_spec, orb_true_iff by exact Hj.
  rewrite (Ha j Hj), (Ha (j + m)) by lia.
  split.
  - intros [(d & Hd & H)|(d & Hd & H)].
    + exists d. split; [lia|exact H].
    + exists (m + d). split; [lia|]. rewrite Z.add_assoc. exact H.
  - intros (d & Hd & H). destruct (Z.lt_ge_cases d m) as [Hlt|Hge].
    + left. exists d. split; [lia|exact H].
    + right. exists (d - m). split; [lia|].
      replace (j + m + (d - m)) with (j + d) by lia. exact H.
Qed.

Lemma smear_bits (y : Z) : bits_of 128 (smear y) y.
Proof.
  unfold smear. cbn [fold_left].
  change 128 with (2 * 64). apply bits_of_step; [lia|].
  change 64 with (2 * 32) at 1. apply bits_of_step; [lia|].
  change 32 with (2 * 16) at 1. apply bits_of_step; [lia|].
  change 16 with (2 * 8) at 1. apply bits_of_step; [lia|].
  change 8 with (2 * 4) at 1. apply bits_of_step; [lia|].
  change 4 with (2 * 2) at 1. apply bits_of_step; [lia|].
  change 2 with (2 * 1) at 1. apply bits_of_step; [lia|].
  apply bits_of_start.
Qed.

Lemma smear_ones (y : Z) :
  0 < y < 2 ^ 32 -> smear y = Z.ones (Z.log2 y + 1).
Proof.
  intros Hy. pose proof (Z.log2_nonneg y) as Hlog.
  assert (Hlt : Z.log2 y < 32) by (apply Z.log2_lt_pow2; lia).
  apply Z.bits_inj'. intros j Hj.
  apply eq_true_iff_eq.
  rewrite (smear_bits y j Hj), Z.ones_spec_iff by lia.
  split.
  - intros (d & Hd & H). split; [lia|].
    destruct (Z.lt_ge_cases (Z.log2 y) (j + d)) as [Habove|]; [|lia].
    rewrite Z.bits_above_log2 in H by lia. discriminate.
  - intros Hr. exists (Z.log2 y - j). split; [lia|].
    replace (j + (Z.log2 y - j)) with (Z.log2 y) by lia.
    apply Z.bit_log2. lia.
Qed.

Lemma nextPowerTwo_smear (x : Z) :
  0 < x < 2 ^ 32 -> nextPowerTwo x = wrap32 (smear (x - 1) + 1).
Proof.
  intros Hx. unfold nextPowerTwo.
  destruct (Z.eqb_spec x 0); [lia|].
  rewrite (wrap32_small (x - 1)) by lia. reflexivity.
Qed.

(** Up to [2^31] the result is the power of two of the rounded-up
    logarithm. *)
Lemma nextPowerTwo_log2_up (x : Z) :
  0 < x <= 2 ^ 31 -> nextPowerTwo x = 2 ^ Z.log2_up x.
Proof.
  intros Hx. rewrite nextPowerTwo_smear by lia.
  destruct (Z.eq_dec x 1) as [->|Hne].
  - reflexivity.
  - rewrite smear_ones by lia. rewrite Z.ones_equiv.
    rewrite Z.log2_up_eqn by lia.
    change (Z.pred x) with (x - 1).
    rewrite <- Z.sub_1_r, <- Z.add_1_r.
    replace (2 ^ (Z.log2 (x - 1) + 1) - 1 + 1)
      with (2 ^ (Z.log2 (x - 1) + 1)) by lia.
    apply wrap32_small.
    assert (Hl : Z.log2 (x - 1) < 31) by (apply Z.log2_lt_pow2; lia).
    pose proof (Z.log2_nonneg (x - 1)).
    split; [apply Z.pow_nonneg; lia|].
    apply Z.pow_lt_mono_r; lia.
Qed.

(** Above [2^31] the addition wraps around. *)
Lemma nextPowerTwo_overflow (x : Z) :
  2 ^ 31 < x < 2 ^ 32 -> nextPowerTwo x = 0.
Proof.
  intros Hx. rewrite nextPowerTwo_smear by lia.
  rewrite smear_ones by lia.
  assert (Hl : Z.log2 (x - 1) = 31).
  { apply Z.le_antisymm.
    - assert (Z.log2 (x - 1) < 32) by (apply Z.log2_lt_pow2; lia). lia.
    - apply Z.log2_le_pow2; lia. }
  rewrite Hl. reflexivity.
Qed.

Lemma nextPowerTwo_bounds (x : Z) :
  0 < x <= 2 ^ 31 -> x <= nextPowerTwo x <= 2 ^ 31.
Proof.
  intros Hx. rewrite nextPowerTwo_log2_up by exact Hx.
  pose proof (Z.log2_up_nonneg x) as Hn.
  split.
  - destruct (Z.eq_dec x 1) as [->|Hne]; [cbn; lia|].
    apply Z.log2_up_spec. lia.
  - apply Z.pow_le_mono_r; [lia|]. apply Z.log2_up_le_pow2; lia.
Qed.

(** * Search trees over the log *)

Lemma all_keys_In (P : bytes -> Prop) (t : tree) (x : record) :
  all_keys P t -> In_tree x t -> P (key x).
Proof.
  induction t as [|l IHl r rt IHrt]; simpl; [contradiction|].
  intros (Hr & Hl & Hrt) [->|[H|H]]; auto.
Qed.

Lemma repr_frame (log log' : list record) (t : tree) :
  forall off, repr log off t ->
  (forall r, In_tree r t -> In r log -> In r log') ->
  repr log' off t.
Proof.
  induction t as [|l IHl r rt IHrt]; intros off; simpl; [auto|].
  intros (Hoff & Hin & Hor & Hl & Hrt) Hframe.
  repeat split; auto.
Qed.

Lemma repr_In (log : list record) (t : tree) (x : record) :
  forall off, repr log off t -> In_tree x t -> In x log.
Proof.
  induction t as [|l IHl r rt IHrt]; intros off; simpl; [contradiction|].
  intros (Hoff & Hin & Hor & Hl & Hrt) [->|[H|H]]; eauto.
Qed.

Lemma repr_zero (log : list record) (t : tree) : repr log 0 t -> t = Leaf.
Proof.
  destruct t; simpl; [reflexivity|]. intros (H & _). contradiction.
Qed.

Lemma repr_node (log : list record) (off : Z) (l rt : tree) (r : record) :
  off <> 0 -> In r log -> offset r = off ->
  repr log (left r) l -> repr log (right r) rt ->
  repr log off (Node l r rt).
Proof. simpl. auto. Qed.

(** The walk of [binSearch] over the file is the walk over the tree. *)
Lemma binSearch_repr (f : File) (log : list record) (k : bytes) :
  reads_ok f log ->
  forall t fuel off rec,
    repr log off t -> off <> 0 -> (height t <= fuel)%nat ->
    offset rec = off ->
    binSearch fuel f k rec
    = Ret (tstop k t, Compare k (key (tstop k t)), None).
Proof.
  intros Hread. induction t as [|l IHl r rt IHrt];
    intros fuel off rec Hrepr Hoff Hh Hrec.
  - simpl in Hrepr. contradiction.
  - destruct Hrepr as (_ & Hin & Hor & Hl & Hrt).
    destruct fuel as [|fuel]; [simpl in Hh; lia|].
    cbn [binSearch]. rewrite (Hread r rec Hin) by congruence.
    cbn [bind tstop]. simpl in Hh.
    destruct ((Compare k (key r) <? 0) && negb (left r =? 0)) eqn:E1.
    + apply andb_prop in E1 as [_ E1].
      apply (IHl fuel (left r)); [exact Hl| |lia|reflexivity].
      destruct (Z.eqb_spec (left r) 0); [discriminate|assumption].
    + destruct ((0 <? Compare k (key r)) && negb (right r =? 0)) eqn:E2.
      * apply andb_prop in E2 as [_ E2].
        apply (IHrt fuel (right r)); [exact Hrt| |lia|reflexivity].
        destruct (Z.eqb_spec (right r) 0); [discriminate|assumption].
      * reflexivity.
Qed.

(** Where the walk stops there is no child on the side of the key. *)
Lemma tstop_stops (k : bytes) (t : tree) :
  (Compare k (key (tstop k t)) < 0 -> left (tstop k t) = 0) /\
  (0 < Compare k (key (tstop k t)) -> right (tstop k t) = 0).
Proof.
  induction t as [|l IHl r rt IHrt]; [simpl; auto|].
  cbn [tstop].
  destruct ((Compare k (key r) <? 0) && negb (left r =? 0)) eqn:E1;
    [exact IHl|].
  destruct ((0 <? Compare k (key r)) && negb (right r =? 0)) eqn:E2;
    [exact IHrt|].
  split; intros Hc.
  - destruct (Z.ltb_spec (Compare k (key r)) 0); [|lia].
    destruct (Z.eqb_spec (left r) 0); [assumption|discriminate].
  - destruct (Z.ltb_spec 0 (Compare k (key r))); [|lia].
    destruct (Z.eqb_spec (right r) 0); [assumption|discriminate].
Qed.

Lemma tstop_In (log : list record) (k : bytes) (t : tree) :
  forall off, repr log off t -> off <> 0 -> In_tree (tstop k t) t.
Proof.
  induction t as [|l IHl r rt IHrt]; intros off Hrepr Hoff.
  - simpl in Hrepr. contradiction.
  - destruct Hrepr as (_ & Hin & Hor & Hl & Hrt). cbn [tstop In_tree].
    destruct ((Compare k (key r) <? 0) && negb (left r =? 0)) eqn:E1.
    + apply andb_prop in E1 as [_ E1]. right. left.
      apply (IHl (left r) Hl).
      destruct (Z.eqb_spec (left r) 0); [discriminate|assumption].
    + destruct ((0 <? Compare k (key r)) && negb (right r =? 0)) eqn:E2.
      * apply andb_prop in E2 as [_ E2]. right. right.
        apply (IHrt (right r) Hrt).
        destruct (Z.eqb_spec (right r) 0); [discriminate|assumption].
      * left. reflexivity.
Qed.

(** The walk ends on the key exactly when the tree holds a value for it. *)
Lemma tvalue_tstop (log : list record) (k : bytes) (t : tree) :
  forall off, repr log off t -> off <> 0 ->
  tvalue k t =
  if Compare k (key (tstop k t)) =? 0 then Some (value (tstop k t)) else None.
Proof.
  induction t as [|l IHl r rt IHrt]; intros off Hrepr Hoff.
  - simpl in Hrepr. contradiction.
  - destruct Hrepr as (_ & Hin & Hor & Hl & Hrt). cbn [tstop tvalue].
    destruct (Z.ltb_spec (Compare k (key r)) 0) as [Hlt|Hge]; cbn [andb].
    + destruct (Z.eqb_spec (left r) 0) as [Hz|Hnz]; cbn [negb].
      * destruct (Z.ltb_spec 0 (Compare k (key r))); [lia|]. cbn [andb].
        destruct (Z.eqb_spec (Compare k (key r)) 0); [lia|].
        rewrite Hz in Hl. apply repr_zero in Hl. subst l. reflexivity.
      * apply (IHl (left r) Hl Hnz).
    + destruct (Z.ltb_spec 0 (Compare k (key r))) as [Hgt|Hle]; cbn [andb].
      * destruct (Z.eqb_spec (right r) 0) as [Hz|Hnz]; cbn [negb].
        -- destruct (Z.eqb_spec (Compare k (key r)) 0); [lia|].
           rewrite Hz in Hrt. apply repr_zero in Hrt. subst rt. reflexivity.
        -- apply (IHrt (right r) Hrt Hnz).
      * destruct (Z.eqb_spec (Compare k (key r)) 0); [reflexivity|lia].
Qed.

(** ** Insertion *)

Lemma key_relinked (r : record) (b : bool) (x : Z) :
  key (if b then set_left r x else r) = key r /\
  key (if b then set_right r x else r) = key r /\
  value (if b then set_left r x else r) = value r /\
  value (if b then set_right r x else r) = value r.
Proof. destruct b; auto. Qed.

Lemma all_keys_tinsert (P : bytes -> Prop) (new : record) (t : tree) :
  all_keys P t -> P (key new) -> all_keys P (tinsert new t).
Proof.
  intros Ht Hnew. induction t as [|l IHl r rt IHrt]; [simpl; auto|].
  destruct Ht as (Hr & Hl & Hrt). cbn [tinsert].
  destruct (Compare (key new) (key r) =? 0); [simpl; auto|].
  destruct (Compare (key new) (key r) <? 0); cbn [all_keys].
  - destruct (left r =? 0); auto.
  - destruct (right r =? 0); auto.
Qed.

Lemma bst_tinsert (new : record) (t : tree) : bst t -> bst (tinsert new t).
Proof.
  induction t as [|l IHl r rt IHrt]; [simpl; auto|].
  intros (Hl & Hrt & Bl & Br). cbn [tinsert].
  destruct (Z.eqb_spec (Compare (key new) (key r)) 0) as [|Hne];
    [simpl; auto|].
  destruct (Z.ltb_spec (Compare (key new) (key r)) 0) as [Hlt|Hge];
    cbn [bst].
  - destruct (key_relinked r (left r =? 0) (offset new)) as (-> & _).
    repeat split; auto. apply all_keys_tinsert; assumption.
  - destruct (key_relinked r (right r =? 0) (offset new)) as (_ & -> & _).
    repeat split; auto. apply all_keys_tinsert; [assumption|lia].
Qed.

(** The values of the tree after an insertion: the first value of a key
    stays. *)
Lemma tvalue_tinsert (new : record) (k : bytes) (t : tree) :
  tvalue k (tinsert new t) =
  match tvalue k t with
  | Some v => Some v
  | None => if Compare (key new) k =? 0 then Some (value new) else None
  end.
Proof.
  assert (Hsame : Compare (key new) k = 0 ->
                  forall x, Compare k x = Compare (key new) x).
  { intros H x. apply Compare_eq in H. rewrite H. reflexivity. }
  induction t as [|l IHl r rt IHrt].
  - cbn [tinsert tvalue]. rewrite (Compare_antisym (key new) k).
    destruct (Z.ltb_spec (Compare (key new) k) 0);
      destruct (Z.ltb_spec 0 (Compare (key new) k));
      destruct (Z.eqb_spec (Compare (key new) k) 0);
      destruct (Z.ltb_spec (- Compare (key new) k) 0);
      destruct (Z.ltb_spec 0 (- Compare (key new) k)); try lia; reflexivity.
  - cbn [tinsert].
    destruct (Z.eqb_spec (Compare (key new) (key r)) 0) as [He|Hne].
    + destruct (tvalue k (Node l r rt)) eqn:Ev; [reflexivity|].
      destruct (Z.eqb_spec (Compare (key new) k) 0) as [Hk|]; [|reflexivity].
      cbn [tvalue] in Ev. rewrite (Hsame Hk), He in Ev. discriminate.
    + destruct (Z.ltb_spec (Compare (key new) (key r)) 0) as [Hlt|Hge];
        cbn [tvalue].
      * destruct (key_relinked r (left r =? 0) (offset new))
          as (-> & _ & -> & _).
        destruct (Z.ltb_spec (Compare k (key r)) 0); [exact IHl|].
        destruct (Z.ltb_spec 0 (Compare k (key r))); [|reflexivity].
        destruct (tvalue k rt); [reflexivity|].
        destruct (Z.eqb_spec (Compare (key new) k) 0) as [Hk|]; [|reflexivity].
        rewrite (Hsame Hk) in *. lia.
      * destruct (key_relinked r (right r =? 0) (offset new))
          as (_ & -> & _ & ->).
        destruct (Z.ltb_spec (Compare k (key r)) 0) as [Hklt|].
        -- destruct (tvalue k l); [reflexivity|].
           destruct (Z.eqb_spec (Compare (key new) k) 0) as [Hk|];
             [|reflexivity].
           rewrite (Hsame Hk) in *. lia.
        -- destruct (Z.ltb_spec 0 (Compare k (key r))); [exact IHrt|].
           reflexivity.
Qed.

(** The tree of a bucket after [Set] has relinked the parent [p] and
    appended the record [new]. *)
Lemma tinsert_repr (log log' : list record) (new : record) (t : tree) :
  let p := tstop (key new) t in
  let cmp := Compare (key new) (key p) in
  cmp <> 0 ->
  left new = 0 -> right new = 0 -> offset new <> 0 ->
  In new log' ->
  In (relink p cmp (offset new)) log' ->
  (forall r, In r log -> r <> p -> In r log') ->
  forall off, repr log off t -> bst t -> off <> 0 ->
  repr log' off (tinsert new t).
Proof.
  intros p cmp Hcmp Hnl Hnr Hno Hnew Hp' Hkeep.
  subst cmp. revert p Hcmp Hp' Hkeep.
  induction t as [|l IHl r rt IHrt];
    intros p Hcmp Hp' Hkeep off Hrepr Hbst Hoff.
  - simpl in Hrepr. contradiction.
  - destruct Hrepr as (_ & Hin & Hor & Hl & Hrt).
    destruct Hbst as (Kl & Krt & Bl & Brt).
    assert (Hself : Compare (key r) (key r) = 0) by apply Compare_refl.
    assert (Hnew_leaf : repr log' (offset new) (Node Leaf new Leaf)).
    { simpl. auto. }
    cbn [tstop] in p. cbn [tinsert].
    destruct (Z.ltb_spec (Compare (key new) (key r)) 0) as [Hlt|Hge].
    + destruct (Z.eqb_spec (Compare (key new) (key r)) 0); [lia|].
      cbn [andb] in p.
      destruct (Z.eqb_spec (left r) 0) as [Hz|Hnz]; cbn [negb] in p.
      * (* the new record becomes the left child of [r] *)
        destruct (Z.ltb_spec 0 (Compare (key new) (key r))); [lia|].
        cbn [andb] in p. subst p. unfold relink in Hp'.
        destruct (Z.ltb_spec (Compare (key new) (key r)) 0); [|lia].
        rewrite Hz in Hl. apply repr_zero in Hl. subst l.
        cbn [tinsert]. apply repr_node; auto.
        apply (repr_frame log); [exact Hrt|].
        intros x Hx Hxin. apply Hkeep; [exact Hxin|]. intros ->.
        pose proof (all_keys_In _ _ _ Krt Hx) as Hk. simpl in Hk. lia.
      * assert (Hpl : In_tree p l) by (apply (tstop_In log _ _ (left r)); auto).
        pose proof (all_keys_In _ _ _ Kl Hpl) as Hpk. simpl in Hpk.
        apply repr_node; [exact Hoff| |exact Hor| |].
        -- apply Hkeep; [exact Hin|]. intros E. rewrite <- E in Hpk. lia.
        -- apply IHl; auto.
        -- apply (repr_frame log); [exact Hrt|].
           intros x Hx Hxin. apply Hkeep; [exact Hxin|]. intros E.
           pose proof (all_keys_In _ _ _ Krt Hx) as Hk. simpl in Hk.
           rewrite E in Hk. lia.
    + cbn [andb] in p.
      destruct (Z.ltb_spec 0 (Compare (key new) (key r))) as [Hgt|Hle].
      2:{ cbn [andb] in p. subst p. exfalso. apply Hcmp. lia. }
      destruct (Z.eqb_spec (Compare (key new) (key r)) 0); [lia|].
      cbn [andb] in p.
      destruct (Z.eqb_spec (right r) 0) as [Hz|Hnz]; cbn [negb] in p.
      * (* the new record becomes the right child of [r] *)
        subst p. unfold relink in Hp'.
        destruct (Z.ltb_spec (Compare (key new) (key r)) 0); [lia|].
        rewrite Hz in Hrt. apply repr_zero in Hrt. subst rt.
        cbn [tinsert]. apply repr_node; auto.
        apply (repr_frame log); [exact Hl|].
        intros x Hx Hxin. apply Hkeep; [exact Hxin|]. intros ->.
        pose proof (all_keys_In _ _ _ Kl Hx) as Hk. simpl in Hk. lia.
      * assert (Hpr : In_tree p rt)
          by (apply (tstop_In log _ _ (right r)); auto).
        pose proof (all_keys_In _ _ _ Krt Hpr) as Hpk. simpl in Hpk.
        apply repr_node; [exact Hoff| |exact Hor| |].
        -- apply Hkeep; [exact Hin|]. intros E. rewrite <- E in Hpk. lia.
        -- apply (repr_frame log); [exact Hl|].
           intros x Hx Hxin. apply Hkeep; [exact Hxin|]. intros E.
           pose proof (all_keys_In _ _ _ Kl Hx) as Hk. simpl in Hk.
           rewrite E in Hk. lia.
        -- apply IHrt; auto.
Qed.

(** * The layout of the record log *)

Lemma image_app (l1 l2 : list record) : image (l1 ++ l2) = image l1 ++ image l2.
Proof. apply flat_map_app. Qed.

Lemma wf_record_size (r : record) : wf_record r -> 28 <= size r.
Proof.
  intros (_ & _ & Hfit & _).
  pose proof (len_nonneg (key r)). pose proof (len_nonneg (value r)). lia.
Qed.

Lemma laid_out_app (l1 l2 : list record) :
  forall off,
    laid_out off (l1 ++ l2) <->
    laid_out off l1 /\ laid_out (off + len (image l1)) l2.
Proof.
  induction l1 as [|r l1 IH]; intros off.
  - cbn [app laid_out image flat_map]. rewrite len_nil, Z.add_0_r. tauto.
  - cbn [app laid_out image flat_map]. rewrite len_app, IH.
    fold (image l1).
    split.
    + intros (Ho & Hw & Hl1 & Hl2). pose proof (wf_record_size r Hw).
      rewrite len_encode by lia. rewrite Z.add_assoc. tauto.
    + intros ((Ho & Hw & Hl1) & Hl2). pose proof (wf_record_size r Hw).
      rewrite len_encode, Z.add_assoc in Hl2 by lia. tauto.
Qed.

Lemma laid_out_In (log : list record) (r : record) :
  forall off, laid_out off log -> In r log ->
    wf_record r /\ off <= offset r /\
    offset r + size r <= off + len (image log).
Proof.
  induction log as [|x log IH]; intros off Hl Hin; [contradiction|].
  destruct Hl as (Ho & Hw & Hl). pose proof (wf_record_size x Hw) as Hs.
  cbn [image flat_map]. rewrite len_app, len_encode by lia. fold (image log).
  pose proof (len_nonneg (image log)).
  destruct Hin as [->|Hin].
  - split; [exact Hw|]. lia.
  - destruct (IH _ Hl Hin) as (Hwr & Hlo & Hhi). split; [exact Hwr|]. lia.
Qed.

(** A record of the log lies in the file at its offset. *)
Lemma laid_out_split (dir : bytes) (log : list record) (r : record) :
  laid_out (len dir) log -> In r log ->
  exists l1 l2, log = l1 ++ r :: l2 /\
    offset r = len (dir ++ image l1) /\
    dir ++ image log = (dir ++ image l1) ++ encode r ++ image l2.
Proof.
  intros Hl Hin. destruct (in_split _ _ Hin) as (l1 & l2 & ->).
  exists l1, l2. split; [reflexivity|].
  apply laid_out_app in Hl as (_ & Ho & _).
  split.
  - rewrite len_app. exact Ho.
  - rewrite image_app, <- app_assoc. reflexivity.
Qed.

Lemma reads_ok_layout (f : File) (dir junk : bytes) (log : list record) :
  data f = dir ++ image log ++ junk -> laid_out (len dir) log ->
  reads_ok f log.
Proof.
  intros Hd Hl r rec Hin Hrec.
  destruct (laid_out_In _ _ _ Hl Hin) as (Hw & _).
  destruct (laid_out_split dir log r Hl Hin) as (l1 & l2 & _ & Ho & Hsplit).
  apply (readRecord_encode f (dir ++ image l1) (image l2 ++ junk) r rec); auto.
  rewrite Hd, app_assoc, Hsplit, <- !app_assoc. reflexivity.
Qed.

(** The height of a tree of forward links is bounded by the room that
    the file leaves after its root. *)
Lemma height_bound (log : list record) (eof : Z) (t : tree) :
  links_ok log -> (forall r, In r log -> 0 <= offset r < eof) ->
  forall off, repr log off t -> off <> 0 ->
    (height t <= Z.to_nat (eof - off))%nat.
Proof.
  intros Hlinks Heof. induction t as [|l IHl r rt IHrt]; intros off Hrepr Hoff.
  - simpl. lia.
  - destruct Hrepr as (_ & Hin & Hor & Hl & Hrt).
    pose proof (Heof r Hin) as Hlt.
    destruct (Hlinks r Hin) as (Hleft & Hright).
    assert (Bl : (height l <= Z.to_nat (eof - off) - 1)%nat).
    { destruct Hleft as [Hz|(Hfwd & _)].
      - rewrite Hz in Hl. apply repr_zero in Hl. subst l. simpl. lia.
      - specialize (IHl (left r) Hl ltac:(lia)). lia. }
    assert (Br : (height rt <= Z.to_nat (eof - off) - 1)%nat).
    { destruct Hright as [Hz|(Hfwd & _)].
      - rewrite Hz in Hrt. apply repr_zero in Hrt. subst rt. simpl. lia.
      - specialize (IHrt (right r) Hrt ltac:(lia)). lia. }
    simpl. lia.
Qed.

(** ** The bucket of a key *)

Lemma bucket_mask (b : Z) :
  0 <= b <= 64 -> Z.shiftr (2 ^ 64 - 1) (wrap32 (64 - b)) = Z.ones b.
Proof.
  intros Hb. rewrite wrap32_small by lia.
  rewrite Z.shiftr_div_pow2 by lia. rewrite Z.ones_equiv.
  assert (Hp : 2 ^ 64 = 2 ^ (64 - b) * 2 ^ b).
  { rewrite <- Z.pow_add_r by lia. f_equal. lia. }
  assert (H1 : 0 < 2 ^ (64 - b)) by (apply Z.pow_pos_nonneg; lia).
  assert (H2 : 0 < 2 ^ b) by (apply Z.pow_pos_nonneg; lia).
  symmetry. apply (Z.div_unique_pos _ _ _ (2 ^ (64 - b) - 1)); [lia|].
  rewrite Hp. unfold Z.pred. lia.
Qed.

Lemma bucket_range (db : HashDB) (k : bytes) :
  0 <= nbuckets db <= 64 -> 0 <= bucket db k < 2 ^ nbuckets db.
Proof.
  intros Hb. unfold bucket. rewrite bucket_mask by exact Hb.
  rewrite Z.land_ones by lia. apply Z.mod_pos_bound.
  apply Z.pow_pos_nonneg; lia.
Qed.

Lemma bucket_nbuckets (db db' : HashDB) (k : bytes) :
  nbuckets db' = nbuckets db -> bucket db' k = bucket db k.
Proof. intros H. unfold bucket. rewrite H. reflexivity. Qed.

(** ** The bucket array *)

Lemma length_update (l : list Z) (i : nat) (x : Z) :
  length (update l i x) = length l.
Proof.
  revert i. induction l as [|y l IH]; intros [|i]; simpl; auto.
Qed.

Lemma nth_update (l : list Z) (i j : nat) (x : Z) :
  (i < length l)%nat ->
  nth j (update l i x) 0 = if Nat.eqb j i then x else nth j l 0.
Proof.
  revert i j. induction l as [|y l IH]; intros [|i] [|j] Hi; simpl in *;
    try lia; auto.
  apply IH. lia.
Qed.

Lemma index_nth (l : list Z) (i : Z) :
  0 <= i < len l -> index l i = Ret (nth (Z.to_nat i) l 0).
Proof.
  intros Hi. unfold index.
  destruct (nth_error l (Z.to_nat i)) as [x|] eqn:E.
  - rewrite (nth_error_nth _ _ _ E). reflexivity.
  - apply nth_error_None in E. unfold len in Hi. lia.
Qed.

(** ** The record of a pair that fits *)

Lemma new_record_size (off : Z) (k v : bytes) :
  fits k v ->
  28 + len k + len v <= size (new_record off k v) <= 2 ^ 31.
Proof.
  intros Hf. unfold fits in Hf. cbn [new_record size].
  pose proof (len_nonneg k). pose proof (len_nonneg v).
  rewrite wrap32_small by lia. apply nextPowerTwo_bounds. lia.
Qed.

Lemma new_record_wf (off : Z) (k v : bytes) :
  fits k v -> 0 <= off ->
  off + size (new_record off k v) <= maxOffset ->
  wf_record (new_record off k v).
Proof.
  intros Hf Hoff Hmax. pose proof (new_record_size off k v Hf) as Hs.
  unfold wf_record. cbn [new_record offset left right key value] in *.
  repeat split; try lia.
Qed.

(** ** Changes of the log *)

Lemma laid_out_snoc (log : list record) (r : record) (off : Z) :
  laid_out off log -> wf_record r -> offset r = off + len (image log) ->
  laid_out off (log ++ [r]).
Proof.
  intros Hl Hw Ho. apply laid_out_app. split; [exact Hl|].
  cbn [laid_out]. auto.
Qed.

Lemma laid_out_replace (l1 l2 : list record) (p p' : record) (off : Z) :
  laid_out off (l1 ++ p :: l2) ->
  wf_record p' -> offset p' = offset p -> size p' = size p ->
  laid_out off (l1 ++ p' :: l2).
Proof.
  intros Hl Hw Ho Hs. apply laid_out_app in Hl as (Hl1 & Hp & _ & Hl2).
  apply laid_out_app. split; [exact Hl1|].
  cbn [laid_out]. rewrite Ho, Hs. auto.
Qed.

Lemma len_image_replace (l1 l2 : list record) (p p' : record) :
  size p' = size p ->
  len (image (l1 ++ p' :: l2)) = len (image (l1 ++ p :: l2)).
Proof.
  intros Hs. rewrite !image_app. cbn [image flat_map].
  rewrite !len_app. unfold len at 2 5. rewrite !length_encode, Hs.
  reflexivity.
Qed.

Lemma link_ok_mono (log log' : list record) (r r' : record) (x : Z) :
  link_ok log r x -> offset r' = offset r ->
  (forall c, In c log -> exists c', In c' log' /\ offset c' = offset c) ->
  link_ok log' r' x.
Proof.
  intros [Hz|(Hlt & c & Hc & Hco)] Ho Hmap; [left; exact Hz|].
  right. split; [lia|].
  destruct (Hmap c Hc) as (c' & Hc' & Hc'o). exists c'. split; [exact Hc'|lia].
Qed.

Lemma all_keys_impl (P Q : bytes -> Prop) (t : tree) :
  (forall k, P k -> Q k) -> all_keys P t -> all_keys Q t.
Proof.
  intros HPQ. induction t as [|l IHl r rt IHrt]; simpl; [auto|].
  intros (Hr & Hl & Hrt). auto.
Qed.

Lemma first_value_snoc (ops : list (bytes * bytes)) (k v k' : bytes) :
  first_value (ops ++ [(k, v)]) k' =
  match first_value ops k' with
  | Some x => Some x
  | None => if Compare k k' =? 0 then Some v else None
  end.
Proof.
  induction ops as [|(k0, v0) ops IH]; cbn [app first_value].
  - reflexivity.
  - destruct (Compare k0 k' =? 0); [reflexivity|exact IH].
Qed.

Lemma root_update (db db' : HashDB) (i j x : Z) :
  buckets db' = update (buckets db) (Z.to_nat i) x ->
  0 <= i < len (buckets db) -> 0 <= j ->
  root db' j = if j =? i then x else root db j.
Proof.
  intros Hb Hi Hj. unfold root. rewrite Hb, nth_update by (unfold len in Hi; lia).
  destruct (Nat.eqb_spec (Z.to_nat j) (Z.to_nat i));
    destruct (Z.eqb_spec j i); try lia; reflexivity.
Qed.

(** * One [Set] *)

Lemma Seek_end (f : File) :
  Seek f 0 2 = (mkFile (data f) (len (data f)), len (data f), None).
Proof.
  unfold Seek. change (2 =? 0) with false. change (2 =? 1) with false.
  cbv iota. rewrite Z.add_0_r.
  pose proof (len_nonneg (data f)).
  destruct (Z.ltb_spec (len (data f)) 0); [lia|reflexivity].
Qed.

Lemma Set_write_append (db : HashDB) (new : record) :
  offset new = len (data (file db)) -> 0 < size new ->
  offset new + size new <= maxOffset ->
  Set_write db new =
  Ret (mkHashDB (nbuckets db) (buckets db)
         (mkFile (data (file db) ++ encode new) (pos (file db))), None).
Proof.
  intros Ho Hs Hm. unfold Set_write.
  rewrite writeRecord_append by assumption. reflexivity.
Qed.

Lemma Set_write_full (db : HashDB) (new : record) :
  0 <= offset new < 2 ^ 63 -> 0 < size new ->
  maxOffset < offset new + size new ->
  Set_write db new = Ret (db, Some EFBIG).
Proof.
  intros Ho Hs Hm. unfold Set_write.
  rewrite writeRecord_full by assumption. destruct db; reflexivity.
Qed.

Lemma WriteAt_end (f : File) (b : bytes) :
  exists junk e,
    WriteAt f b (len (data f)) = (mkFile (data f ++ junk) (pos f), e).
Proof.
  unfold WriteAt. pose proof (len_nonneg (data f)).
  destruct (Z.ltb_spec (len (data f)) 0); [lia|].
  destruct b as [|x b].
  - exists [], None. rewrite app_nil_r. destruct f; reflexivity.
  - destruct (maxOffset <? len (data f) + len (x :: b)).
    + exists [], (Some EFBIG). rewrite app_nil_r. destruct f; reflexivity.
    + exists (x :: b), None. rewrite to_nat_len, splice_end by reflexivity.
      reflexivity.
Qed.

Lemma image_snoc (l : list record) (r : record) :
  image (l ++ [r]) = image l ++ encode r.
Proof. rewrite image_app. cbn [image flat_map]. rewrite app_nil_r. reflexivity. Qed.

Section Invariant.

Variables (db : HashDB) (ops : list (bytes * bytes)) (log : list record)
          (trees : Z -> tree).
Hypothesis HInv : Inv db ops log trees.

Let eof : Z := len (data (file db)).

Lemma Inv_eof : eof = len (directory db) + len (image log).
Proof. unfold eof. rewrite (inv_data _ _ _ _ HInv). apply len_app. Qed.

Lemma Inv_directory : 12 <= len (directory db).
Proof.
  rewrite len_directory, (inv_buckets _ _ _ _ HInv).
  assert (0 < 2 ^ nbuckets db)
    by (apply Z.pow_pos_nonneg; destruct (inv_nbuckets _ _ _ _ HInv); lia).
  lia.
Qed.

Lemma Inv_record (r : record) :
  In r log ->
  wf_record r /\ 0 < offset r /\ offset r + size r <= eof /\ 28 <= size r.
Proof.
  intros Hin.
  destruct (laid_out_In _ _ _ (inv_layout _ _ _ _ HInv) Hin) as (Hw & Hlo & Hhi).
  pose proof Inv_directory. pose proof Inv_eof.
  pose proof (wf_record_size r Hw).
  split; [exact Hw|]. lia.
Qed.

Lemma Inv_reads (f : File) (junk : bytes) :
  data f = data (file db) ++ junk -> reads_ok f log.
Proof.
  intros Hd. apply (reads_ok_layout f (directory db) junk).
  - rewrite Hd, (inv_data _ _ _ _ HInv), <- app_assoc. reflexivity.
  - apply (inv_layout _ _ _ _ HInv).
Qed.

Lemma Inv_bucket (k' : bytes) : 0 <= bucket db k' < 2 ^ nbuckets db.
Proof.
  apply bucket_range. destruct (inv_nbuckets _ _ _ _ HInv). lia.
Qed.

Lemma Inv_index (k' : bytes) :
  index (buckets db) (bucket db k') = Ret (root db (bucket db k')).
Proof.
  apply index_nth. rewrite (inv_buckets _ _ _ _ HInv). apply Inv_bucket.
Qed.

(** The walk from the root of a bucket that is not empty, also after
    bytes were appended to the file. *)
Lemma Inv_binSearch_fuel (f : File) (junk : bytes) (k' : bytes) (fuel : nat) :
  data f = data (file db) ++ junk ->
  root db (bucket db k') <> 0 ->
  (length (data (file db)) <= fuel)%nat ->
  binSearch fuel f k' (record_at_offset (root db (bucket db k')))
  = Ret (tstop k' (trees (bucket db k')),
         Compare k' (key (tstop k' (trees (bucket db k')))), None).
Proof.
  intros Hd Hroot Hfuel.
  destruct (inv_trees _ _ _ _ HInv _ (Inv_bucket k')) as (Hrepr & _).
  apply (binSearch_repr f log k' (Inv_reads f junk Hd) _ _ _ _ Hrepr Hroot);
    [|reflexivity].
  pose proof (height_bound log eof (trees (bucket db k'))
                (inv_links _ _ _ _ HInv)) as Hh.
  assert (Hoff : forall r, In r log -> 0 <= offset r < eof).
  { intros r Hin. destruct (Inv_record r Hin) as (_ & ? & ? & ?). lia. }
  specialize (Hh Hoff _ Hrepr Hroot).
  assert (0 < root db (bucket db k')).
  { destruct (trees (bucket db k')) as [|l r rt]; [contradiction|].
    destruct Hrepr as (_ & Hin & Hor & _).
    destruct (Inv_record r Hin) as (_ & ? & _). lia. }
  unfold eof, len in Hh. lia.
Qed.

Lemma Inv_binSearch (f : File) (k' : bytes) :
  data f = data (file db) ->
  root db (bucket db k') <> 0 ->
  binSearch (walk_budget f) f k' (record_at_offset (root db (bucket db k')))
  = Ret (tstop k' (trees (bucket db k')),
         Compare k' (key (tstop k' (trees (bucket db k')))), None).
Proof.
  intros Hd Hroot. apply (Inv_binSearch_fuel f []).
  - rewrite app_nil_r. exact Hd.
  - exact Hroot.
  - unfold walk_budget. rewrite Hd. lia.
Qed.

(** [Get] on the database, also after bytes were appended to its file:
    the value of the first pair with the key, or no value. *)
Lemma Get_view (db' : HashDB) (junk : bytes) (k' : bytes) :
  nbuckets db' = nbuckets db -> buckets db' = buckets db ->
  data (file db') = data (file db) ++ junk ->
  Get db' k' = Ret (first_value ops k', None).
Proof.
  intros Hnb Hb Hd. unfold Get.
  rewrite (bucket_nbuckets db db' k' Hnb), Hb, Inv_index. cbn [bind].
  rewrite <- (inv_values _ _ _ _ HInv k').
  destruct (inv_trees _ _ _ _ HInv _ (Inv_bucket k')) as (Hrepr & _).
  destruct (Z.eqb_spec (root db (bucket db k')) 0) as [Hz|Hnz].
  - rewrite Hz in Hrepr. apply repr_zero in Hrepr. rewrite Hrepr. reflexivity.
  - rewrite (Inv_binSearch_fuel (file db') junk k' _ Hd Hnz).
    2:{ unfold walk_budget. rewrite Hd, length_app. lia. }
    cbn [bind]. rewrite (tvalue_tstop log k' _ _ Hrepr Hnz).
    destruct (Compare k' (key (tstop k' (trees (bucket db k')))) =? 0);
      reflexivity.
Qed.

(** [Set] of a key that the database holds, with any value: a record may
    be appended, and nothing else changes. *)
Lemma Set_present (k v' : bytes) :
  first_value ops k <> None ->
  exists db' err junk,
    Set_ db k v' = Ret (db', err) /\
    nbuckets db' = nbuckets db /\ buckets db' = buckets db /\
    data (file db') = data (file db) ++ junk.
Proof.
  intros Hpres.
  pose proof (inv_max _ _ _ _ HInv) as Hmax. fold eof in Hmax.
  pose proof (len_nonneg (data (file db))) as Heof. fold eof in Heof.
  rewrite <- (inv_values _ _ _ _ HInv k) in Hpres.
  destruct (inv_trees _ _ _ _ HInv _ (Inv_bucket k)) as (Hrepr & _).
  assert (Hnz : root db (bucket db k) <> 0).
  { intros Hz. rewrite Hz in Hrepr. apply repr_zero in Hrepr.
    rewrite Hrepr in Hpres. apply Hpres. reflexivity. }
  rewrite (tvalue_tstop log k _ _ Hrepr Hnz) in Hpres.
  unfold Set_. rewrite Seek_end. cbv zeta.
  cbn [nbuckets buckets file].
  rewrite (bucket_nbuckets db
             (mkHashDB (nbuckets db) (buckets db)
                       (mkFile (data (file db)) (len (data (file db)))))
             k eq_refl).
  rewrite Inv_index. cbn [bind]. fold eof.
  destruct (Z.eqb_spec (root db (bucket db k)) 0) as [Hz|_]; [contradiction|].
  rewrite (Inv_binSearch (mkFile (data (file db)) eof) k eq_refl Hnz).
  cbn [bind].
  destruct (Compare k (key (tstop k (trees (bucket db k)))) =? 0);
    [|exfalso; apply Hpres; reflexivity].
  unfold Set_write, writeRecord. cbn [file new_record offset].
  unfold maxOffset in Hmax. rewrite to_int64_small by lia.
  destruct (WriteAt_end (mkFile (data (file db)) eof)
              (encode (new_record eof k v'))) as (junk & e & Hw).
  cbn [data pos] in Hw. fold eof in Hw. rewrite Hw.
  exists (mkHashDB (nbuckets db) (buckets db)
            (mkFile (data (file db) ++ junk) eof)), e, junk.
  repeat split.
Qed.

(** The trees of the buckets as the file holds them, also after bytes
    were appended to the file. *)
Lemma Inv_tree_at (f : File) (junk : bytes) (j : Z) :
  data f = data (file db) ++ junk ->
  0 <= j < 2 ^ nbuckets db ->
  tree_at f (root db j) (trees j) /\ bst (trees j) /\
  forward (trees j) /\ (height (trees j) < walk_budget (file db))%nat.
Proof.
  intros Hd Hj. destruct (inv_trees _ _ _ _ HInv j Hj) as (Hrepr & Hbst & _).
  pose proof (Inv_reads f junk Hd) as Hreads.
  assert (Hoff : forall r, In r log -> 0 <= offset r < eof).
  { intros r Hin. destruct (Inv_record r Hin) as (_ & ? & ? & ?). lia. }
  split; [|split; [exact Hbst|split]].
  - generalize (root db j) Hrepr. clear Hrepr Hbst.
    induction (trees j) as [|l IHl r rt IHrt]; intros off Hrepr; [exact Hrepr|].
    destruct Hrepr as (Hoff0 & Hin & Hor & Hl & Hrt).
    cbn [tree_at]. split; [exact Hoff0|]. split; [|split; auto].
    apply Hreads; [exact Hin|]. rewrite Hor. reflexivity.
  - generalize (root db j) Hrepr. clear Hrepr Hbst.
    induction (trees j) as [|l IHl r rt IHrt]; intros off Hrepr; [exact I|].
    destruct Hrepr as (Hoff0 & Hin & Hor & Hl & Hrt).
    destruct (inv_links _ _ _ _ HInv r Hin) as (Hll & Hlr).
    cbn [forward]. repeat split; eauto.
    + destruct Hll as [?|(? & _)]; auto.
    + destruct Hlr as [?|(? & _)]; auto.
  - destruct (Z.eq_dec (root db j) 0) as [Hz|Hnz].
    + rewrite Hz in Hrepr. apply repr_zero in Hrepr. rewrite Hrepr.
      unfold walk_budget. simpl. lia.
    + pose proof (height_bound log eof (trees j) (inv_links _ _ _ _ HInv)
                    Hoff _ Hrepr Hnz) as Hh.
      assert (0 < root db j).
      { destruct (trees j) as [|l r rt]; [contradiction|].
        destruct Hrepr as (_ & Hin & Hor & _).
        destruct (Inv_record r Hin) as (_ & ? & _). lia. }
      unfold walk_budget. unfold eof, len in Hh. lia.
Qed.

(** The walk of [binSearch] from a root with enough fuel. *)
Lemma Inv_walk (j : Z) (k' : bytes) (fuel : nat) :
  0 <= j < 2 ^ nbuckets db -> root db j <> 0 ->
  (height (trees j) <= fuel)%nat ->
  binSearch fuel (file db) k' (record_at_offset (root db j))
  = Ret (tstop k' (trees j), Compare k' (key (tstop k' (trees j))), None).
Proof.
  intros Hj Hnz Hfuel.
  destruct (inv_trees _ _ _ _ HInv j Hj) as (Hrepr & _).
  apply (binSearch_repr (file db) log k'
           (Inv_reads (file db) [] ltac:(rewrite app_nil_r; reflexivity))
           _ _ _ _ Hrepr Hnz Hfuel).
  reflexivity.
Qed.

(** [Set] never exhausts the budget of its walk. *)
Lemma Set_returns (k' v' : bytes) : exists res, Set_ db k' v' = Ret res.
Proof.
  unfold Set_. rewrite Seek_end. cbv zeta.
  cbn [nbuckets buckets file].
  rewrite (bucket_nbuckets db
             (mkHashDB (nbuckets db) (buckets db)
                       (mkFile (data (file db)) (len (data (file db)))))
             k' eq_refl).
  rewrite Inv_index. cbn [bind].
  assert (Hw : forall d r, exists res, Set_write d r = Ret res).
  { intros d r. unfold Set_write. destruct (writeRecord (file d) r). eauto. }
  destruct (Z.eqb_spec (root db (bucket db k')) 0) as [Hz|Hnz]; [apply Hw|].
  rewrite (Inv_binSearch (mkFile (data (file db)) (len (data (file db))))
             k' eq_refl Hnz).
  cbn [bind].
  destruct (Compare k' (key (tstop k' (trees (bucket db k')))) =? 0);
    [apply Hw|].
  destruct (Compare k' (key (tstop k' (trees (bucket db k')))) <? 0); apply Hw.
Qed.

Section One_Set.

Variables (k v : bytes).
Hypothesis Hfits : fits k v.

Let new : record := new_record eof k v.

Lemma new_size : 28 + len k + len v <= size new <= 2 ^ 31.
Proof. apply new_record_size. exact Hfits. Qed.

(** The file is full: [Set] returns the error of the last write. *)
Lemma Set_full :
  maxOffset < eof + size new ->
  exists db', Set_ db k v = Ret (db', Some EFBIG).
Proof.
  intros Hfull. pose proof new_size as Hsz.
  pose proof (len_nonneg k). pose proof (len_nonneg v).
  pose proof (inv_max _ _ _ _ HInv) as Hmax. fold eof in Hmax.
  pose proof (len_nonneg (data (file db))) as Heof. fold eof in Heof.
  assert (Hnew : forall d, Set_write d new = Ret (d, Some EFBIG)).
  { assert (Hon : offset new = eof) by reflexivity.
    intros d. apply Set_write_full; rewrite ?Hon; unfold maxOffset in *; lia. }
  unfold Set_. rewrite Seek_end. cbv zeta.
  cbn [nbuckets buckets file].
  rewrite (bucket_nbuckets db
             (mkHashDB (nbuckets db) (buckets db)
                       (mkFile (data (file db)) (len (data (file db)))))
             k eq_refl).
  rewrite Inv_index. cbn [bind]. fold eof. fold new.
  destruct (Z.eqb_spec (root db (bucket db k)) 0) as [Hz|Hnz].
  - rewrite Hnew. eauto.
  - rewrite (Inv_binSearch (mkFile (data (file db)) eof) k eq_refl Hnz).
    cbn [bind].
    destruct (Compare k (key (tstop k (trees (bucket db k)))) =? 0);
      [rewrite Hnew; eauto|].
    destruct (Compare k (key (tstop k (trees (bucket db k)))) <? 0);
      rewrite Hnew; eauto.
Qed.

(** [Set] returns without an error, and changes the database as
    [set_change] says. *)
Lemma Set_ok :
  eof + size new <= maxOffset ->
  exists db' log' trees',
    Set_ db k v = Ret (db', None) /\
    nbuckets db' = nbuckets db /\
    data (file db') = directory db' ++ image log' /\
    set_change db log trees k v db' log' trees'.
Proof.
  intros Hroom. pose proof new_size as Hsz.
  pose proof (len_nonneg k). pose proof (len_nonneg v).
  pose proof (inv_data _ _ _ _ HInv) as Hdata.
  pose proof (inv_max _ _ _ _ HInv) as Hmax. fold eof in Hmax.
  assert (Hon : offset new = eof) by reflexivity.
  unfold Set_. rewrite Seek_end. cbv zeta.
  cbn [nbuckets buckets file].
  rewrite (bucket_nbuckets db
             (mkHashDB (nbuckets db) (buckets db)
                       (mkFile (data (file db)) (len (data (file db)))))
             k eq_refl).
  rewrite Inv_index. cbn [bind]. fold eof. fold new.
  destruct (Z.eqb_spec (root db (bucket db k)) 0) as [Hz|Hnz].
  - (* the bucket is empty *)
    set (bs := update (buckets db) (Z.to_nat (bucket db k)) eof).
    rewrite (writeBuckets_data _ (directory db) (image log)).
    2:{ exact Hdata. }
    2:{ rewrite !length_directory. cbn [buckets]. subst bs.
        rewrite length_update. reflexivity. }
    2:{ exact Hmax. }
    cbn [nbuckets buckets file].
    set (db2 := mkHashDB (nbuckets db) bs (mkFile (data (file db)) eof)).
    assert (Hlen2 : len (directory db2 ++ image log) = eof).
    { rewrite Inv_eof, len_app, !len_directory. subst db2 bs.
      cbn [buckets]. unfold len. rewrite length_update. reflexivity. }
    rewrite Set_write_append; cbn [file data pos nbuckets buckets];
      rewrite ?Hlen2; try lia; try exact Hon.
    eexists _, (log ++ [new]), _. split; [reflexivity|].
    split; [reflexivity|]. split.
    + cbn [file data]. rewrite image_snoc, app_assoc. reflexivity.
    + apply change_root; try reflexivity. exact Hz.
  - (* the walk from the root *)
    rewrite (Inv_binSearch (mkFile (data (file db)) eof) k eq_refl Hnz).
    cbn [bind].
    set (p := tstop k (trees (bucket db k))).
    set (c := Compare k (key p)).
    destruct (Z.eqb_spec c 0) as [Hc|Hc].
    + (* the key is there *)
      rewrite Set_write_append; cbn [file data pos nbuckets buckets];
        try lia; try exact Hon.
      eexists _, (log ++ [new]), trees. split; [reflexivity|].
      split; [reflexivity|]. split.
      * cbn [file data]. rewrite Hdata, image_snoc, app_assoc.
        destruct db; reflexivity.
      * apply change_none; try reflexivity; assumption.
    + (* the parent [p] gets the new record as a child *)
      destruct (inv_trees _ _ _ _ HInv _ (Inv_bucket k)) as (Hrepr & _).
      assert (Hpin : In p log).
      { apply (repr_In log _ p _ Hrepr).
        apply (tstop_In log k _ _ Hrepr Hnz). }
      destruct (Inv_record p Hpin) as (Hwp & Hp0 & Hpe & Hps).
      destruct (laid_out_split (directory db) log p
                  (inv_layout _ _ _ _ HInv) Hpin)
        as (l1 & l2 & Hlog & Hpo & Hsplit).
      set (p' := relink p c eof).
      assert (Hp' : (if c <? 0
                     then mkRecord (offset p) (size p) eof (right p)
                                   (key p) (value p)
                     else mkRecord (offset p) (size p) (left p) eof
                                   (key p) (value p)) = p').
      { unfold p', relink, set_left, set_right. reflexivity. }
      assert (Hp'o : offset p' = offset p /\ size p' = size p).
      { unfold p', relink. destruct (c <? 0); auto. }
      destruct Hp'o as (Hp'o & Hp's).
      assert (Hw : fst (writeRecord (mkFile (data (file db)) eof) p')
                   = mkFile ((directory db ++ image l1) ++ encode p' ++ image l2)
                            eof).
      { rewrite (writeRecord_inplace _ (directory db ++ image l1)
                   (image l2) p p'); cbn [data pos fst]; try reflexivity.
        - rewrite Hdata. exact Hsplit.
        - rewrite Hp'o. exact Hpo.
        - exact Hp's.
        - lia.
        - unfold maxOffset in *. lia. }
      assert (Hlen' : len ((directory db ++ image l1) ++ encode p' ++ image l2)
                      = eof).
      { unfold eof. rewrite Hdata, Hsplit, !len_app, !len_encode by lia.
        rewrite Hp's. reflexivity. }
      assert (Hgoal :
        Set_write (mkHashDB (nbuckets db) (buckets db)
                     (fst (writeRecord (mkFile (data (file db)) eof) p'))) new
        = Ret (mkHashDB (nbuckets db) (buckets db)
                 (mkFile (((directory db ++ image l1) ++ encode p' ++ image l2)
                            ++ encode new) eof), None)).
      { rewrite Hw.
        rewrite Set_write_append; cbn [file data pos nbuckets buckets];
          rewrite ?Hlen'; try lia; try exact Hon. reflexivity. }
      exists (mkHashDB (nbuckets db) (buckets db)
                (mkFile (((directory db ++ image l1) ++ encode p' ++ image l2)
                           ++ encode new) eof)),
        ((l1 ++ p' :: l2) ++ [new]), (upd trees (bucket db k)
                                         (tinsert new (trees (bucket db k)))).
      split.
      { rewrite <- Hgoal. rewrite <- Hp'. destruct (c <? 0); reflexivity. }
      split; [reflexivity|]. split.
      * cbn [file data]. rewrite image_snoc, image_app.
        cbn [image flat_map]. fold (image l2).
        rewrite <- !app_assoc. reflexivity.
      * apply (change_link _ _ _ _ _ _ _ _ l1 l2); try reflexivity; assumption.
Qed.

(** The invariant after the change. *)
Lemma change_Inv (db' : HashDB) (log' : list record) (trees' : Z -> tree) :
  eof + size new <= maxOffset ->
  nbuckets db' = nbuckets db ->
  data (file db') = directory db' ++ image log' ->
  set_change db log trees k v db' log' trees' ->
  Inv db' (ops ++ [(k, v)]) log' trees'.
Proof.
  intros Hroom Hnb Hdata' Hch. pose proof new_size as Hsz.
  pose proof (len_nonneg k) as Hk0. pose proof (len_nonneg v) as Hv0.
  pose proof (inv_nbuckets _ _ _ _ HInv) as Hnbr.
  pose proof (inv_buckets _ _ _ _ HInv) as Hbl.
  pose proof (inv_layout _ _ _ _ HInv) as Hlay.
  pose proof (inv_links _ _ _ _ HInv) as Hlinks.
  pose proof (inv_max _ _ _ _ HInv) as Hmax. fold eof in Hmax.
  pose proof Inv_eof as Heof. pose proof Inv_directory as Hdir.
  pose proof (Inv_bucket k) as Hi.
  pose proof (len_nonneg (image log)) as Himg.
  assert (Hwn : wf_record new).
  { apply new_record_wf; [exact Hfits|lia|exact Hroom]. }
  assert (Hnew : offset new = eof /\ left new = 0 /\ right new = 0 /\
                 key new = k /\ value new = v) by (repeat split; reflexivity).
  destruct Hnew as (Hno & Hnl & Hnr & Hnk & Hnv).
  assert (Hbk : forall k', bucket db' k' = bucket db k')
    by (intros k'; apply bucket_nbuckets; exact Hnb).
  (* the records before the new one *)
  assert (Hmid : exists logm,
    log' = logm ++ [new] /\ laid_out (len (directory db)) logm /\
    len (image logm) = len (image log) /\
    (forall c, In c log -> exists c', In c' logm /\ offset c' = offset c) /\
    links_ok log').
  { destruct Hch as [Hz Hb -> Ht|Hnz Hc Hb -> Ht|l1 l2 Hnz Hc Hlog Hb -> Ht];
      fold eof; fold new.
    1,2: exists log;
      (split; [reflexivity|]); (split; [exact Hlay|]);
      (split; [reflexivity|]); (split; [intros c0 Hc0; eauto|]);
      intros r Hr; apply in_app_or in Hr as [Hr|[E|[]]];
      [ destruct (Hlinks r Hr) as (Hl & Hrr);
        split; (eapply link_ok_mono; [eassumption|reflexivity|]);
        intros c0 Hcin; exists c0; (split; [apply in_or_app; auto|reflexivity])
      | rewrite <- E, Hnl, Hnr; split; left; reflexivity ].
    set (p := tstop k (trees (bucket db k))) in *.
    set (c := Compare k (key p)) in *.
    set (p' := relink p c eof).
    assert (Hpin : In p log) by (rewrite Hlog; apply in_elt).
    destruct (Inv_record p Hpin) as (Hwp & Hp0 & Hpe & Hps).
    assert (Hp'' : offset p' = offset p /\ size p' = size p /\
                   key p' = key p /\ wf_record p' /\
                   (left p' = eof /\ right p' = right p \/
                    left p' = left p /\ right p' = eof)).
    { unfold p', relink, wf_record in *.
      destruct (c <? 0); cbn [set_left set_right offset size left right key value];
        repeat split; auto; unfold maxOffset in *; try lia. }
    destruct Hp'' as (Hp'o & Hp's & Hp'k & Hwp' & Hp'l).
    exists (l1 ++ p' :: l2). split; [reflexivity|].
    split. { rewrite Hlog in Hlay. eapply laid_out_replace; eauto. }
    split. { rewrite Hlog. apply len_image_replace. exact Hp's. }
    assert (Hmap : forall c0, In c0 log ->
              exists c', In c' (l1 ++ p' :: l2) /\ offset c' = offset c0).
    { intros c0 Hc0. rewrite Hlog in Hc0.
      apply in_app_or in Hc0 as [H1|[<-|H2]].
      - exists c0. split; [apply in_or_app; auto|reflexivity].
      - exists p'. split; [apply in_elt|exact Hp'o].
      - exists c0. split; [apply in_or_app; right; right; exact H2|reflexivity]. }
    split; [exact Hmap|].
    assert (Hmap' : forall c0, In c0 log ->
              exists c', In c' ((l1 ++ p' :: l2) ++ [new]) /\
                         offset c' = offset c0).
    { intros c0 Hc0. destruct (Hmap c0 Hc0) as (c' & Hc' & Hc'o).
      exists c'. split; [apply in_or_app; auto|exact Hc'o]. }
    assert (Hold : forall r, In r log ->
              link_ok ((l1 ++ p' :: l2) ++ [new]) r (left r) /\
              link_ok ((l1 ++ p' :: l2) ++ [new]) r (right r)).
    { intros r Hr. destruct (Hlinks r Hr) as (Hl & Hrr).
      split; (eapply link_ok_mono; [eassumption|reflexivity|exact Hmap']). }
    assert (Hnewlink : link_ok ((l1 ++ p' :: l2) ++ [new]) p' eof).
    { right. split; [lia|]. exists new. split; [|exact Hno].
      apply in_or_app. right. left. reflexivity. }
    intros r Hr. apply in_app_or in Hr as [Hr|[E|[]]].
    2:{ rewrite <- E, Hnl, Hnr. split; left; reflexivity. }
    - apply in_app_or in Hr as [H1|[E|H2]].
      + apply Hold. rewrite Hlog. apply in_or_app. auto.
      + rewrite <- E. destruct (Hlinks p Hpin) as (Hl & Hrr).
        destruct Hp'l as [(-> & ->)|(-> & ->)]; split; try exact Hnewlink;
          (eapply link_ok_mono; [eassumption|exact Hp'o|exact Hmap']).
      + apply Hold. rewrite Hlog. apply in_or_app. right. right. exact H2. }
  destruct Hmid as (logm & Hlog' & Hlaym & Hlenm & Hmapm & Hlinks').
  assert (Hblen : len (buckets db') = len (buckets db)).
  { destruct Hch as [_ Hb _ _|_ _ Hb _ _|? ? _ _ _ Hb _ _]; rewrite Hb; auto.
    unfold len. rewrite length_update. reflexivity. }
  assert (Hdlen : len (directory db') = len (directory db))
    by (rewrite !len_directory, Hblen; reflexivity).
  assert (Hinnew : In new log')
    by (rewrite Hlog'; apply in_or_app; right; left; reflexivity).
  (* the roots and the trees of the other buckets *)
  assert (Hother : forall j, 0 <= j < 2 ^ nbuckets db -> j <> bucket db k ->
            root db' j = root db j /\ repr log' (root db j) (trees j)).
  { intros j Hj Hne.
    destruct (inv_trees _ _ _ _ HInv j Hj) as (Hrepr & _ & Htag).
    split.
    - destruct Hch as [_ Hb _ _|_ _ Hb _ _|? ? _ _ _ Hb _ _].
      + rewrite (root_update db db' _ j _ Hb) by lia.
        destruct (Z.eqb_spec j (bucket db k)); [contradiction|reflexivity].
      + unfold root. rewrite Hb. reflexivity.
      + unfold root. rewrite Hb. reflexivity.
    - apply (repr_frame log); [exact Hrepr|]. intros r Hr Hrin.
      pose proof (all_keys_In _ _ _ Htag Hr) as Hrb. cbn beta in Hrb.
      destruct Hch as [_ _ -> _|_ _ _ -> _|l1 l2 Hnz _ Hlog _ -> _].
      1,2: apply in_or_app; auto.
      destruct (inv_trees _ _ _ _ HInv _ Hi) as (Hrepri & _ & Htagi).
      pose proof (all_keys_In _ _ _ Htagi
                    (tstop_In log k _ _ Hrepri Hnz)) as Hpb. cbn beta in Hpb.
      rewrite Hlog in Hrin. apply in_app_or in Hrin as [H1|[<-|H2]].
      + apply in_or_app. left. apply in_or_app. auto.
      + congruence.
      + apply in_or_app. left. apply in_or_app. right. right. exact H2. }
  constructor.
  - rewrite Hnb. exact Hnbr.
  - rewrite Hblen, Hnb. exact Hbl.
  - exact Hdata'.
  - rewrite Hdata', len_app, Hdlen, Hlog', image_snoc, len_app, Hlenm.
    rewrite len_encode by lia. lia.
  - rewrite Hdlen, Hlog'. apply laid_out_snoc; auto. lia.
  - exact Hlinks'.
  - intros j Hj. rewrite Hnb in Hj.
    destruct (inv_trees _ _ _ _ HInv j Hj) as (Hrepr & Hbst & Htag).
    assert (Htag' : forall t, all_keys (fun k' => bucket db k' = j) t ->
                              all_keys (fun k' => bucket db' k' = j) t).
    { intros t. apply all_keys_impl. intros k'. rewrite Hbk. auto. }
    destruct (Z.eq_dec j (bucket db k)) as [->|Hne].
    + destruct Hch as [Hz Hb _ ->|Hnz Hc Hb -> ->|l1 l2 Hnz Hc Hlog Hb -> ->].
      * unfold upd. rewrite Z.eqb_refl.
        rewrite (root_update db db' _ _ _ Hb) by lia. rewrite Z.eqb_refl.
        rewrite Hz in Hrepr. apply repr_zero in Hrepr. rewrite Hrepr.
        cbn [tinsert]. split; [|split].
        -- apply repr_node; auto; lia.
        -- simpl. auto.
        -- simpl. rewrite Hbk. auto.
      * split; [|split; [exact Hbst|apply Htag'; exact Htag]].
        unfold root. rewrite Hb. apply (repr_frame log); [exact Hrepr|].
        intros r _ Hr. apply in_or_app. auto.
      * unfold upd. rewrite Z.eqb_refl.
        split; [|split; [apply bst_tinsert; exact Hbst|]].
        -- replace (root db' (bucket db k)) with (root db (bucket db k))
             by (unfold root; rewrite Hb; reflexivity).
           apply (tinsert_repr log);
             [exact Hc|reflexivity|reflexivity| |exact Hinnew| |
              |exact Hrepr|exact Hbst|exact Hnz].
           ++ cbn [new_record offset]. fold eof. lia.
           ++ apply in_or_app. left. apply in_elt.
           ++ intros r Hr Hrp. rewrite Hlog in Hr.
              apply in_app_or in Hr as [H1|[E|H2]].
              ** apply in_or_app. left. apply in_or_app. auto.
              ** exfalso. apply Hrp. symmetry. exact E.
              ** apply in_or_app. left. apply in_or_app. right. right.
                 exact H2.
        -- apply Htag'. apply all_keys_tinsert; auto.
    + destruct (Hother j Hj Hne) as (Hroot & Hrepr').
      rewrite Hroot.
      assert (Ht : trees' j = trees j).
      { destruct Hch as [_ _ _ ->|_ _ _ _ ->|? ? _ _ _ _ _ ->];
          unfold upd; try reflexivity;
          destruct (Z.eqb_spec j (bucket db k)); try contradiction; reflexivity. }
      rewrite Ht. split; [exact Hrepr'|]. split; [exact Hbst|].
      apply Htag'. exact Htag.
  - intros k'. rewrite Hbk, first_value_snoc.
    rewrite <- (inv_values _ _ _ _ HInv k').
    assert (Hkk : Compare k k' = 0 -> k' = k)
      by (intros E; symmetry; apply Compare_eq; exact E).
    destruct (Z.eq_dec (bucket db k') (bucket db k)) as [Hj|Hj].
    + rewrite Hj.
      destruct Hch as [_ _ _ ->|Hnz Hc _ _ ->|? ? _ _ _ _ _ ->].
      * unfold upd. rewrite Z.eqb_refl. apply tvalue_tinsert.
      * destruct (tvalue k' (trees (bucket db k))) eqn:Ev; [reflexivity|].
        destruct (Z.eqb_spec (Compare k k') 0) as [E|]; [|reflexivity].
        rewrite (Hkk E) in Ev.
        destruct (inv_trees _ _ _ _ HInv _ Hi) as (Hrepr & _).
        rewrite (tvalue_tstop log k _ _ Hrepr Hnz), Hc in Ev. discriminate.
      * unfold upd. rewrite Z.eqb_refl. apply tvalue_tinsert.
    + assert (Ht : trees' (bucket db k') = trees (bucket db k')).
      { destruct Hch as [_ _ _ ->|_ _ _ _ ->|? ? _ _ _ _ _ ->];
          unfold upd; try reflexivity;
          destruct (Z.eqb_spec (bucket db k') (bucket db k));
          try contradiction; reflexivity. }
      rewrite Ht. destruct (tvalue k' (trees (bucket db k'))); [reflexivity|].
      destruct (Z.eqb_spec (Compare k k') 0) as [E|]; [|reflexivity].
      rewrite (Hkk E) in Hj. contradiction.
Qed.

End One_Set.

End Invariant.

(** * The states of the database *)

Lemma writeBuckets_fields (db : HashDB) :
  nbuckets (writeBuckets db) = nbuckets db /\
  buckets (writeBuckets db) = buckets db.
Proof.
  unfold writeBuckets. destruct (Seek (file db) 0 0) as ((f0 & ?) & ?).
  destruct (Write f0 _) as (f1 & ?). destruct (Write f1 _) as (f2 & ?).
  split; reflexivity.
Qed.

Lemma match_nonempty {A B : Type} (l : list A) (a b : B) :
  l <> [] -> match l with [] => a | _ :: _ => b end = b.
Proof. destruct l; [congruence|reflexivity]. Qed.

(** [writeBuckets] on the empty file of [Create]. *)
Lemma writeBuckets_fresh (nb : Z) (bs : list Z) :
  let db := mkHashDB nb bs (mkFile [] 0) in
  len (directory db) <= maxOffset ->
  writeBuckets db = mkHashDB nb bs (mkFile (directory db) (len (directory db))).
Proof.
  intros db Hmax. subst db. rewrite len_directory in Hmax.
  cbn [buckets] in Hmax. unfold maxOffset in Hmax.
  pose proof (len_nonneg bs) as Hb.
  assert (M : maxOffset = 2 ^ 63 - 1) by reflexivity.
  unfold writeBuckets, Seek.
  cbn [Z.eqb Z.ltb Z.compare file data pos nbuckets buckets].
  set (h := be_bytes 4 nb).
  set (body := flat_map (be_bytes 8) bs).
  assert (Hh : length h = 4%nat) by apply length_be_bytes.
  assert (Hbody : length body = (8 * length bs)%nat) by apply length_flat_be8.
  rewrite Write_ok by (cbn [pos]; unfold len in *; lia).
  cbn [pos data nbuckets buckets].
  rewrite (match_nonempty h) by (intros E; rewrite E in Hh; discriminate).
  assert (Hsp : splice [] (Z.to_nat 0) h = h).
  { unfold splice. cbn [Z.to_nat firstn length Nat.sub Nat.add repeat app].
    rewrite skipn_nil, app_nil_r. reflexivity. }
  rewrite Hsp.
  rewrite Write_ok by (cbn [pos]; unfold len in *; lia).
  cbn [pos data]. unfold directory. fold h. fold body.
  cbn [nbuckets buckets]. fold h. fold body.
  f_equal. f_equal.
  - destruct body as [|y body'] eqn:Eb; [rewrite app_nil_r; reflexivity|].
    rewrite <- Eb. unfold splice.
    replace (Z.to_nat (0 + len h)) with (length h) by (unfold len; lia).
    rewrite firstn_all, Nat.sub_diag, skipn_all2 by lia.
    cbn [repeat app]. rewrite app_nil_r. reflexivity.
  - rewrite len_app. lia.
Qed.

Lemma pow2_le (a b : Z) : 0 <= a <= b -> 2 ^ a <= 2 ^ b.
Proof. intros H. apply Z.pow_le_mono_r; lia. Qed.

(** [Create] panics, or gives a database with its invariant, or (for 64
    and more) a database without a bucket. *)
Lemma Create_cases (nb : Z) :
  Create nb = Panic \/
  (exists db, Create nb = Ret (db, None) /\ wrap32 nb <= 45 /\
              Inv db [] [] (fun _ => Leaf)) \/
  (exists db, Create nb = Ret (db, None) /\ 64 <= wrap32 nb /\
              buckets db = []).
Proof.
  unfold Create. set (b := wrap32 nb).
  assert (Hb : 0 <= b < 2 ^ 32) by (apply Z.mod_pos_bound; lia).
  unfold shl_int. destruct (Z.leb_spec 64 b) as [H64|H64].
  - right. right. unfold make. cbn [Z.ltb Z.compare Z.mul orb bind].
    eexists. split; [reflexivity|]. split; [exact H64|].
    apply writeBuckets_fields.
  - rewrite Z.shiftl_1_l. unfold make.
    assert (Hp : 0 < 2 ^ b) by (apply Z.pow_pos_nonneg; lia).
    destruct (Z.eq_dec b 63) as [->|H63].
    { left. reflexivity. }
    assert (H62 : 2 ^ b <= 2 ^ 62) by (apply pow2_le; lia).
    rewrite to_int64_small by lia.
    destruct (Z.ltb_spec (2 ^ b) 0); [lia|]. cbn [orb].
    destruct (Z.ltb_spec maxAlloc (2 ^ b * 8)) as [Hbig|Hsmall].
    { left. reflexivity. }
    right. left. cbn [bind].
    assert (H45 : b <= 45).
    { destruct (Z.le_gt_cases b 45) as [|Hgt]; [assumption|].
      assert (2 ^ 46 <= 2 ^ b) by (apply pow2_le; lia).
      unfold maxAlloc in Hsmall. lia. }
    assert (H45' : 2 ^ b <= 2 ^ 45) by (apply pow2_le; lia).
    set (bs := repeat 0 (Z.to_nat (2 ^ b))).
    assert (Hlen : len bs = 2 ^ b)
      by (unfold len, bs; rewrite repeat_length; lia).
    rewrite writeBuckets_fresh
      by (rewrite len_directory; cbn [buckets]; unfold maxOffset; lia).
    eexists. split; [reflexivity|]. split; [exact H45|].
    constructor; cbn [nbuckets buckets file data].
    + lia.
    + exact Hlen.
    + cbn [image flat_map]. rewrite app_nil_r. reflexivity.
    + rewrite len_directory. cbn [buckets]. unfold maxOffset. lia.
    + exact I.
    + intros r [].
    + intros i Hi. unfold root. cbn [buckets]. unfold bs.
      rewrite nth_repeat. simpl. auto.
    + reflexivity.
Qed.

Lemma index_nil (i : Z) : index [] i = Panic.
Proof. unfold index. destruct (Z.to_nat i); reflexivity. Qed.

(** Without a bucket every call panics. *)
Lemma Set_no_bucket (db : HashDB) (k v : bytes) :
  buckets db = [] -> Set_ db k v = Panic.
Proof.
  intros Hb. unfold Set_. rewrite Seek_end. cbv zeta. cbn [buckets].
  rewrite Hb, index_nil. reflexivity.
Qed.

Lemma Get_no_bucket (db : HashDB) (k : bytes) :
  buckets db = [] -> Get db k = Panic.
Proof.
  intros Hb. unfold Get. rewrite Hb, index_nil. reflexivity.
Qed.

(** ** Runs *)

Lemma SetAll_Inv (ops : list (bytes * bytes)) :
  forall db ops0 log trees db',
    Inv db ops0 log trees -> all_fit ops -> SetAll db ops = Some db' ->
    exists log' trees', Inv db' (ops0 ++ ops) log' trees'.
Proof.
  induction ops as [|(k, v) ops IH]; intros db ops0 log trees db' HInv Hfit Hrun.
  - injection Hrun as <-. rewrite app_nil_r. eauto.
  - inversion Hfit as [|p ps Hkv Hrest]; subst. cbn [fst snd] in Hkv.
    cbn [SetAll] in Hrun.
    destruct (Z.le_gt_cases
                (len (data (file db)) + size (new_record (len (data (file db))) k v))
                maxOffset) as [Hroom|Hfull].
    + destruct (Set_ok db ops0 log trees HInv k v Hkv Hroom)
        as (db1 & log1 & trees1 & Hset & Hnb & Hd & Hch).
      rewrite Hset in Hrun.
      pose proof (change_Inv db ops0 log trees HInv k v Hkv db1 log1 trees1
                    Hroom Hnb Hd Hch) as HInv1.
      destruct (IH db1 _ _ _ db' HInv1 Hrest Hrun) as (log' & trees' & HInv').
      rewrite <- app_assoc in HInv'. eauto.
    + destruct (Set_full db ops0 log trees HInv k v Hkv ltac:(lia))
        as (db1 & Hset).
      rewrite Hset in Hrun. discriminate.
Qed.

(** After [Create] and stores of pairs that fit the database has its
    invariant, when it has a bucket at all. *)
Lemma CreateAndSet_Inv (nb : Z) (ops : list (bytes * bytes)) (db : HashDB) :
  CreateAndSet nb ops = Some db -> all_fit ops ->
  ops <> [] \/ buckets db <> [] ->
  exists log trees, Inv db ops log trees.
Proof.
  unfold CreateAndSet. intros Hrun Hfit Hne.
  destruct (Create_cases nb) as [Hp|[(db0 & Hc & _ & HInv)|(db0 & Hc & _ & Hb)]];
    rewrite ?Hp, ?Hc in Hrun; [discriminate| |].
  - apply (SetAll_Inv ops db0 [] _ _ db HInv Hfit Hrun).
  - destruct ops as [|(k, v) ops].
    + injection Hrun as <-. destruct Hne; contradiction.
    + cbn [SetAll] in Hrun. rewrite (Set_no_bucket db0 k v Hb) in Hrun.
      discriminate.
Qed.

Lemma Inv_has_bucket (db : HashDB) ops log trees :
  Inv db ops log trees -> buckets db <> [] /\ len (buckets db) = 2 ^ nbuckets db.
Proof.
  intros HInv. pose proof (inv_buckets _ _ _ _ HInv) as Hb.
  destruct (inv_nbuckets _ _ _ _ HInv).
  assert (0 < 2 ^ nbuckets db) by (apply Z.pow_pos_nonneg; lia).
  split; [|exact Hb]. intros E. rewrite E in Hb. cbn in Hb. lia.
Qed.

(** A [Get] leaves the database as it is, so a run stores the pairs of
    its [Set] calls. *)
Lemma run_SetAll (l : list op) :
  forall db db', run db l = Some db' -> SetAll db (sets_of l) = Some db'.
Proof.
  induction l as [|[k v|k] l IH]; intros db db' Hrun; cbn [run sets_of SetAll] in *.
  - exact Hrun.
  - destruct (Set_ db k v) as [(db1 & [e|])| |]; try discriminate. auto.
  - destruct (Get db k); try discriminate. auto.
Qed.

Lemma CreateAndRun_Set (nb : Z) (l : list op) (db : HashDB) :
  CreateAndRun nb l = Some db -> CreateAndSet nb (sets_of l) = Some db.
Proof.
  unfold CreateAndRun, CreateAndSet.
  destruct (Create nb) as [(db0 & [e|])| |]; try discriminate.
  apply run_SetAll.
Qed.

(** ** The first value of a key *)

Lemma first_value_In (ops : list (bytes * bytes)) (k v : bytes) :
  NoDup (map fst ops) -> In (k, v) ops -> first_value ops k = Some v.
Proof.
  induction ops as [|(k0, v0) ops IH]; intros Hnd Hin; [contradiction|].
  cbn [map fst] in Hnd. inversion Hnd as [|? ? Hnot Hnd']; subst.
  cbn [first_value].
  destruct Hin as [E|Hin].
  - injection E as -> ->. rewrite Compare_refl. reflexivity.
  - destruct (Z.eqb_spec (Compare k0 k) 0) as [E|_]; [|auto].
    apply Compare_eq in E. subst k0. exfalso. apply Hnot.
    apply (in_map fst) in Hin. exact Hin.
Qed.

Lemma first_value_None (ops : list (bytes * bytes)) (k : bytes) :
  ~ In k (map fst ops) -> first_value ops k = None.
Proof.
  induction ops as [|(k0, v0) ops IH]; intros Hnot; [reflexivity|].
  cbn [first_value].
  destruct (Z.eqb_spec (Compare k0 k) 0) as [E|_].
  - apply Compare_eq in E. subst k0. exfalso. apply Hnot. left. reflexivity.
  - apply IH. intros Hin. apply Hnot. right. exact Hin.
Qed.

Lemma first_value_Some (ops : list (bytes * bytes)) (k : bytes) :
  In k (map fst ops) -> exists v, first_value ops k = Some v.
Proof.
  induction ops as [|(k0, v0) ops IH]; intros Hin; [contradiction|].
  cbn [first_value].
  destruct (Z.eqb_spec (Compare k0 k) 0) as [E|Hne]; [eauto|].
  destruct Hin as [E|Hin]; [|auto].
  cbn [fst] in E. subst k0. rewrite Compare_refl in Hne. contradiction.
Qed.

(** ** One more [Set] on a database with its invariant *)

Lemma Set_step (db : HashDB) ops log trees (k v : bytes) (db' : HashDB) :
  Inv db ops log trees -> fits k v -> Set_ db k v = Ret (db', None) ->
  exists log' trees',
    nbuckets db' = nbuckets db /\
    data (file db') = directory db' ++ image log' /\
    set_change db log trees k v db' log' trees' /\
    Inv db' (ops ++ [(k, v)]) log' trees'.
Proof.
  intros HInv Hfit Hset.
  destruct (Z.le_gt_cases
              (len (data (file db)) + size (new_record (len (data (file db))) k v))
              maxOffset) as [Hroom|Hfull].
  - destruct (Set_ok db ops log trees HInv k v Hfit Hroom)
      as (db1 & log1 & trees1 & Hset1 & Hnb & Hd & Hch).
    rewrite Hset in Hset1. injection Hset1 as <-.
    exists log1, trees1.
    split; [exact Hnb|]. split; [exact Hd|]. split; [exact Hch|].
    apply (change_Inv db ops log trees HInv k v Hfit); auto.
  - destruct (Set_full db ops log trees HInv k v Hfit ltac:(lia)) as (db1 & E).
    rewrite Hset in E. discriminate.
Qed.

Lemma tree_at_unique (f : File) (t : tree) :
  forall off t', tree_at f off t -> tree_at f off t' -> t = t'.
Proof.
  induction t as [|l IHl r rt IHrt]; intros off [|l' r' rt']; cbn [tree_at].
  - reflexivity.
  - intros -> (H & _). contradiction.
  - intros (H & _) ->. contradiction.
  - intros (_ & Hr & Hl & Hrt) (_ & Hr' & Hl' & Hrt').
    rewrite Hr in Hr'. injection Hr' as <-.
    f_equal; eauto.
Qed.

(** What a [Set] leaves alone: the roots and the trees of the other
    buckets. *)
Lemma change_other (db : HashDB) ops log trees (k v : bytes)
      (db' : HashDB) (log' : list record) (trees' : Z -> tree) (j : Z) :
  Inv db ops log trees ->
  set_change db log trees k v db' log' trees' ->
  0 <= j -> j <> bucket db k ->
  root db' j = root db j /\ trees' j = trees j.
Proof.
  intros HInv Hch Hj Hne.
  pose proof (Inv_bucket db ops log trees HInv k) as Hi.
  pose proof (inv_buckets _ _ _ _ HInv) as Hbl.
  assert (Hupd : upd trees (bucket db k)
                   (tinsert (new_record (len (data (file db))) k v)
                            (trees (bucket db k))) j = trees j).
  { unfold upd. destruct (Z.eqb_spec j (bucket db k)); [contradiction|].
    reflexivity. }
  destruct Hch as [_ Hb _ ->|_ _ Hb _ ->|? ? _ _ _ Hb _ ->].
  - split; [|exact Hupd].
    rewrite (root_update db db' _ j _ Hb) by lia.
    destruct (Z.eqb_spec j (bucket db k)); [contradiction|reflexivity].
  - split; [|reflexivity]. unfold root. rewrite Hb. reflexivity.
  - split; [|exact Hupd]. unfold root. rewrite Hb. reflexivity.
Qed.

Lemma same_payload_refl (l : list record) : Forall2 same_payload l l.
Proof.
  induction l; constructor; auto. repeat split.
Qed.

Lemma same_payload_relink (p : record) (c x : Z) :
  same_payload p (relink p c x).
Proof. unfold relink. destruct (c <? 0); repeat split. Qed.

(** A [Set] or a [Get] that returns leaves the roots that are not zero. *)
Lemma Set_root_stable (db db' : HashDB) (k v : bytes) (err : option error) (i : Z) :
  Set_ db k v = Ret (db', err) -> 0 <= i -> root db i <> 0 ->
  root db' i = root db i.
Proof.
  intros Hset Hi Hnz. unfold Set_ in Hset. rewrite Seek_end in Hset.
  cbv zeta in Hset. cbn [nbuckets buckets file] in Hset.
  set (id := bucket _ k) in Hset.
  assert (Hw : forall d r d' e, Set_write d r = Ret (d', e) ->
                                buckets d' = buckets d).
  { intros d r d' e. unfold Set_write. destruct (writeRecord (file d) r).
    intros E. injection E as <- _. reflexivity. }
  unfold index in Hset.
  destruct (nth_error (buckets db) (Z.to_nat id)) as [r0|] eqn:En;
    [|discriminate].
  cbn [bind] in Hset.
  destruct (Z.eqb_spec r0 0) as [Hz|Hr0].
  - apply Hw in Hset. destruct (writeBuckets_fields
      (mkHashDB (nbuckets db)
         (update (buckets db) (Z.to_nat id) (len (data (file db))))
         (mkFile (data (file db)) (len (data (file db)))))) as (_ & Hb).
    rewrite Hb in Hset. cbn [buckets] in Hset.
    unfold root. rewrite Hset.
    assert (Hlt : (Z.to_nat id < length (buckets db))%nat)
      by (apply nth_error_Some; congruence).
    rewrite nth_update by exact Hlt.
    destruct (Nat.eqb_spec (Z.to_nat i) (Z.to_nat id)) as [E|]; [|reflexivity].
    exfalso. apply Hnz. unfold root. rewrite E.
    rewrite (nth_error_nth _ _ _ En). exact Hz.
  - destruct (binSearch _ _ k _) as [((other & cmp) & [e|])| |];
      cbn [bind] in Hset; try discriminate.
    + injection Hset as <- _. reflexivity.
    + destruct (cmp =? 0); [|destruct (cmp <? 0)];
        apply Hw in Hset; unfold root; rewrite Hset; reflexivity.
Qed.

(** * The claims of the specification *)

(** C1, amended.  After [Create] and a run of [Set] calls with pairwise
    distinct keys, every pair of which fits the 32-bit size field
    (28 + key length + value length <= 2^31) and every call of which
    returned without an error, [Get] on the key of any pair of the run
    returns exactly the value of the pair, whatever the buckets of the
    keys and whatever their order; an empty key or value is a pair as
    any other. *)
Theorem round_trip (nb : Z) (ops : list (bytes * bytes)) (db : HashDB)
    (k v : bytes) :
  CreateAndSet nb ops = Some db -> all_fit ops ->
  NoDup (map fst ops) -> In (k, v) ops ->
  Get db k = Ret (Some v, None).
Proof.
  intros Hrun Hfit Hnd Hin.
  destruct (CreateAndSet_Inv nb ops db Hrun Hfit) as (log & trees & HInv).
  { left. intros E. rewrite E in Hin. contradiction. }
  rewrite (Get_view db ops log trees HInv db [] k eq_refl eq_refl)
    by (rewrite app_nil_r; reflexivity).
  rewrite (first_value_In ops k v Hnd Hin). reflexivity.
Qed.

(** C3, amended.  In a database reached by [Set] calls of pairs that fit,
    a [Set] of a key that is already there, with any value, returns; after
    it [Get] of every key stored before still returns the value of the
    first pair with that key (the later value is not stored), and every
    bucket still holds a binary search tree. *)
Theorem reinsertion (nb : Z) (ops : list (bytes * bytes)) (db : HashDB)
    (k v : bytes) :
  CreateAndSet nb ops = Some db -> all_fit ops -> In k (map fst ops) ->
  exists db' err,
    Set_ db k v = Ret (db', err) /\
    (forall k', In k' (map fst ops) ->
       exists v0, first_value ops k' = Some v0 /\
                  Get db' k' = Ret (Some v0, None)) /\
    (forall i, 0 <= i < len (buckets db') ->
       exists t, tree_at (file db') (root db' i) t /\ bst t).
Proof.
  intros Hrun Hfit Hin.
  destruct (CreateAndSet_Inv nb ops db Hrun Hfit) as (log & trees & HInv).
  { left. intros E. rewrite E in Hin. contradiction. }
  destruct (first_value_Some ops k Hin) as (v1 & Hv1).
  destruct (Set_present db ops log trees HInv k v)
    as (db' & err & junk & Hset & Hnb & Hb & Hd).
  { rewrite Hv1. discriminate. }
  exists db', err. split; [exact Hset|]. split.
  - intros k' Hk'. destruct (first_value_Some ops k' Hk') as (v0 & Hv0).
    exists v0. split; [exact Hv0|].
    rewrite (Get_view db ops log trees HInv db' junk k' Hnb Hb Hd), Hv0.
    reflexivity.
  - intros i Hi. rewrite Hb in Hi.
    destruct (Inv_has_bucket db ops log trees HInv) as (_ & Hlen).
    rewrite Hlen in Hi.
    destruct (Inv_tree_at db ops log trees HInv (file db') junk i Hd Hi)
      as (Ht & Hbst & _).
    exists (trees i). split; [|exact Hbst].
    unfold root in *. rewrite Hb. exact Ht.
Qed.

(** C4, amended.  After [Create] with fewer than 2^64 buckets and [Set]
    calls of pairs that fit, [Get] on a key that no call stored returns no
    value and no error: neither an error nor a value that is empty.  On
    the database as [Create] leaves it this holds for every key. *)
Theorem absence (nb : Z) (ops : list (bytes * bytes)) (db : HashDB) (k : bytes) :
  CreateAndSet nb ops = Some db -> all_fit ops -> 0 <= nb < 64 ->
  ~ In k (map fst ops) ->
  Get db k = Ret (None, None).
Proof.
  intros Hrun Hfit Hnb Hnot.
  assert (HInv : exists log trees, Inv db ops log trees).
  { unfold CreateAndSet in Hrun.
    destruct (Create_cases nb)
      as [Hp|[(db0 & Hc & _ & HInv)|(db0 & Hc & H64 & _)]];
      rewrite ?Hp, ?Hc in Hrun; [discriminate| |].
    - apply (SetAll_Inv ops db0 [] _ _ db HInv Hfit Hrun).
    - rewrite wrap32_small in H64 by lia. lia. }
  destruct HInv as (log & trees & HInv).
  rewrite (Get_view db ops log trees HInv db [] k eq_refl eq_refl)
    by (rewrite app_nil_r; reflexivity).
  rewrite (first_value_None ops k Hnot). reflexivity.
Qed.

(** C5, amended.  After [Create] and any run of [Set] and [Get] calls in
    which the pairs of the [Set] calls fit, the records of every bucket
    are a binary search tree under [bytes.Compare]: from the root offset
    of the bucket the file holds a tree in which every key on the left of
    a node compares less than the key of the node and every key on the
    right compares greater. *)
Theorem ordering (nb : Z) (l : list op) (db : HashDB) :
  CreateAndRun nb l = Some db -> all_fit (sets_of l) ->
  forall i, 0 <= i < len (buckets db) ->
    exists t, tree_at (file db) (root db i) t /\ bst t.
Proof.
  intros Hrun Hfit i Hi. apply CreateAndRun_Set in Hrun.
  destruct (CreateAndSet_Inv nb _ db Hrun Hfit) as (log & trees & HInv).
  { right. intros E. rewrite E in Hi. cbn in Hi. lia. }
  destruct (Inv_has_bucket db _ log trees HInv) as (_ & Hlen).
  rewrite Hlen in Hi.
  destruct (Inv_tree_at db _ log trees HInv (file db) [] i
              ltac:(rewrite app_nil_r; reflexivity) Hi) as (Ht & Hbst & _).
  eauto.
Qed.

(** C6.  Once the entry of a bucket in the bucket array is not zero, no
    later call of [Set] or [Get] changes it. *)
Theorem root_never_changes (db db' : HashDB) (i : Z) :
  later db db' -> 0 <= i -> root db i <> 0 -> root db' i = root db i.
Proof.
  intros Hlater Hi. induction Hlater as [db|db db1 db' k v err Hset _ IH|
                                         db db' k res _ _ IH]; intros Hnz.
  - reflexivity.
  - pose proof (Set_root_stable db db1 k v err i Hset Hi Hnz) as E.
    rewrite <- E. apply IH. rewrite E. exact Hnz.
  - apply IH. exact Hnz.
Qed.

(** C7, amended.  For a record whose fields are in the range of their
    types and whose allocated size is at least 28 + key length + value
    length, [writeRecord] writes exactly [size] bytes: the size in 4
    bytes, the left and the right offset in 8 bytes each, the lengths of
    key and value in 4 bytes each, all big endian, then the key, the value
    and zeros up to [size]; and [readRecord] at the offset of the record
    gives the record back. *)
Theorem codec_round_trip (f : File) (r : record) :
  wf_record r ->
  length (encode r) = Z.to_nat (size r) /\
  encode r =
    be_bytes 4 (size r) ++ be_bytes 8 (left r) ++ be_bytes 8 (right r)
      ++ be_bytes 4 (len (key r)) ++ be_bytes 4 (len (value r))
      ++ key r ++ value r
      ++ repeat x00 (Z.to_nat (size r - 28 - len (key r) - len (value r))) /\
  exists f',
    writeRecord f r = (f', None) /\
    readRecord f' (record_at_offset (offset r)) = Ret (r, None).
Proof.
  intros Hw. pose proof Hw as (Hoff & Hmax & Hfit & Hsize & Hleft & Hright).
  pose proof (len_nonneg (key r)) as Hk.
  pose proof (len_nonneg (value r)) as Hv.
  split; [apply length_encode|]. split.
  - rewrite (encode_layout r Hfit). unfold record_header, record_padding.
    rewrite (wrap32_small (size r)), (wrap32_small (len (key r))),
      (wrap32_small (len (value r))), (wrap64_small (left r)),
      (wrap64_small (right r)) by lia.
    rewrite <- !app_assoc. reflexivity.
  - unfold writeRecord. unfold maxOffset in Hmax.
    rewrite to_int64_small by lia.
    rewrite WriteAt_ok; [|lia|apply encode_nonempty; lia|
                         rewrite len_encode by lia; unfold maxOffset; lia].
    eexists. split; [reflexivity|].
    unfold splice.
    apply (readRecord_encode _
             (firstn (Z.to_nat (offset r)) (data f)
                ++ repeat x00 (Z.to_nat (offset r) - length (data f)))
             (skipn (Z.to_nat (offset r) + length (encode r)) (data f))
             r _ Hw).
    + cbn [data]. rewrite <- !app_assoc. reflexivity.
    + rewrite len_app. unfold len.
      rewrite length_firstn, repeat_length. lia.
    + reflexivity.
Qed.

(** C8, amended.  For a pair that fits (28 + key length + value length
    <= 2^31) the size of the record that [Set] creates is the smallest
    power of two that is at least 28 + key length + value length;
    [nextPowerTwo 0] is 1; and the record written again with other
    links (header, key and value) is no longer than that size. *)
Theorem allocated_size (off : Z) (k v : bytes) :
  fits k v ->
  least_power_of_two (28 + len k + len v) (size (new_record off k v)) /\
  nextPowerTwo 0 = 1 /\
  forall l r,
    len (record_bytes (mkRecord off (size (new_record off k v)) l r k v))
    <= size (new_record off k v).
Proof.
  intros Hfit. pose proof (new_record_size off k v Hfit) as Hs.
  pose proof (len_nonneg k) as Hk. pose proof (len_nonneg v) as Hv.
  unfold fits in Hfit.
  split; [|split; [reflexivity|]].
  - cbn [new_record size] in *. rewrite wrap32_small in * by lia.
    rewrite nextPowerTwo_log2_up in * by lia.
    pose proof (Z.log2_up_nonneg (28 + len k + len v)) as Hn.
    split; [eauto|]. split; [lia|].
    intros e He Hle. apply Z.pow_le_mono_r; [lia|].
    apply Z.log2_up_le_pow2; lia.
  - intros l r. rewrite len_record_bytes. cbn [key value]. lia.
Qed.

(** C9, amended.  A [Set] of a pair that fits, on a database reached by
    [Set] calls of pairs that fit, leaves the root and the whole tree of
    every bucket other than the bucket of its key as they are.  Of the
    records in the file it changes at most one, and of that one only the
    left or the right offset: every record keeps its place, its size, its
    key and its value, and the new record is appended.  A directory entry
    changes only when the bucket of the key was empty, and then it is the
    entry of that bucket. *)
Theorem frame (nb : Z) (ops : list (bytes * bytes)) (db : HashDB)
    (k v : bytes) (db' : HashDB) :
  CreateAndSet nb ops = Some db -> all_fit ops -> fits k v ->
  Set_ db k v = Ret (db', None) ->
  (forall j, 0 <= j < len (buckets db) -> j <> bucket db k ->
     root db' j = root db j /\
     forall t, tree_at (file db) (root db j) t ->
               tree_at (file db') (root db' j) t) /\
  (exists log log1,
     data (file db) = directory db ++ image log /\
     laid_out (len (directory db)) log /\
     data (file db') =
       directory db'
         ++ image (log1 ++ [new_record (len (data (file db))) k v]) /\
     Forall2 same_payload log log1 /\
     (log1 = log \/
      exists l1 p l2 x,
        log = l1 ++ p :: l2 /\
        (log1 = l1 ++ set_left p x :: l2 \/
         log1 = l1 ++ set_right p x :: l2))) /\
  (buckets db' = buckets db \/
   root db (bucket db k) = 0 /\
   buckets db' = update (buckets db) (Z.to_nat (bucket db k))
                        (len (data (file db)))).
Proof.
  intros Hrun Hfit Hkv Hset.
  assert (Hb : buckets db <> []).
  { intros E. rewrite (Set_no_bucket db k v E) in Hset. discriminate. }
  destruct (CreateAndSet_Inv nb ops db Hrun Hfit (or_intror Hb))
    as (log & trees & HInv).
  destruct (Set_step db ops log trees k v db' HInv Hkv Hset)
    as (log' & trees' & Hnb & Hd' & Hch & HInv').
  destruct (Inv_has_bucket db ops log trees HInv) as (_ & Hlen).
  split; [|split].
  - intros j Hj Hne.
    destruct (change_other db ops log trees k v db' log' trees' j HInv Hch
                ltac:(lia) Hne) as (Hroot & Htree).
    split; [exact Hroot|]. intros t Ht.
    rewrite Hlen in Hj.
    destruct (Inv_tree_at db ops log trees HInv (file db) [] j
                ltac:(rewrite app_nil_r; reflexivity) Hj) as (Ht0 & _).
    rewrite (tree_at_unique _ _ _ _ Ht Ht0).
    rewrite <- Hnb in Hj.
    destruct (Inv_tree_at db' _ log' trees' HInv' (file db') [] j
                ltac:(rewrite app_nil_r; reflexivity) Hj) as (Ht1 & _).
    rewrite <- Htree. exact Ht1.
  - exists log.
    destruct Hch as [_ _ Hl _|_ _ _ Hl _|l1 l2 _ _ Hlog _ Hl _].
    + exists log. rewrite <- Hl.
      split; [apply (inv_data _ _ _ _ HInv)|].
      split; [apply (inv_layout _ _ _ _ HInv)|].
      split; [exact Hd'|]. split; [apply same_payload_refl|]. left. reflexivity.
    + exists log. rewrite <- Hl.
      split; [apply (inv_data _ _ _ _ HInv)|].
      split; [apply (inv_layout _ _ _ _ HInv)|].
      split; [exact Hd'|]. split; [apply same_payload_refl|]. left. reflexivity.
    + eexists. rewrite <- Hl.
      split; [apply (inv_data _ _ _ _ HInv)|].
      split; [apply (inv_layout _ _ _ _ HInv)|].
      split; [exact Hd'|]. split.
      * rewrite Hlog at 1. apply Forall2_app; [apply same_payload_refl|].
        constructor; [apply same_payload_relink|apply same_payload_refl].
      * right. exists l1, (tstop k (trees (bucket db k))), l2,
          (len (data (file db))).
        split; [exact Hlog|]. unfold relink.
        destruct (_ <? 0); auto.
  - destruct Hch as [Hz Hbk _ _|_ _ Hbk _ _|? ? _ _ _ Hbk _ _]; auto.
Qed.

(** C10, amended.  After [Create] and [Set] calls of pairs that fit,
    the records of every bucket are a tree in the file in which every
    left or right offset that is not zero is greater than the offset of
    its record and is the offset of a record; the tree is lower than the
    budget of the walk, [binSearch] from the root returns with any fuel
    that is at least the height of the tree, and neither [Get] nor
    [Set] runs out of fuel. *)
Theorem walk_terminates (nb : Z) (ops : list (bytes * bytes)) (db : HashDB) :
  CreateAndSet nb ops = Some db -> all_fit ops ->
  (forall i, 0 <= i < len (buckets db) ->
     exists t,
       tree_at (file db) (root db i) t /\ forward t /\
       (height t < walk_budget (file db))%nat /\
       forall k fuel,
         root db i <> 0 -> (height t <= fuel)%nat ->
         binSearch fuel (file db) k (record_at_offset (root db i))
         = Ret (tstop k t, Compare k (key (tstop k t)), None)) /\
  (forall k, Get db k <> OutOfFuel) /\
  (forall k v, Set_ db k v <> OutOfFuel).
Proof.
  intros Hrun Hfit.
  destruct (buckets db) as [|b0 bs] eqn:Hb.
  - split; [intros i Hi; cbn in Hi; lia|]. split.
    + intros k. rewrite (Get_no_bucket db k Hb). discriminate.
    + intros k v. rewrite (Set_no_bucket db k v Hb). discriminate.
  - destruct (CreateAndSet_Inv nb ops db Hrun Hfit) as (log & trees & HInv).
    { right. rewrite Hb. discriminate. }
    rewrite <- Hb.
    destruct (Inv_has_bucket db ops log trees HInv) as (_ & Hlen).
    split; [|split].
    + intros i Hi. rewrite Hlen in Hi.
      destruct (Inv_tree_at db ops log trees HInv (file db) [] i
                  ltac:(rewrite app_nil_r; reflexivity) Hi)
        as (Ht & _ & Hfwd & Hh).
      exists (trees i). repeat split; auto.
      intros k fuel Hnz Hfuel.
      apply (Inv_walk db ops log trees HInv i k fuel Hi Hnz Hfuel).
    + intros k.
      rewrite (Get_view db ops log trees HInv db [] k eq_refl eq_refl)
        by (rewrite app_nil_r; reflexivity).
      discriminate.
    + intros k v. destruct (Set_returns db ops log trees HInv k v) as (res & E).
      rewrite E. discriminate.
Qed.

(** * Pairs that do not fit *)

Lemma len_cons {A : Type} (x : A) (l : list A) : len (x :: l) = 1 + len l.
Proof. unfold len. cbn [length]. lia. Qed.

Lemma len_big_key : len big_key = 2 ^ 31 - 1.
Proof.
  unfold big_key. rewrite len_cons. unfold len.
  rewrite repeat_length, Z2Nat.id by lia. lia.
Qed.

(** Above [2^31] the size of the new record is zero and nothing of it
    is written. *)
Lemma oversize_size (off : Z) (k v : bytes) :
  2 ^ 31 < 28 + len k + len v < 2 ^ 32 ->
  size (new_record off k v) = 0.
Proof.
  intros H. cbn [new_record size]. rewrite wrap32_small by lia.
  apply nextPowerTwo_overflow. exact H.
Qed.

Lemma encode_size_zero (r : record) : size r = 0 -> encode r = [].
Proof.
  intros H. pose proof (length_encode r) as Hl. rewrite H in Hl.
  destruct (encode r); [reflexivity|discriminate].
Qed.

Lemma Set_write_oversize (d : HashDB) (off : Z) (k v : bytes) :
  2 ^ 31 < 28 + len k + len v < 2 ^ 32 -> 0 <= off < 2 ^ 63 ->
  Set_write d (new_record off k v) = Ret (d, None).
Proof.
  intros H Hoff. unfold Set_write, writeRecord, WriteAt.
  rewrite (encode_size_zero _ (oversize_size off k v H)).
  cbn [new_record offset]. rewrite to_int64_small by lia.
  destruct (Z.ltb_spec off 0); [lia|]. destruct d. reflexivity.
Qed.

Lemma bucket_zero (db : HashDB) (k : bytes) : nbuckets db = 0 -> bucket db k = 0.
Proof.
  intros H. unfold bucket. rewrite H.
  change (Z.shiftr (2 ^ 64 - 1) (wrap32 (64 - 0))) with 0.
  apply Z.land_0_r.
Qed.

(** One step of the walk. *)
Lemma binSearch_error (n : nat) (f : File) (k : bytes) (rec r : record)
      (e : error) :
  readRecord f rec = Ret (r, Some e) ->
  binSearch (S n) f k rec = Ret (r, 0, Some e).
Proof. intros H. cbn [binSearch]. rewrite H. reflexivity. Qed.

Lemma binSearch_stop (n : nat) (f : File) (k : bytes) (rec r : record) :
  readRecord f rec = Ret (r, None) ->
  (Compare k (key r) <? 0) && negb (left r =? 0) = false ->
  (0 <? Compare k (key r)) && negb (right r =? 0) = false ->
  binSearch (S n) f k rec = Ret (r, Compare k (key r), None).
Proof.
  intros H H1 H2. cbn [binSearch]. rewrite H. cbn [bind].
  rewrite H1, H2. reflexivity.
Qed.

Lemma binSearch_right (n : nat) (f : File) (k : bytes) (rec r : record) :
  readRecord f rec = Ret (r, None) ->
  (Compare k (key r) <? 0) && negb (left r =? 0) = false ->
  (0 <? Compare k (key r)) && negb (right r =? 0) = true ->
  binSearch (S n) f k rec
  = binSearch n f k
      (mkRecord (right r) (size r) (left r) (right r) (key r) (value r)).
Proof.
  intros H H1 H2. cbn [binSearch]. rewrite H. cbn [bind].
  rewrite H1, H2. reflexivity.
Qed.

(** [Set] of a pair that does not fit into an empty bucket: the bucket
    gets the end of the file as its root, and no record is written. *)
Lemma Set_oversize_empty (db : HashDB) (k v : bytes) :
  2 ^ 31 < 28 + len k + len v < 2 ^ 32 ->
  index (buckets db) (bucket db k) = Ret 0 ->
  len (data (file db)) < 2 ^ 63 ->
  Set_ db k v =
  Ret (writeBuckets
         (mkHashDB (nbuckets db)
            (update (buckets db) (Z.to_nat (bucket db k))
                    (len (data (file db))))
            (mkFile (data (file db)) (len (data (file db))))), None).
Proof.
  intros Hbig Hroot Hlen. pose proof (len_nonneg (data (file db))).
  unfold Set_. rewrite Seek_end. cbv zeta. cbn [nbuckets buckets file].
  rewrite (bucket_nbuckets db
             (mkHashDB (nbuckets db) (buckets db)
                       (mkFile (data (file db)) (len (data (file db)))))
             k eq_refl).
  rewrite Hroot. cbn [bind Z.eqb].
  apply Set_write_oversize; [exact Hbig|lia].
Qed.

(** [Set] of a pair that does not fit after a walk: the parent gets the
    end of the file as its child, and no record is written. *)
Lemma Set_oversize_walk (db : HashDB) (k v : bytes) (r0 cmp : Z)
      (other : record) :
  2 ^ 31 < 28 + len k + len v < 2 ^ 32 ->
  index (buckets db) (bucket db k) = Ret r0 -> r0 <> 0 ->
  len (data (file db)) < 2 ^ 63 ->
  binSearch (walk_budget (mkFile (data (file db)) (len (data (file db)))))
            (mkFile (data (file db)) (len (data (file db)))) k
            (record_at_offset r0) = Ret (other, cmp, None) ->
  cmp <> 0 ->
  Set_ db k v =
  Ret (mkHashDB (nbuckets db) (buckets db)
         (fst (writeRecord (mkFile (data (file db)) (len (data (file db))))
                           (relink other cmp (len (data (file db)))))),
       None).
Proof.
  intros Hbig Hroot Hnz Hlen Hwalk Hcmp.
  pose proof (len_nonneg (data (file db))).
  unfold Set_. rewrite Seek_end. cbv zeta. cbn [nbuckets buckets file].
  rewrite (bucket_nbuckets db
             (mkHashDB (nbuckets db) (buckets db)
                       (mkFile (data (file db)) (len (data (file db)))))
             k eq_refl).
  rewrite Hroot. cbn [bind].
  destruct (Z.eqb_spec r0 0); [contradiction|].
  rewrite Hwalk. cbn [bind].
  destruct (Z.eqb_spec cmp 0); [contradiction|].
  unfold relink, set_left, set_right.
  destruct (cmp <? 0); apply Set_write_oversize; (exact Hbig || lia).
Qed.

Section Oversize.

(** Any key of [2^31 - 1] bytes that starts with the letter c. *)
Variable tail : bytes.
Let G : bytes := x63 :: tail.
Hypothesis HG : len (x63 :: tail) = 2 ^ 31 - 1.

Lemma G_oversize : 2 ^ 31 < 28 + len G + len (@nil byte) < 2 ^ 32.
Proof. unfold G. rewrite HG, len_nil. lia. Qed.

Lemma G_above_b : Compare G [x62] = 1.
Proof. reflexivity. Qed.

(** The empty database with one bucket. *)
Lemma db_empty_big : Set_ db_empty G [] = Ret (db_big, None).
Proof.
  rewrite (Set_oversize_empty db_empty G [] G_oversize).
  - rewrite (bucket_zero db_empty G eq_refl). reflexivity.
  - rewrite (bucket_zero db_empty G eq_refl). reflexivity.
  - reflexivity.
Qed.

Lemma db_big_Get : Get db_big G = Ret (None, Some EOF).
Proof.
  unfold Get. rewrite (bucket_zero db_big G eq_refl).
  change (index (buckets db_big) 0) with (Ret (A := Z) 12). cbn [bind Z.eqb].
  unfold walk_budget.
  erewrite (binSearch_error _ _ G _ (record_at_offset 12) EOF); reflexivity.
Qed.

(** The database with the pair ("b", "1"). *)
Lemma db_b_walk :
  binSearch (walk_budget (mkFile (data (file db_b)) (len (data (file db_b)))))
            (mkFile (data (file db_b)) (len (data (file db_b)))) G
            (record_at_offset 12) = Ret (rec_b, 1, None).
Proof.
  unfold walk_budget.
  erewrite (binSearch_stop _ _ G _ rec_b); reflexivity.
Qed.

Lemma db_b_set_big : Set_ db_b G [] = Ret (db_b_big, None).
Proof.
  rewrite (Set_oversize_walk db_b G [] 12 1 rec_b G_oversize).
  - reflexivity.
  - rewrite (bucket_zero db_b G eq_refl). reflexivity.
  - discriminate.
  - reflexivity.
  - exact db_b_walk.
  - discriminate.
Qed.

(** In [db_b_big] the walk for [G] goes right from "b" to the end of
    the file. *)
Lemma db_b_big_Get : Get db_b_big G = Ret (None, Some EOF).
Proof.
  unfold Get. rewrite (bucket_zero db_b_big G eq_refl).
  change (index (buckets db_b_big) 0) with (Ret (A := Z) 12).
  cbn [bind Z.eqb]. unfold walk_budget.
  change (length (data (file db_b_big))) with 44%nat.
  erewrite (binSearch_right _ _ G _ (set_right rec_b 44)); [|reflexivity..].
  cbn [set_right right size left key value].
  erewrite (binSearch_error _ _ G _ _ EOF); reflexivity.
Qed.

(** In [db_b_big_b] the walk for [G] ends on the second record of "b". *)
Lemma db_b_big_b_Get : Get db_b_big_b G = Ret (None, None).
Proof.
  unfold Get. rewrite (bucket_zero db_b_big_b G eq_refl).
  change (index (buckets db_b_big_b) 0) with (Ret (A := Z) 12).
  cbn [bind Z.eqb]. unfold walk_budget.
  change (length (data (file db_b_big_b))) with 76%nat.
  erewrite (binSearch_right _ _ G _ (set_right rec_b 44)); [|reflexivity..].
  cbn [set_right right size left key value].
  erewrite (binSearch_stop _ _ G _
             (mkRecord 44 32 0 0 [x62] [x32])); reflexivity.
Qed.

(** Two buckets: [G] is of bucket 0 or of bucket 1. *)
Lemma db2_bucket : bucket db2_empty G = 0 \/ bucket db2_empty G = 1.
Proof.
  pose proof (bucket_range db2_empty G) as H.
  change (nbuckets db2_empty) with 1 in H.
  specialize (H ltac:(lia)). change (2 ^ 1) with 2 in H. lia.
Qed.

Lemma db2_empty_big0 :
  bucket db2_empty G = 0 -> Set_ db2_empty G [] = Ret (db2_big0, None).
Proof.
  intros Hg. rewrite (Set_oversize_empty db2_empty G [] G_oversize).
  - rewrite Hg. reflexivity.
  - rewrite Hg. reflexivity.
  - reflexivity.
Qed.

Lemma db2_empty_big1 :
  bucket db2_empty G = 1 -> Set_ db2_empty G [] = Ret (db2_big1, None).
Proof.
  intros Hg. rewrite (Set_oversize_empty db2_empty G [] G_oversize).
  - rewrite Hg. reflexivity.
  - rewrite Hg. reflexivity.
  - reflexivity.
Qed.

End Oversize.

(** * The claims on concrete databases *)

Ltac by_evaluation := vm_compute; first [reflexivity | discriminate].

Ltac all_fit_evaluated :=
  unfold all_fit; repeat constructor; vm_compute; discriminate.

Ltac not_in_evaluated :=
  let H := fresh in
  vm_compute; intros H;
  repeat (destruct H as [H|H]; [discriminate H|]); exact H.

Ltac in_evaluated := vm_compute; repeat ((left; reflexivity) || right).

Lemma ops3_states :
  CreateAndSet 1 ops3 = Some db3 /\ all_fit ops3 /\ NoDup (map fst ops3).
Proof.
  split; [by_evaluation|]. split; [all_fit_evaluated|].
  repeat constructor; not_in_evaluated.
Defined.

(** Three keys of one bucket: the second is found behind the first. *)
Lemma round_trip_witness :
  Get db3 (str "key02") = Ret (Some (str "value02"), None).
Proof.
  destruct ops3_states as (Hrun & Hfit & Hnd).
  apply (round_trip 1 ops3 db3 (str "key02") (str "value02") Hrun Hfit Hnd).
  in_evaluated.
Defined.

Lemma reinsertion_witness :
  exists db' err,
    Set_ db3 (str "key00") (str "other") = Ret (db', err) /\
    (forall k', In k' (map fst ops3) ->
       exists v0, first_value ops3 k' = Some v0 /\
                  Get db' k' = Ret (Some v0, None)) /\
    (forall i, 0 <= i < len (buckets db') ->
       exists t, tree_at (file db') (root db' i) t /\ bst t).
Proof.
  destruct ops3_states as (Hrun & Hfit & _).
  apply (reinsertion 1 ops3 db3 (str "key00") (str "other") Hrun Hfit).
  in_evaluated.
Defined.

Lemma absence_witness : Get db3 (str "nokey") = Ret (None, None).
Proof.
  destruct ops3_states as (Hrun & Hfit & _).
  apply (absence 1 ops3 db3 (str "nokey") Hrun Hfit); [lia|].
  not_in_evaluated.
Defined.

Lemma ordering_witness :
  exists t, tree_at (file db3) (root db3 0) t /\ bst t.
Proof.
  apply (ordering 1 calls3 db3); [by_evaluation|all_fit_evaluated|].
  split; by_evaluation.
Defined.

Lemma root_never_changes_witness : root db3 0 = root db1 0.
Proof.
  apply (root_never_changes db1 db3 0); [|lia|by_evaluation].
  apply (later_Set db1 db2 db3 (str "key02") (str "value02") None);
    [by_evaluation|].
  apply (later_Get db2 db3 (str "key00") (Some (str "value00"), None));
    [by_evaluation|].
  apply (later_Set db2 db3 db3 [] [] None); [by_evaluation|].
  apply later_refl.
Defined.

Lemma codec_round_trip_witness :
  length (encode rec_b_both) = Z.to_nat (size rec_b_both) /\
  encode rec_b_both =
    be_bytes 4 (size rec_b_both) ++ be_bytes 8 (left rec_b_both)
      ++ be_bytes 8 (right rec_b_both)
      ++ be_bytes 4 (len (key rec_b_both))
      ++ be_bytes 4 (len (value rec_b_both))
      ++ key rec_b_both ++ value rec_b_both
      ++ repeat x00
           (Z.to_nat (size rec_b_both - 28 - len (key rec_b_both)
                      - len (value rec_b_both))) /\
  exists f',
    writeRecord (file db_b) rec_b_both = (f', None) /\
    readRecord f' (record_at_offset (offset rec_b_both))
    = Ret (rec_b_both, None).
Proof.
  apply (codec_round_trip (file db_b) rec_b_both).
  unfold wf_record. vm_compute. repeat split; discriminate.
Defined.

Lemma allocated_size_witness :
  least_power_of_two (28 + len (str "key00") + len (str "value00"))
    (size (new_record 20 (str "key00") (str "value00"))) /\
  nextPowerTwo 0 = 1 /\
  forall l r,
    len (record_bytes
           (mkRecord 20 (size (new_record 20 (str "key00") (str "value00")))
                     l r (str "key00") (str "value00")))
    <= size (new_record 20 (str "key00") (str "value00")).
Proof.
  apply (allocated_size 20 (str "key00") (str "value00")).
  vm_compute. discriminate.
Defined.

Lemma frame_witness :
  (forall j, 0 <= j < len (buckets db2) -> j <> bucket db2 [] ->
     root db3 j = root db2 j /\
     forall t, tree_at (file db2) (root db2 j) t ->
               tree_at (file db3) (root db3 j) t) /\
  (exists log log1,
     data (file db2) = directory db2 ++ image log /\
     laid_out (len (directory db2)) log /\
     data (file db3) =
       directory db3 ++ image (log1 ++ [new_record (len (data (file db2))) [] []]) /\
     Forall2 same_payload log log1 /\
     (log1 = log \/
      exists l1 p l2 x,
        log = l1 ++ p :: l2 /\
        (log1 = l1 ++ set_left p x :: l2 \/
         log1 = l1 ++ set_right p x :: l2))) /\
  (buckets db3 = buckets db2 \/
   root db2 (bucket db2 []) = 0 /\
   buckets db3 = update (buckets db2) (Z.to_nat (bucket db2 []))
                        (len (data (file db2)))).
Proof.
  apply (frame 1 [(str "key00", str "value00"); (str "key02", str "value02")]
               db2 [] [] db3).
  - by_evaluation.
  - all_fit_evaluated.
  - vm_compute. discriminate.
  - by_evaluation.
Defined.

Lemma walk_terminates_witness :
  (forall i, 0 <= i < len (buckets db3) ->
     exists t,
       tree_at (file db3) (root db3 i) t /\ forward t /\
       (height t < walk_budget (file db3))%nat /\
       forall k fuel,
         root db3 i <> 0 -> (height t <= fuel)%nat ->
         binSearch fuel (file db3) k (record_at_offset (root db3 i))
         = Ret (tstop k t, Compare k (key (tstop k t)), None)) /\
  (forall k, Get db3 k <> OutOfFuel) /\
  (forall k v, Set_ db3 k v <> OutOfFuel).
Proof.
  destruct ops3_states as (Hrun & Hfit & _).
  apply (walk_terminates 1 ops3 db3 Hrun Hfit).
Defined.

(** * The pairs that do not fit, on concrete databases *)

Lemma Create_0 : Create 0 = Ret (db_empty, None).
Proof. by_evaluation. Qed.

Lemma Set_b : Set_ db_empty (str "b") (str "1") = Ret (db_b, None).
Proof. by_evaluation. Qed.

Lemma Set_a : Set_ db_b_big (str "a") (str "0") = Ret (db_b_big_a, None).
Proof. by_evaluation. Qed.

Lemma big_key_alone : CreateAndSet 0 ops_big = Some db_big.
Proof.
  unfold CreateAndSet, ops_big. rewrite Create_0. cbn [SetAll].
  unfold big_key. rewrite (db_empty_big _ len_big_key). reflexivity.
Qed.

Lemma b_then_big_key :
  CreateAndSet 0 ops_b_big = Some db_b_big.
Proof.
  unfold CreateAndSet, ops_b_big. rewrite Create_0. cbn [SetAll].
  rewrite Set_b. unfold big_key. rewrite (db_b_set_big _ len_big_key).
  reflexivity.
Qed.

(** C1 as stated fails.  One bucket; [Set] of the key of [2^31 - 1]
    bytes with the empty value returns without an error, and [Get] of
    that key returns the error of a read at the end of the file. *)
Lemma round_trip_oversize :
  CreateAndSet 0 ops_big = Some db_big /\
  NoDup (map fst ops_big) /\ In (big_key, []) ops_big /\
  Get db_big big_key = Ret (None, Some EOF).
Proof.
  split; [exact big_key_alone|]. split; [repeat constructor; intros []|].
  split; [left; reflexivity|].
  exact (db_big_Get _).
Qed.

(** C3 as stated fails.  After [Set] of "b" and of the key of
    [2^31 - 1] bytes, [Set] of "b" again returns without an error, and
    [Get] of the long key, stored before, returns no value. *)
Lemma reinsertion_oversize :
  CreateAndSet 0 ops_b_big = Some db_b_big /\
  In (str "b") (map fst ops_b_big) /\ In big_key (map fst ops_b_big) /\
  Set_ db_b_big (str "b") (str "2") = Ret (db_b_big_b, None) /\
  Get db_b_big_b big_key = Ret (None, None).
Proof.
  split; [exact b_then_big_key|]. split; [left; reflexivity|].
  split; [right; left; reflexivity|]. split; [by_evaluation|].
  exact (db_b_big_b_Get _).
Qed.

(** C4 as stated fails.  On the database of [Create 64] a [Get] panics;
    and after [Set] of the key of [2^31 - 1] bytes, [Get] of the key "a",
    which was never stored, returns an error. *)
Lemma absence_oversize :
  (Create 64 = Ret (db_64, None) /\ Get db_64 (str "a") = Panic) /\
  (CreateAndSet 0 ops_big = Some db_big /\
   ~ In (str "a") (map fst ops_big) /\
   Get db_big (str "a") = Ret (None, Some EOF)).
Proof.
  split; [split; by_evaluation|].
  split; [exact big_key_alone|]. split; [|by_evaluation].
  intros [H|[]]. unfold big_key in H. discriminate H.
Qed.

(** C5 as stated fails.  After [Set] of "b", of the key of [2^31 - 1]
    bytes and of "a", the left and the right offset of "b" are both the
    offset of the record of "a": the key "a" is on the right of "b". *)
Lemma ordering_oversize :
  CreateAndRun 0 [DoSet (str "b") (str "1"); DoSet big_key [];
                  DoSet (str "a") (str "0")] = Some db_b_big_a /\
  tree_at (file db_b_big_a) (root db_b_big_a 0)
    (Node (Node Leaf rec_a Leaf) rec_b_both (Node Leaf rec_a Leaf)) /\
  ~ exists t, tree_at (file db_b_big_a) (root db_b_big_a 0) t /\ bst t.
Proof.
  assert (Ht : tree_at (file db_b_big_a) (root db_b_big_a 0)
                 (Node (Node Leaf rec_a Leaf) rec_b_both (Node Leaf rec_a Leaf))).
  { cbn [tree_at]. repeat split; by_evaluation. }
  split; [|split; [exact Ht|]].
  - unfold CreateAndRun. rewrite Create_0. cbn [run].
    rewrite Set_b. unfold big_key. rewrite (db_b_set_big _ len_big_key).
    rewrite Set_a. reflexivity.
  - intros (t & Ht' & Hbst).
    rewrite (tree_at_unique _ _ _ _ Ht' Ht) in Hbst.
    destruct Hbst as (_ & (Hright & _) & _).
    vm_compute in Hright. discriminate Hright.
Qed.

(** C7 as stated fails.  The record that [Set] creates for the key of
    [2^31 - 1] bytes has the size 0: it is encoded as no byte at all,
    and reading at its offset after the write gives an error. *)
Lemma codec_oversize :
  size (new_record 12 big_key []) = 0 /\
  encode (new_record 12 big_key []) = [] /\
  writeRecord (file db_empty) (new_record 12 big_key [])
  = (file db_empty, None) /\
  readRecord (file db_empty) (record_at_offset 12)
  = Ret (record_at_offset 12, Some EOF).
Proof.
  assert (Hbig : 2 ^ 31 < 28 + len big_key + len (@nil byte) < 2 ^ 32)
    by (rewrite len_big_key, len_nil; lia).
  pose proof (oversize_size 12 big_key [] Hbig) as Hs.
  pose proof (encode_size_zero _ Hs) as He.
  split; [exact Hs|]. split; [exact He|]. split; [|by_evaluation].
  unfold writeRecord. rewrite He. reflexivity.
Qed.

(** C8 as stated fails.  For the key of [2^31 - 1] bytes and the empty
    value the size of the new record is 0, which is less than the length
    of header, key and value. *)
Lemma allocated_size_oversize :
  size (new_record 12 big_key []) = 0 /\
  ~ least_power_of_two (28 + len big_key + len (@nil byte))
      (size (new_record 12 big_key [])).
Proof.
  assert (Hbig : 2 ^ 31 < 28 + len big_key + len (@nil byte) < 2 ^ 32)
    by (rewrite len_big_key, len_nil; lia).
  pose proof (oversize_size 12 big_key [] Hbig) as Hs.
  split; [exact Hs|]. rewrite Hs. intros (_ & Hle & _). lia.
Qed.

(** C10 as stated fails.  After [Set] of "b" and of the key of
    [2^31 - 1] bytes the right offset of "b" is 44, the end of the file,
    where no record is: the bucket holds no tree. *)
Lemma walk_oversize :
  CreateAndSet 0 ops_b_big = Some db_b_big /\
  readRecord (file db_b_big) (record_at_offset 12)
  = Ret (set_right rec_b 44, None) /\
  readRecord (file db_b_big) (record_at_offset 44)
  = Ret (record_at_offset 44, Some EOF) /\
  ~ exists t, tree_at (file db_b_big) (root db_b_big 0) t.
Proof.
  split; [exact b_then_big_key|]. split; [by_evaluation|].
  split; [by_evaluation|].
  intros ([|l r rt] & Ht); cbn [tree_at] in Ht.
  - vm_compute in Ht. discriminate Ht.
  - destruct Ht as (_ & Hr & _ & Hrt).
    change (readRecord (file db_b_big) (record_at_offset (root db_b_big 0)))
      with (Ret (set_right rec_b 44, @None error)) in Hr.
    injection Hr as <-. cbn [set_right right] in Hrt.
    destruct rt as [|l' r' rt']; cbn [tree_at] in Hrt.
    + discriminate Hrt.
    + destruct Hrt as (_ & Hr' & _). vm_compute in Hr'. discriminate Hr'.
Qed.

Lemma Create_1 : Create 1 = Ret (db2_empty, None).
Proof. by_evaluation. Qed.

Lemma Set_big0_key01 :
  Set_ db2_big0 (str "key01") (str "value01") = Ret (db2_big0_key01, None).
Proof. by_evaluation. Qed.

Lemma Set_big1_key00 :
  Set_ db2_big1 (str "key00") (str "value00") = Ret (db2_big1_key00, None).
Proof. by_evaluation. Qed.

(** C9 as stated fails.  Two buckets.  [Set] of the key of [2^31 - 1]
    bytes makes the end of the file the root of its bucket and writes
    nothing; the next [Set], of a key of the other bucket, puts its
    record there, which is now the root of both buckets; a third [Set],
    of a key of the first bucket, then rewrites a link of that record
    and so changes the tree of the other bucket.  The second key is
    "key01" (bucket 1) when the long key is of bucket 0, and "key00"
    (bucket 0) when it is of bucket 1. *)
Lemma frame_oversize :
  exists k1 v1 k2 v2 db db' j t,
    CreateAndSet 1 [(big_key, []); (k1, v1)] = Some db /\
    fits k2 v2 /\ Set_ db k2 v2 = Ret (db', None) /\
    0 <= j < len (buckets db) /\ j <> bucket db k2 /\
    tree_at (file db) (root db j) t /\
    ~ tree_at (file db') (root db' j) t.
Proof.
  destruct (db2_bucket (repeat x00 (Z.to_nat (2 ^ 31 - 2)))) as [Hg|Hg].
  - exists (str "key01"), (str "value01"), (str "key00"), (str "value00"),
      db2_big0_key01, db2_big0_key01_key00, 1, (Node Leaf rec_key01 Leaf).
    split.
    { unfold CreateAndSet. rewrite Create_1. cbn [SetAll]. unfold big_key.
      rewrite (db2_empty_big0 _ len_big_key Hg), Set_big0_key01.
      reflexivity. }
    split; [by_evaluation|]. split; [by_evaluation|].
    split; [split; by_evaluation|]. split; [by_evaluation|].
    split; [cbn [tree_at]; repeat split; by_evaluation|].
    intros (_ & H & _). vm_compute in H. discriminate H.
  - exists (str "key00"), (str "value00"), (str "key01"), (str "value01"),
      db2_big1_key00, db2_big1_key00_key01, 0, (Node Leaf rec_key00 Leaf).
    split.
    { unfold CreateAndSet. rewrite Create_1. cbn [SetAll]. unfold big_key.
      rewrite (db2_empty_big1 _ len_big_key Hg), Set_big1_key00.
      reflexivity. }
    split; [by_evaluation|]. split; [by_evaluation|].
    split; [split; by_evaluation|]. split; [by_evaluation|].
    split; [cbn [tree_at]; repeat split; by_evaluation|].
    intros (_ & H & _). vm_compute in H. discriminate H.
Qed.

(** * The bucket of a key *)

Lemma shl_uint8_high (b : byte) (n : Z) : 8 <= n -> shl_uint8 b n = 0.
Proof.
  intros Hn. unfold shl_uint8.
  replace (2 ^ n) with (2 ^ (n - 8) * 256)
    by (change 256 with (2 ^ 8); rewrite <- Z.pow_add_r by lia; f_equal; lia).
  rewrite Z.mul_assoc. apply Z.mod_mul. lia.
Qed.

(** The loop of [bucket] keeps byte 0 of the digest only: the other
    bytes are shifted out of their [byte] before they are widened. *)
Lemma bucket_low_byte (db : HashDB) (k : bytes) :
  0 <= nbuckets db <= 64 ->
  bucket db k = byte_to_Z (nth 0 (MD5.sum k) x00) mod 2 ^ nbuckets db.
Proof.
  intros Hb. unfold bucket. rewrite bucket_mask by exact Hb.
  rewrite Z.land_ones by lia. f_equal.
  generalize (MD5.sum k). intros s. cbn [fold_left seq].
  change (8 * Z.of_nat 0) with 0. change (8 * Z.of_nat 1) with 8.
  change (8 * Z.of_nat 2) with 16. change (8 * Z.of_nat 3) with 24.
  change (8 * Z.of_nat 4) with 32. change (8 * Z.of_nat 5) with 40.
  change (8 * Z.of_nat 6) with 48. change (8 * Z.of_nat 7) with 56.
  rewrite (shl_uint8_high _ 8), (shl_uint8_high _ 16), (shl_uint8_high _ 24),
    (shl_uint8_high _ 32), (shl_uint8_high _ 40), (shl_uint8_high _ 48),
    (shl_uint8_high _ 56) by lia.
  change (wrap64 0) with 0. rewrite !Z.lor_0_r.
  unfold shl_uint8.
  rewrite Z.pow_0_r, Z.mul_1_r. pose proof (byte_to_Z_range (nth 0 s x00)).
  rewrite Z.mod_small by lia. rewrite wrap64_small by lia. reflexivity.
Qed.

(** C2: the code does not do what the claim says.  With 2^9 buckets the
    empty key, whose digest starts with the bytes d4 1d, goes to bucket
    212 = 0xd4; the little-endian integer of the first 8 bytes of the
    digest, masked to 9 bits, is 468 = 0x1d4. *)
Theorem bucket_drops_high_bytes :
  hex (firstn 2 (MD5.sum [])) = [0xd4; 0x1d] /\
  bucket (db_of (Create 9)) [] = 212 /\
  bucket_of_spec [] 9 = 468.
Proof. repeat split; by_evaluation. Qed.
(** * Evaluations of the embedding *)

Example md5_empty :
  hex (MD5.sum []) =
  [0xd4; 0x1d; 0x8c; 0xd9; 0x8f; 0x00; 0xb2; 0x04;
   0xe9; 0x80; 0x09; 0x98; 0xec; 0xf8; 0x42; 0x7e].
Proof. vm_compute. reflexivity. Qed.

Example md5_abc :
  hex (MD5.sum (str "abc")) =
  [0x90; 0x01; 0x50; 0x98; 0x3c; 0xd2; 0x4f; 0xb0;
   0xd6; 0x96; 0x3f; 0x7d; 0x28; 0xe1; 0x7f; 0x72].
Proof. vm_compute. reflexivity. Qed.

(** The repository's test [TestSetAndGet]. *)
Example TestSetAndGet :
  GetAll (CreateAndSet 6 (pairs test_data)) (map fst test_data)
  = map (fun p => Ret (Some (str (snd p)), None)) test_data.
Proof. vm_compute. reflexivity. Qed.

(** The repository's test [TestCollision]: 16 keys in 4 buckets. *)
Example TestCollision :
  GetAll (CreateAndSet 2 (pairs collision_data)) (map fst collision_data)
  = map (fun p => Ret (Some (str (snd p)), None)) collision_data.
Proof. vm_compute. reflexivity. Qed.

(** The buckets of the 16 keys. *)
Example TestCollision_buckets :
  map (bucket (state_after 2 [])) (map (fun p => str (fst p)) collision_data)
  = [0; 3; 0; 0; 3; 1; 2; 1; 3; 2; 1; 2; 3; 3; 1; 3].
Proof. vm_compute. reflexivity. Qed.

(** A fresh database answers "not found". *)
Example Get_fresh : Get (state_after 5 []) (str "foo") = Ret (None, None).
Proof. vm_compute. reflexivity. Qed.

(** * Further properties of the code *)

From Stdlib Require Import Permutation.

(** ** Auxiliary facts *)

Lemma log2_up_pow2_le (x : Z) : 0 < x <= 2 ^ 31 -> Z.log2_up x <= 31.
Proof.
  intros H. destruct (Z.eq_dec x 1) as [->|]; [cbn; lia|].
  apply Z.log2_up_le_pow2; lia.
Qed.

Lemma ReadAt_inside (f : File) (n off : Z) :
  0 <= off -> 0 <= n -> off + n <= len (data f) ->
  exists b, ReadAt f n off = (b, None).
Proof.
  intros Hoff Hn Hlen. unfold ReadAt.
  destruct (Z.ltb_spec off 0); [lia|].
  destruct (n =? 0); [eauto|].
  destruct (Z.leb_spec (off + n) (len (data f))); [eauto|lia].
Qed.

(** A successful read depends on the offset of its argument only, and
    the record read carries that offset. *)
Lemma readRecord_at (f : File) (rec r : record) :
  readRecord f rec = Ret (r, None) ->
  offset r = offset rec /\
  forall rec', offset rec' = offset rec -> readRecord f rec' = Ret (r, None).
Proof.
  unfold readRecord. intros H.
  destruct (ReadAt f 28 (to_int64 (offset rec))) as [h [e|]] eqn:Eh;
    [discriminate|].
  destruct (ReadAt f _ (to_int64 (to_int64 (offset rec) + 28)))
    as [d [e|]] eqn:Ed; [discriminate|].
  destruct (_ <? _) eqn:El; [discriminate|].
  injection H as <-. split; [reflexivity|].
  intros rec' E. rewrite E, Eh, Ed, El. reflexivity.
Qed.

(** Where the walk of [binSearch] stops. *)
Lemma binSearch_stops_at (fuel : nat) (f : File) (k : bytes) :
  forall (rec r : record) (cmp : Z),
  binSearch fuel f k rec = Ret (r, cmp, None) ->
  readRecord f (record_at_offset (offset r)) = Ret (r, None) /\
  cmp = Compare k (key r) /\
  (cmp < 0 -> left r = 0) /\ (0 < cmp -> right r = 0).
Proof.
  induction fuel as [|fuel IH]; intros rec r cmp H; [discriminate|].
  cbn [binSearch] in H.
  destruct (readRecord f rec) as [[r1 [e|]]| |] eqn:Er; cbn [bind] in H;
    try discriminate.
  destruct ((Compare k (key r1) <? 0) && negb (left r1 =? 0)) eqn:El;
    [apply IH in H; exact H|].
  destruct ((0 <? Compare k (key r1)) && negb (right r1 =? 0)) eqn:Eg;
    [apply IH in H; exact H|].
  injection H as <- <-.
  destruct (readRecord_at f rec r1 Er) as (Eo & Hany).
  split; [apply Hany; rewrite Eo; reflexivity|].
  split; [reflexivity|]. split; intros Hc.
  - apply andb_false_iff in El. destruct El as [El|El]; [lia|].
    apply negb_false_iff in El. lia.
  - apply andb_false_iff in Eg. destruct Eg as [Eg|Eg]; [lia|].
    apply negb_false_iff in Eg. lia.
Qed.

Lemma bucket_nonneg (db : HashDB) (k : bytes) : 0 <= bucket db k.
Proof.
  unfold bucket. apply Z.land_nonneg. right.
  apply Z.shiftr_nonneg. lia.
Qed.

Lemma nth_update_other (l : list Z) (i j : nat) (x : Z) :
  j <> i -> nth j (update l i x) 0 = nth j l 0.
Proof.
  revert i j. induction l as [|y l IH]; intros i j Hne; [reflexivity|].
  destruct i, j; cbn [update nth]; try reflexivity; try congruence.
  apply IH. congruence.
Qed.

(** The shape of every call of [Set_] that returns. *)
Lemma Set_structure (db : HashDB) (k v : bytes) (db' : HashDB)
      (err : option error) :
  Set_ db k v = Ret (db', err) ->
  nbuckets db' = nbuckets db /\
  (buckets db' = buckets db \/
   buckets db' = update (buckets db) (Z.to_nat (bucket db k))
                        (len (data (file db)))) /\
  (err = None ->
   exists f, writeRecord f (new_record (len (data (file db))) k v)
             = (file db', None)).
Proof.
  intros Hset. unfold Set_ in Hset. rewrite Seek_end in Hset.
  cbv zeta in Hset. cbn [nbuckets buckets file] in Hset.
  rewrite (bucket_nbuckets db
             (mkHashDB (nbuckets db) (buckets db)
                (mkFile (data (file db)) (len (data (file db))))) k eq_refl)
    in Hset.
  assert (Hw : forall d r, Set_write d r = Ret (db', err) ->
     nbuckets db' = nbuckets d /\ buckets db' = buckets d /\
     (err = None -> exists f, writeRecord f r = (file db', None))).
  { intros d r. unfold Set_write.
    destruct (writeRecord (file d) r) as [f e] eqn:E.
    intros H. injection H as <- <-. cbn [nbuckets buckets file].
    repeat split. intros ->. eauto. }
  destruct (index (buckets db) (bucket db k)) as [r0| |]; cbn [bind] in Hset;
    try discriminate.
  destruct (r0 =? 0).
  - apply Hw in Hset. destruct Hset as (Hn & Hb & He).
    destruct (writeBuckets_fields
      (mkHashDB (nbuckets db)
         (update (buckets db) (Z.to_nat (bucket db k)) (len (data (file db))))
         (mkFile (data (file db)) (len (data (file db)))))) as (Hn' & Hb').
    rewrite Hn' in Hn. rewrite Hb' in Hb. cbn [nbuckets buckets] in Hn, Hb.
    auto.
  - destruct (binSearch _ _ k _) as [((other & cmp) & [e|])| |];
      cbn [bind] in Hset; try discriminate.
    + injection Hset as <- <-. cbn [nbuckets buckets].
      repeat split; [auto|discriminate].
    + destruct (cmp =? 0); [|destruct (cmp <? 0)];
        apply Hw in Hset; cbn [nbuckets buckets] in Hset;
        destruct Hset as (Hn & Hb & He); auto.
Qed.

Lemma flat_be8_zeros (n : nat) :
  flat_map (be_bytes 8) (repeat 0 n) = repeat x00 (8 * n).
Proof.
  induction n as [|n IH]; [reflexivity|].
  cbn [repeat flat_map]. rewrite IH.
  replace (8 * S n)%nat with (8 + 8 * n)%nat by lia.
  rewrite repeat_app. reflexivity.
Qed.

Lemma flat_be8_nth (bs : list Z) (rest : bytes) :
  forall i, (i < length bs)%nat ->
    firstn 8 (skipn (8 * i) (flat_map (be_bytes 8) bs ++ rest))
    = be_bytes 8 (nth i bs 0).
Proof.
  induction bs as [|b bs IH]; intros i Hi; [cbn in Hi; lia|].
  cbn [flat_map]. rewrite <- app_assoc.
  destruct i as [|i].
  - cbn [Nat.mul skipn nth].
    apply firstn_app_exact. rewrite length_be_bytes. reflexivity.
  - replace (8 * S i)%nat with (8 * i + 8)%nat by lia.
    rewrite <- skipn_skipn.
    rewrite (skipn_app_exact (be_bytes 8 b))
      by (rewrite length_be_bytes; reflexivity).
    cbn [nth]. apply IH. cbn [length] in Hi. lia.
Qed.

(** ** The databases that the calls lead to *)

Lemma Create_nbuckets (nb : Z) (db : HashDB) (e : option error) :
  Create nb = Ret (db, e) -> nbuckets db = wrap32 nb.
Proof.
  unfold Create. destruct (make 0 _ 8) as [bs| |]; cbn [bind]; try discriminate.
  intros H. injection H as <- _.
  apply (writeBuckets_fields (mkHashDB (wrap32 nb) bs (mkFile [] 0))).
Qed.

Lemma SetAll_nbuckets (ops : list (bytes * bytes)) :
  forall db db', SetAll db ops = Some db' -> nbuckets db' = nbuckets db.
Proof.
  induction ops as [|(k, v) ops IH]; intros db db' H; cbn [SetAll] in H.
  - injection H as <-. reflexivity.
  - destruct (Set_ db k v) as [(db1 & [e|])| |] eqn:E; try discriminate.
    rewrite (IH _ _ H). apply (Set_structure _ _ _ _ _ E).
Qed.

(** [Create] with at most [2^45] buckets returns a database with its
    invariant. *)
Lemma Create_returns (nb : Z) :
  0 <= nb <= 45 ->
  exists db, Create nb = Ret (db, None) /\ Inv db [] [] (fun _ => Leaf).
Proof.
  intros Hnb.
  destruct (Create_cases nb)
    as [Hp|[(db1 & Hc1 & _ & HInv)|(db1 & Hc1 & H64 & _)]].
  - exfalso. revert Hp. unfold Create. rewrite wrap32_small by lia.
    unfold shl_int. destruct (Z.leb_spec 64 nb); [lia|].
    rewrite Z.shiftl_1_l.
    assert (Hp : 0 < 2 ^ nb) by (apply Z.pow_pos_nonneg; lia).
    assert (H45 : 2 ^ nb <= 2 ^ 45) by (apply pow2_le; lia).
    rewrite to_int64_small by lia.
    unfold make. destruct (Z.ltb_spec (2 ^ nb) 0); [lia|].
    destruct (Z.ltb_spec maxAlloc (2 ^ nb * 8));
      [unfold maxAlloc in *; lia|].
    discriminate.
  - eauto.
  - rewrite wrap32_small in H64 by lia. lia.
Qed.

(** The databases that [Create] with fewer than [2^64] buckets and
    stores of pairs that fit lead to. *)
Lemma reach_Inv (nb : Z) (ops : list (bytes * bytes)) (db : HashDB) :
  CreateAndSet nb ops = Some db -> all_fit ops -> 0 <= nb < 64 ->
  nbuckets db = nb /\ exists log trees, Inv db ops log trees.
Proof.
  unfold CreateAndSet. intros Hrun Hfit Hnb.
  destruct (Create nb) as [(db0 & [e|])| |] eqn:Hc; try discriminate.
  split.
  - rewrite (SetAll_nbuckets _ _ _ Hrun), (Create_nbuckets _ _ _ Hc).
    apply wrap32_small. lia.
  - destruct (Create_cases nb)
      as [Hp|[(db1 & Hc1 & _ & HInv)|(db1 & Hc1 & H64 & _)]].
    + congruence.
    + rewrite Hc in Hc1. injection Hc1 as <-.
      apply (SetAll_Inv ops db0 [] _ _ db HInv Hfit Hrun).
    + rewrite wrap32_small in H64 by lia. lia.
Qed.

Lemma len_image_snoc (log : list record) (r : record) :
  0 <= size r -> len (image (log ++ [r])) = len (image log) + size r.
Proof.
  intros H. rewrite image_snoc, len_app, len_encode by exact H. reflexivity.
Qed.

(** A store on a database with its invariant appends the bytes of one
    record. *)
Lemma Set_step_len (db : HashDB) ops log trees (k v : bytes) (db' : HashDB) :
  Inv db ops log trees -> fits k v -> Set_ db k v = Ret (db', None) ->
  len (data (file db')) = len (data (file db)) + record_size k v.
Proof.
  intros HInv Hfit Hset.
  destruct (Set_step db ops log trees k v db' HInv Hfit Hset)
    as (log' & trees' & Hnb & Hd' & Hch & HInv').
  rewrite Hd', (inv_data _ _ _ _ HInv), !len_app, !len_directory.
  rewrite (inv_buckets _ _ _ _ HInv), (inv_buckets _ _ _ _ HInv'), Hnb.
  pose proof (new_record_size (len (data (file db))) k v Hfit) as Hs.
  pose proof (len_nonneg k). pose proof (len_nonneg v).
  change (record_size k v) with (size (new_record (len (data (file db))) k v)).
  destruct Hch as [_ _ Hl _|_ _ _ Hl _|l1 l2 _ _ Hlog _ Hl _]; rewrite Hl.
  - rewrite len_image_snoc by lia. lia.
  - rewrite len_image_snoc by lia. lia.
  - rewrite len_image_snoc by lia. rewrite Hlog.
    rewrite (len_image_replace l1 l2 (tstop k (trees (bucket db k)))); [lia|].
    unfold relink. destruct (_ <? 0); reflexivity.
Qed.


Lemma Create_len (nb : Z) (db : HashDB) :
  0 <= nb <= 45 -> Create nb = Ret (db, None) ->
  len (data (file db)) = 4 + 8 * 2 ^ nb.
Proof.
  intros Hnb Hc.
  destruct (Create_returns nb Hnb) as (db1 & Hc1 & HInv).
  rewrite Hc in Hc1. injection Hc1 as <-.
  rewrite (inv_data _ _ _ _ HInv). cbn [image flat_map].
  rewrite app_nil_r, len_directory, (inv_buckets _ _ _ _ HInv).
  rewrite (Create_nbuckets _ _ _ Hc), wrap32_small by lia. reflexivity.
Qed.

Lemma total_size_bounds (ops : list (bytes * bytes)) :
  all_fit ops -> 28 * len ops <= total_size ops <= 2 ^ 31 * len ops.
Proof.
  induction 1 as [|(k, v) ops Hkv _ IH]; [cbn; lia|].
  cbn [fst snd] in Hkv. pose proof (new_record_size 0 k v Hkv) as Hs.
  pose proof (len_nonneg k). pose proof (len_nonneg v).
  change (size (new_record 0 k v)) with (record_size k v) in Hs.
  rewrite len_cons. cbn [total_size]. lia.
Qed.

(** A store with room in the file: the result, with the invariant. *)
Lemma Set_appends (db : HashDB) ops log trees (k v : bytes) :
  Inv db ops log trees -> fits k v ->
  len (data (file db)) + record_size k v <= maxOffset ->
  exists db',
    Set_ db k v = Ret (db', None) /\
    len (data (file db')) = len (data (file db)) + record_size k v /\
    skipn (length (data (file db))) (data (file db'))
    = encode (new_record (len (data (file db))) k v).
Proof.
  intros HInv Hfit Hroom.
  destruct (Set_ok db ops log trees HInv k v Hfit Hroom)
    as (db' & log' & trees' & Hset & Hnb & Hd & Hch).
  exists db'. split; [exact Hset|].
  pose proof (Set_step_len db ops log trees k v db' HInv Hfit Hset) as Hlen.
  split; [exact Hlen|].
  pose proof (new_record_size (len (data (file db))) k v Hfit) as Hs.
  pose proof (len_nonneg k). pose proof (len_nonneg v).
  change (record_size k v) with (size (new_record (len (data (file db))) k v))
    in Hlen.
  assert (Hlast : exists L, log' = L ++ [new_record (len (data (file db))) k v]).
  { destruct Hch as [_ _ Hl _|_ _ _ Hl _|l1 l2 _ _ Hlog _ Hl _]; eauto. }
  destruct Hlast as (L & ->).
  rewrite Hd, image_snoc, app_assoc in *.
  apply skipn_app_exact.
  rewrite len_app, len_encode in Hlen by lia. unfold len in Hlen. lia.
Qed.

Lemma SetAll_returns (ops : list (bytes * bytes)) :
  forall db ops0 log trees,
    Inv db ops0 log trees -> all_fit ops ->
    len (data (file db)) + total_size ops <= maxOffset ->
    exists db', SetAll db ops = Some db'.
Proof.
  induction ops as [|(k, v) ops IH]; intros db ops0 log trees HInv Hfit Hroom.
  - cbn. eauto.
  - inversion Hfit as [|p ps Hkv Hrest]; subst. cbn [fst snd] in Hkv.
    cbn [total_size] in Hroom.
    pose proof (total_size_bounds ops Hrest) as Hb.
    pose proof (len_nonneg ops) as Hl.
    destruct (Set_appends db ops0 log trees k v HInv Hkv ltac:(lia))
      as (db1 & Hset & Hlen & _).
    cbn [SetAll]. rewrite Hset.
    destruct (Set_step db ops0 log trees k v db1 HInv Hkv Hset)
      as (log2 & trees2 & _ & _ & _ & HInv1).
    apply (IH db1 _ _ _ HInv1 Hrest). lia.
Qed.

Lemma CreateAndSet_returns (nb : Z) (ops : list (bytes * bytes)) :
  0 <= nb <= 45 -> all_fit ops ->
  4 + 8 * 2 ^ nb + total_size ops <= maxOffset ->
  exists db, CreateAndSet nb ops = Some db.
Proof.
  intros Hnb Hfit Hroom. unfold CreateAndSet.
  destruct (Create_returns nb Hnb) as (db0 & Hc & HInv). rewrite Hc.
  apply (SetAll_returns ops db0 [] _ _ HInv Hfit).
  rewrite (Create_len nb db0 Hnb Hc). exact Hroom.
Qed.

Lemma Inv_root_range (db : HashDB) ops log trees (i : Z) :
  Inv db ops log trees -> 0 <= i < 2 ^ nbuckets db ->
  0 <= root db i <= maxOffset.
Proof.
  intros HInv Hi.
  destruct (inv_trees _ _ _ _ HInv i Hi) as (Hr & _).
  destruct (trees i) as [|l r rt]; cbn [repr] in Hr.
  - rewrite Hr. unfold maxOffset. lia.
  - destruct Hr as (_ & Hin & Ho & _).
    destruct (Inv_record db ops log trees HInv r Hin) as (Hwf & Hpos & Hend & Hsz).
    pose proof (inv_max _ _ _ _ HInv). lia.
Qed.

(** Stores of pairs with distinct keys, all of which fit, and lookups of
    all of them: what the tests of the repository do. *)
Lemma stores_then_lookups (nb : Z) (ops : list (bytes * bytes)) :
  0 <= nb <= 45 -> all_fit ops -> NoDup (map fst ops) ->
  len ops <= 2 ^ 16 ->
  exists db, CreateAndSet nb ops = Some db /\
    forall k v, In (k, v) ops -> Get db k = Ret (Some v, None).
Proof.
  intros Hnb Hfit Hnd Hlen.
  destruct (CreateAndSet_returns nb ops Hnb Hfit) as (db & Hrun).
  { pose proof (total_size_bounds ops Hfit).
    assert (2 ^ nb <= 2 ^ 45) by (apply pow2_le; lia).
    unfold maxOffset. nia. }
  exists db. split; [exact Hrun|]. intros k v Hin.
  destruct (reach_Inv nb ops db Hrun Hfit ltac:(lia)) as (_ & log & trees & HInv).
  rewrite (Get_view db ops log trees HInv db [] k eq_refl eq_refl)
    by (rewrite app_nil_r; reflexivity).
  rewrite (first_value_In ops k v Hnd Hin). reflexivity.
Qed.



(** ** Writes never shorten the file *)

Lemma length_splice (d b : bytes) (off : nat) :
  length (splice d off b) = Nat.max (length d) (off + length b).
Proof.
  unfold splice.
  rewrite !length_app, length_firstn, repeat_length, length_skipn. lia.
Qed.

Lemma WriteAt_grows (f : File) (b : bytes) (off : Z) :
  (length (data f) <= length (data (fst (WriteAt f b off))))%nat.
Proof.
  unfold WriteAt. destruct (off <? 0); [cbn; lia|].
  destruct b as [|x b]; [cbn; lia|].
  destruct (maxOffset <? _); cbn [fst data]; [lia|].
  rewrite length_splice. lia.
Qed.

Lemma Write_grows (f : File) (b : bytes) :
  (length (data f) <= length (data (fst (Write f b))))%nat.
Proof.
  unfold Write. pose proof (WriteAt_grows f b (pos f)) as H.
  destruct (WriteAt f b (pos f)) as [f' [e|]]; exact H.
Qed.

Lemma writeBuckets_grows (db : HashDB) :
  (length (data (file db)) <= length (data (file (writeBuckets db))))%nat.
Proof.
  unfold writeBuckets, Seek. cbn [Z.eqb Z.ltb Z.compare].
  set (f0 := mkFile (data (file db)) 0).
  pose proof (Write_grows f0 (be_bytes 4 (nbuckets db))) as H1.
  destruct (Write f0 _) as [f1 e1]. cbn [fst] in H1.
  pose proof (Write_grows f1 (flat_map (be_bytes 8) (buckets db))) as H2.
  destruct (Write f1 _) as [f2 e2]. cbn [fst file] in *.
  unfold f0 in H1. cbn [data] in H1. lia.
Qed.

Lemma Set_grows (db : HashDB) (k v : bytes) (db' : HashDB) (err : option error) :
  Set_ db k v = Ret (db', err) ->
  (length (data (file db)) <= length (data (file db')))%nat.
Proof.
  intros Hset. unfold Set_ in Hset. rewrite Seek_end in Hset.
  cbv zeta in Hset. cbn [nbuckets buckets file] in Hset.
  set (id := bucket _ k) in Hset.
  assert (Hw : forall d r, Set_write d r = Ret (db', err) ->
     (length (data (file d)) <= length (data (file db')))%nat).
  { intros d r. unfold Set_write, writeRecord.
    pose proof (WriteAt_grows (file d) (encode r) (to_int64 (offset r))) as H.
    destruct (WriteAt (file d) _ _) as [f e].
    intros E. injection E as <- _. exact H. }
  destruct (index (buckets db) id) as [r0| |]; cbn [bind] in Hset;
    try discriminate.
  destruct (r0 =? 0).
  - apply Hw in Hset.
    pose proof (writeBuckets_grows
      (mkHashDB (nbuckets db)
         (update (buckets db) (Z.to_nat id) (len (data (file db))))
         (mkFile (data (file db)) (len (data (file db)))))) as H.
    cbn [file data] in H. lia.
  - destruct (binSearch _ _ k _) as [((other & cmp) & [e|])| |];
      cbn [bind] in Hset; try discriminate.
    + injection Hset as <- _. cbn [file data]. lia.
    + destruct (cmp =? 0); [|destruct (cmp <? 0)];
        apply Hw in Hset; cbn [file data] in Hset; try exact Hset.
      * pose proof (WriteAt_grows (mkFile (data (file db)) (len (data (file db))))
          (encode (mkRecord (offset other) (size other) (len (data (file db)))
                     (right other) (key other) (value other)))
          (to_int64 (offset other))) as H.
        unfold writeRecord in Hset. cbn [offset] in Hset. cbn [data] in H. lia.
      * pose proof (WriteAt_grows (mkFile (data (file db)) (len (data (file db))))
          (encode (mkRecord (offset other) (size other) (left other)
                     (len (data (file db))) (key other) (value other)))
          (to_int64 (offset other))) as H.
        unfold writeRecord in Hset. cbn [offset] in Hset. cbn [data] in H. lia.
Qed.

(** ** Chains *)





(** ** The keys of [TestCollision] *)

Lemma collision_index_key :
  forall i, (i < 100)%nat -> collision_index (collision_key i) = i.
Proof.
  assert (H : forallb (fun i => Nat.eqb (collision_index (collision_key i)) i)
                (seq 0 100) = true) by (vm_compute; reflexivity).
  intros i Hi. rewrite forallb_forall in H.
  apply Nat.eqb_eq. apply H. apply in_seq. lia.
Qed.

Lemma collision_keys_NoDup (n : nat) :
  (n <= 100)%nat -> NoDup (map fst (collision_pairs n)).
Proof.
  intros Hn. unfold collision_pairs. rewrite map_map. cbn [fst].
  apply NoDup_map_NoDup_ForallPairs; [|apply seq_NoDup].
  intros i j Hi Hj E. apply in_seq in Hi, Hj.
  rewrite <- (collision_index_key i), <- (collision_index_key j) by lia.
  rewrite E. reflexivity.
Qed.

Lemma collision_pairs_fit (n : nat) : all_fit (collision_pairs n).
Proof.
  unfold all_fit, collision_pairs. apply Forall_map. apply Forall_forall.
  intros i _. unfold fits. cbn. lia.
Qed.

(** ** States for the evaluations *)

Lemma db1_state :
  CreateAndSet 1 [(str "key00", str "value00")] = Some db1 /\
  all_fit [(str "key00", str "value00")].
Proof. split; [by_evaluation|all_fit_evaluated]. Defined.

Lemma calls3_state : CreateAndRun 1 calls3 = Some db3 /\ all_fit (sets_of calls3).
Proof. split; [by_evaluation|all_fit_evaluated]. Defined.

Lemma later_db1_db3 : later db1 db3.
Proof.
  apply (later_Set db1 db2 db3 (str "key02") (str "value02") None);
    [by_evaluation|].
  apply (later_Get db2 db3 (str "key00") (Some (str "value00"), None));
    [by_evaluation|].
  apply (later_Set db2 db3 db3 [] [] None); [by_evaluation|].
  apply later_refl.
Defined.

(** ** [Create] and the directory *)

(** X1.  [Create] with an exponent [nb] of at most 45 (the embedding
    lets [make] allocate up to 2^48 bytes) returns without an error a
    database of [2^nb] empty buckets whose file is the exponent in 4
    bytes, big endian, and [8 * 2^nb] zero bytes; the handle stands at
    the end of the file. *)
Theorem Create_layout (nb : Z) :
  0 <= nb <= 45 ->
  Create nb =
  Ret (mkHashDB nb (repeat 0 (Z.to_nat (2 ^ nb)))
         (mkFile (be_bytes 4 nb ++ repeat x00 (Z.to_nat (8 * 2 ^ nb)))
                 (4 + 8 * 2 ^ nb)), None).
Proof.
  intros Hnb. unfold Create. rewrite wrap32_small by lia.
  unfold shl_int. destruct (Z.leb_spec 64 nb); [lia|].
  rewrite Z.shiftl_1_l.
  assert (Hp : 0 < 2 ^ nb) by (apply Z.pow_pos_nonneg; lia).
  assert (H45 : 2 ^ nb <= 2 ^ 45) by (apply pow2_le; lia).
  rewrite to_int64_small by lia.
  unfold make. destruct (Z.ltb_spec (2 ^ nb) 0); [lia|].
  destruct (Z.ltb_spec maxAlloc (2 ^ nb * 8));
    [unfold maxAlloc in *; lia|].
  cbn [orb bind].
  rewrite writeBuckets_fresh.
  - unfold directory. cbn [nbuckets buckets].
    rewrite flat_be8_zeros, len_app. unfold len.
    rewrite length_be_bytes, !repeat_length.
    repeat f_equal; lia.
  - rewrite len_directory. cbn [buckets]. unfold len.
    rewrite repeat_length. unfold maxOffset. lia.
Qed.

Lemma Create_layout_witness :
  Create 2 =
  Ret (mkHashDB 2 (repeat 0 (Z.to_nat (2 ^ 2)))
         (mkFile (be_bytes 4 2 ++ repeat x00 (Z.to_nat (8 * 2 ^ 2)))
                 (4 + 8 * 2 ^ 2)), None).
Proof. apply (Create_layout 2). lia. Defined.

(** X2.  [Create] with an exponent of 64 or more returns without an
    error a database that has no bucket ([1 << nbuckets] is 0); its
    file is the 4 bytes of the exponent, and every [Set] and every
    [Get] on it panics on the index into the bucket array. *)
Theorem Create_without_buckets (nb : Z) :
  64 <= nb < 2 ^ 32 ->
  exists db,
    Create nb = Ret (db, None) /\ buckets db = [] /\
    data (file db) = be_bytes 4 nb /\
    forall k v, Set_ db k v = Panic /\ Get db k = Panic.
Proof.
  intros H. exists (mkHashDB nb [] (mkFile (be_bytes 4 nb) 4)).
  split; [|repeat split].
  - unfold Create. rewrite wrap32_small by lia.
    unfold shl_int. destruct (Z.leb_spec 64 nb); [|lia].
    change (make 0 0 8) with (Ret (@nil Z)). cbn [bind].
    rewrite writeBuckets_fresh.
    + unfold directory. cbn [nbuckets buckets flat_map].
      rewrite app_nil_r. reflexivity.
    + rewrite len_directory. cbn. discriminate.
  - apply Set_no_bucket. reflexivity.
  - apply Get_no_bucket. reflexivity.
Qed.

Lemma Create_without_buckets_witness :
  exists db,
    Create 100 = Ret (db, None) /\ buckets db = [] /\
    data (file db) = be_bytes 4 100 /\
    forall k v, Set_ db k v = Panic /\ Get db k = Panic.
Proof. apply (Create_without_buckets 100). lia. Defined.

(** X3.  On a file that is at least as long as the directory,
    [writeBuckets] replaces the first [4 + 8 * len(buckets)] bytes by
    the exponent and the bucket array and changes nothing else: not the
    bytes after the directory, not the length of the file, not the
    fields of the database.  The handle is left at the end of the
    directory, and a second [writeBuckets] changes nothing. *)
Theorem writeBuckets_rewrites_directory (db : HashDB) :
  len (directory db) <= len (data (file db)) ->
  len (data (file db)) <= maxOffset ->
  nbuckets (writeBuckets db) = nbuckets db /\
  buckets (writeBuckets db) = buckets db /\
  data (file (writeBuckets db)) =
    directory db ++ skipn (length (directory db)) (data (file db)) /\
  len (data (file (writeBuckets db))) = len (data (file db)) /\
  pos (file (writeBuckets db)) = len (directory db) /\
  writeBuckets (writeBuckets db) = writeBuckets db.
Proof.
  intros Hlen Hmax.
  set (dir := firstn (length (directory db)) (data (file db))).
  set (rest := skipn (length (directory db)) (data (file db))).
  assert (Hd : data (file db) = dir ++ rest)
    by (symmetry; apply firstn_skipn).
  assert (Hdir : length dir = length (directory db)).
  { unfold dir. rewrite length_firstn. unfold len in Hlen. lia. }
  pose proof (writeBuckets_data db dir rest Hd Hdir Hmax) as E.
  rewrite E. cbn [nbuckets buckets file data pos].
  assert (Hsame : len (directory db ++ rest) = len (data (file db))).
  { rewrite Hd. rewrite !len_app. unfold len. rewrite Hdir. reflexivity. }
  repeat split; [exact Hsame|].
  rewrite (writeBuckets_data _ (directory db) rest); cbn [file data];
    [reflexivity|reflexivity|reflexivity|rewrite Hsame; exact Hmax].
Qed.

Lemma writeBuckets_rewrites_directory_witness :
  nbuckets (writeBuckets db3) = nbuckets db3 /\
  buckets (writeBuckets db3) = buckets db3 /\
  data (file (writeBuckets db3)) =
    directory db3 ++ skipn (length (directory db3)) (data (file db3)) /\
  len (data (file (writeBuckets db3))) = len (data (file db3)) /\
  pos (file (writeBuckets db3)) = len (directory db3) /\
  writeBuckets (writeBuckets db3) = writeBuckets db3.
Proof. apply (writeBuckets_rewrites_directory db3); by_evaluation. Defined.

(** ** [bucket] and [nextPowerTwo] *)

(** X4.  The bucket of a key is byte 0 of its MD5 digest, reduced
    modulo [2^nbuckets] when [nbuckets <= 64] and 0 when [nbuckets] is
    greater: the bytes 1 to 7 of the digest are shifted out of their
    [byte] and never count.  So a bucket index is below 256 whatever
    the number of buckets. *)
Theorem bucket_uses_one_digest_byte (db : HashDB) (k : bytes) :
  0 <= nbuckets db < 2 ^ 32 ->
  0 <= bucket db k < 256 /\
  (nbuckets db <= 64 ->
   bucket db k = byte_to_Z (nth 0 (MD5.sum k) x00) mod 2 ^ nbuckets db) /\
  (64 < nbuckets db -> bucket db k = 0).
Proof.
  intros Hb.
  assert (Hlow : nbuckets db <= 64 ->
     bucket db k = byte_to_Z (nth 0 (MD5.sum k) x00) mod 2 ^ nbuckets db).
  { intros H. apply bucket_low_byte. lia. }
  assert (Hhigh : 64 < nbuckets db -> bucket db k = 0).
  { intros H. unfold bucket.
    replace (wrap32 (64 - nbuckets db)) with (2 ^ 32 + 64 - nbuckets db).
    - rewrite Z.shiftr_div_pow2 by lia.
      rewrite Z.div_small; [apply Z.land_0_r|].
      split; [lia|].
      apply Z.lt_le_trans with (2 ^ 64); [lia|].
      apply Z.pow_le_mono_r; lia.
    - unfold wrap32. symmetry.
      rewrite <- (Z.mod_add _ 1) by lia.
      rewrite Z.mod_small by lia. lia. }
  split; [|split; assumption].
  destruct (Z_le_gt_dec (nbuckets db) 64) as [H|H].
  - rewrite (Hlow H).
    pose proof (byte_to_Z_range (nth 0 (MD5.sum k) x00)) as Hr.
    pose proof (Z.pow_pos_nonneg 2 (nbuckets db) ltac:(lia) ltac:(lia)) as Hp.
    pose proof (Z.mod_pos_bound (byte_to_Z (nth 0 (MD5.sum k) x00)) _ Hp).
    pose proof (Z.mod_le (byte_to_Z (nth 0 (MD5.sum k) x00)) _ ltac:(lia) Hp).
    lia.
  - rewrite Hhigh by lia. lia.
Qed.

Lemma bucket_uses_one_digest_byte_witness :
  0 <= bucket (db_of (Create 9)) [] < 256 /\
  (nbuckets (db_of (Create 9)) <= 64 ->
   bucket (db_of (Create 9)) []
   = byte_to_Z (nth 0 (MD5.sum []) x00) mod 2 ^ nbuckets (db_of (Create 9))) /\
  (64 < nbuckets (db_of (Create 9)) -> bucket (db_of (Create 9)) [] = 0).
Proof.
  apply (bucket_uses_one_digest_byte (db_of (Create 9)) []).
  split; by_evaluation.
Defined.

(** X5.  [nextPowerTwo] on every [uint32]: 1 for 0, the smallest power
    of two that is at least [x] for [x] from 1 to [2^31], and 0 for
    every [x] above [2^31], where the last addition wraps around. *)
Theorem nextPowerTwo_cases (x : Z) :
  0 <= x < 2 ^ 32 ->
  nextPowerTwo x =
    if x =? 0 then 1 else if x <=? 2 ^ 31 then 2 ^ Z.log2_up x else 0.
Proof.
  intros H. destruct (Z.eqb_spec x 0) as [->|Hx]; [reflexivity|].
  destruct (Z.leb_spec x (2 ^ 31)).
  - apply nextPowerTwo_log2_up. lia.
  - apply nextPowerTwo_overflow. lia.
Qed.

Lemma nextPowerTwo_cases_witness :
  nextPowerTwo (2 ^ 31 + 1) =
    if 2 ^ 31 + 1 =? 0 then 1
    else if 2 ^ 31 + 1 <=? 2 ^ 31 then 2 ^ Z.log2_up (2 ^ 31 + 1) else 0.
Proof. apply (nextPowerTwo_cases (2 ^ 31 + 1)). lia. Defined.

(** X6.  Up to [2^31], [nextPowerTwo] is monotone and idempotent, and
    for [x >= 1] its result is at least [x] and less than [2 * x]: a
    record is allocated less than twice the bytes it needs. *)
Theorem nextPowerTwo_closure (x y : Z) :
  0 <= x <= y -> y <= 2 ^ 31 ->
  nextPowerTwo x <= nextPowerTwo y /\
  nextPowerTwo (nextPowerTwo x) = nextPowerTwo x /\
  (0 < x -> x <= nextPowerTwo x < 2 * x).
Proof.
  intros Hxy Hy.
  assert (Hpos : forall z, 0 <= z <= 2 ^ 31 -> 1 <= nextPowerTwo z <= 2 ^ 31).
  { intros z Hz. destruct (Z.eq_dec z 0) as [->|]; [cbn; lia|].
    pose proof (nextPowerTwo_bounds z). lia. }
  split; [|split].
  - destruct (Z.eq_dec x 0) as [->|Hx].
    + change (nextPowerTwo 0) with 1. apply Hpos. lia.
    + rewrite !nextPowerTwo_log2_up by lia.
      apply Z.pow_le_mono_r; [lia|]. apply Z.log2_up_le_mono. lia.
  - destruct (Z.eq_dec x 0) as [->|Hx]; [reflexivity|].
    rewrite (nextPowerTwo_log2_up x) by lia.
    pose proof (log2_up_pow2_le x ltac:(lia)) as Hl.
    pose proof (Z.log2_up_nonneg x) as Hn.
    rewrite nextPowerTwo_log2_up.
    + rewrite Z.log2_up_pow2 by lia. reflexivity.
    + split; [apply Z.pow_pos_nonneg; lia|]. apply Z.pow_le_mono_r; lia.
  - intros Hx. rewrite nextPowerTwo_log2_up by lia.
    destruct (Z.eq_dec x 1) as [->|]; [cbn; lia|].
    pose proof (Z.log2_up_spec x ltac:(lia)) as [Hlo Hhi].
    split; [lia|].
    replace (2 ^ Z.log2_up x) with (2 * 2 ^ Z.pred (Z.log2_up x)); [lia|].
    rewrite <- Z.pow_succ_r.
    + f_equal. lia.
    + pose proof (Z.log2_up_pos x). lia.
Qed.

Lemma nextPowerTwo_closure_witness :
  nextPowerTwo 33 <= nextPowerTwo 100 /\
  nextPowerTwo (nextPowerTwo 33) = nextPowerTwo 33 /\
  (0 < 33 -> 33 <= nextPowerTwo 33 < 2 * 33).
Proof. apply (nextPowerTwo_closure 33 100); lia. Defined.

(** ** Records in the file *)

(** X7.  [writeRecord] of a record that lies inside the file returns
    without an error and replaces exactly the [size] bytes from the
    offset of the record by its encoding: the bytes before and after
    them, the length of the file and the position of the handle stay
    as they are. *)
Theorem writeRecord_in_place (f : File) (r : record) :
  0 <= offset r -> 0 <= size r ->
  offset r + size r <= len (data f) -> len (data f) <= maxOffset ->
  exists f',
    writeRecord f r = (f', None) /\ pos f' = pos f /\
    len (data f') = len (data f) /\
    data f' = firstn (Z.to_nat (offset r)) (data f) ++ encode r
                ++ skipn (Z.to_nat (offset r + size r)) (data f).
Proof.
  intros Hoff Hsize Hin Hmax. unfold maxOffset in Hmax.
  unfold writeRecord. rewrite to_int64_small by lia.
  destruct (Z.eq_dec (size r) 0) as [Hz|Hnz].
  - rewrite (encode_size_zero r Hz). unfold WriteAt.
    destruct (Z.ltb_spec (offset r) 0); [lia|].
    exists f. repeat split.
    rewrite Hz, Z.add_0_r. cbn [app]. symmetry. apply firstn_skipn.
  - rewrite WriteAt_ok;
      [|lia|apply encode_nonempty; lia|
       rewrite len_encode by lia; unfold maxOffset; lia].
    eexists. split; [reflexivity|]. cbn [pos data].
    assert (Hl : (Z.to_nat (offset r) <= length (data f))%nat)
      by (unfold len in Hin; lia).
    assert (E : splice (data f) (Z.to_nat (offset r)) (encode r)
                = firstn (Z.to_nat (offset r)) (data f) ++ encode r
                    ++ skipn (Z.to_nat (offset r + size r)) (data f)).
    { unfold splice.
      replace (Z.to_nat (offset r) - length (data f))%nat with 0%nat by lia.
      rewrite length_encode. cbn [repeat app].
      replace (Z.to_nat (offset r) + Z.to_nat (size r))%nat
        with (Z.to_nat (offset r + size r)) by lia.
      reflexivity. }
    rewrite E. repeat split.
    unfold len in *.
    rewrite !length_app, length_firstn, length_skipn, length_encode. lia.
Qed.

Lemma writeRecord_in_place_witness :
  exists f',
    writeRecord (file db_b) (set_left rec_b 44) = (f', None) /\
    pos f' = pos (file db_b) /\
    len (data f') = len (data (file db_b)) /\
    data f' = firstn (Z.to_nat (offset (set_left rec_b 44))) (data (file db_b))
                ++ encode (set_left rec_b 44)
                ++ skipn (Z.to_nat (offset (set_left rec_b 44)
                                    + size (set_left rec_b 44)))
                         (data (file db_b)).
Proof.
  apply (writeRecord_in_place (file db_b) (set_left rec_b 44)); by_evaluation.
Defined.

(** X8.  A record whose bytes in the file end before the end of its
    value (the file is cut in its header, its key or its value) is not
    read: [readRecord] returns the end-of-file error, and the key and
    the value of its argument are left as they were. *)
Theorem readRecord_truncated (f : File) (pre : bytes) (r rec : record) (n : nat) :
  wf_record r -> offset r = len pre -> offset rec = offset r ->
  data f = pre ++ firstn n (encode r) ->
  Z.of_nat n < 28 + len (key r) + len (value r) ->
  exists rec',
    readRecord f rec = Ret (rec', Some EOF) /\
    key rec' = key rec /\ value rec' = value rec.
Proof.
  intros (Hoff & Hmax & Hfit & Hsize & Hleft & Hright) Hpre Hrec Hd Hn.
  pose proof (len_nonneg (key r)) as Hk.
  pose proof (len_nonneg (value r)) as Hv.
  unfold maxOffset in Hmax.
  rewrite encode_layout in Hd by exact Hfit.
  assert (H28 : len (record_header r) = 28)
    by (unfold len; rewrite length_record_header; reflexivity).
  unfold readRecord. rewrite Hrec.
  rewrite (to_int64_small (offset r)) by lia.
  rewrite (to_int64_small (offset r + 28)) by lia.
  destruct (Nat.lt_ge_cases n 28) as [Hshort|Hlong].
  - rewrite ReadAt_short; [eauto|lia|lia|].
    rewrite Hd, len_app. unfold len at 2. rewrite length_firstn. lia.
  - rewrite firstn_app, length_record_header in Hd.
    rewrite firstn_all2 in Hd by (rewrite length_record_header; lia).
    rewrite Hpre, <- H28.
    rewrite (ReadAt_app f pre (record_header r)
               (firstn (n - 28) ((key r ++ value r) ++ record_padding r)))
      by exact Hd.
    destruct (header_fields (wrap32 (size r)) (wrap64 (left r))
                (wrap64 (right r)) (wrap32 (len (key r)))
                (wrap32 (len (value r)))) as (F1 & F2 & F3 & F4 & F5).
    fold (record_header r) in F1, F2, F3, F4, F5.
    rewrite F1, F2, F3, F4, F5.
    rewrite !be_value_be_bytes_small
      by (cbn; unfold wrap32, wrap64; apply Z.mod_pos_bound; lia).
    rewrite (wrap32_small (len (key r))), (wrap32_small (len (value r))) by lia.
    rewrite (wrap32_small (len (key r) + len (value r))) by lia.
    rewrite ReadAt_short; [eauto| pose proof (len_nonneg pre); lia | lia |].
    rewrite Hd, !len_app. unfold len at 3. rewrite length_firstn. lia.
Qed.

Lemma readRecord_truncated_witness :
  exists rec',
    readRecord file_cut (record_at_offset 12) = Ret (rec', Some EOF) /\
    key rec' = key (record_at_offset 12) /\
    value rec' = value (record_at_offset 12).
Proof.
  apply (readRecord_truncated file_cut (directory db_b) rec_b
           (record_at_offset 12) 29).
  - unfold wf_record. vm_compute. repeat split; discriminate.
  - by_evaluation.
  - by_evaluation.
  - reflexivity.
  - by_evaluation.
Defined.

(** X9.  [readRecord] panics on a header whose key length and value
    length add up to [2^32] or more, when the file holds the bytes that
    the wrapped sum asks for: the buffer has the wrapped sum as its
    length, and the slice up to the key length is out of its range. *)
Theorem readRecord_length_overflow (f : File) (pre post : bytes)
    (s l r keyl vall : Z) (rec : record) :
  data f = pre ++ (be_bytes 4 s ++ be_bytes 8 l ++ be_bytes 8 r
                     ++ be_bytes 4 keyl ++ be_bytes 4 vall) ++ post ->
  offset rec = len pre -> len (data f) <= maxOffset ->
  0 <= keyl < 2 ^ 32 -> 0 <= vall < 2 ^ 32 ->
  2 ^ 32 <= keyl + vall -> keyl + vall - 2 ^ 32 <= len post ->
  readRecord f rec = Panic.
Proof.
  intros Hd Hrec Hmax Hk Hv Hsum Hpost.
  set (h := be_bytes 4 s ++ be_bytes 8 l ++ be_bytes 8 r
              ++ be_bytes 4 keyl ++ be_bytes 4 vall) in *.
  assert (H28 : len h = 28).
  { unfold len, h. rewrite !length_app, !length_be_bytes. reflexivity. }
  pose proof (len_nonneg pre) as Hp.
  assert (Hlen : len (data f) = len pre + 28 + len post).
  { rewrite Hd, !len_app. lia. }
  unfold maxOffset in Hmax.
  unfold readRecord. rewrite Hrec.
  rewrite (to_int64_small (len pre)) by lia.
  rewrite (to_int64_small (len pre + 28)) by (pose proof (len_nonneg post); lia).
  rewrite <- H28 at 1.
  rewrite (ReadAt_app f pre h post) by exact Hd.
  destruct (header_fields s l r keyl vall) as (_ & _ & _ & F4 & F5).
  fold h in F4, F5. rewrite F4, F5.
  rewrite !be_value_be_bytes_small by (cbn; lia).
  assert (Hw : wrap32 (keyl + vall) = keyl + vall - 2 ^ 32).
  { unfold wrap32. rewrite <- (Z.mod_add _ (-1)) by lia.
    rewrite Z.mod_small; lia. }
  rewrite Hw.
  destruct (ReadAt_inside f (keyl + vall - 2 ^ 32) (len pre + 28))
    as (b & ->); try lia.
  destruct (Z.ltb_spec (keyl + vall - 2 ^ 32) keyl); [reflexivity|lia].
Qed.

Lemma readRecord_length_overflow_witness :
  readRecord file_long_lengths (record_at_offset 0) = Panic.
Proof.
  apply (readRecord_length_overflow file_long_lengths [] [] 32 0 0
           (2 ^ 32 - 1) 1 (record_at_offset 0));
    first [reflexivity | by_evaluation | lia].
Defined.

(** ** The walk and the lookup, on any file *)

(** X10.  Whatever the file holds, when [binSearch] returns without an
    error the record that it returns is the record that the file holds
    at the offset of that record, the comparison that it returns is
    [bytes.Compare] of the key with the key of that record, and the
    record has no left child when the key compares less and no right
    child when it compares greater: the place where [Set] links. *)
Theorem binSearch_result (fuel : nat) (f : File) (k : bytes)
    (rec r : record) (cmp : Z) :
  binSearch fuel f k rec = Ret (r, cmp, None) ->
  readRecord f (record_at_offset (offset r)) = Ret (r, None) /\
  cmp = Compare k (key r) /\
  (cmp < 0 -> left r = 0) /\ (0 < cmp -> right r = 0).
Proof.
  revert rec r cmp.
  induction fuel as [|fuel IH]; intros rec r cmp H; [discriminate|].
  cbn [binSearch] in H.
  destruct (readRecord f rec) as [[r1 [e|]]| |] eqn:Er; cbn [bind] in H;
    try discriminate.
  destruct ((Compare k (key r1) <? 0) && negb (left r1 =? 0)) eqn:El;
    [apply (IH _ _ _ H)|].
  destruct ((0 <? Compare k (key r1)) && negb (right r1 =? 0)) eqn:Eg;
    [apply (IH _ _ _ H)|].
  injection H as <- <-.
  destruct (readRecord_at f rec r1 Er) as (Eo & Hany).
  split; [apply Hany; rewrite Eo; reflexivity|].
  split; [reflexivity|].
  apply andb_false_iff in El, Eg. rewrite !negb_false_iff in El, Eg.
  split; intros Hc; [destruct El|destruct Eg]; lia.
Qed.

Lemma binSearch_result_witness :
  readRecord (file db_b) (record_at_offset (offset rec_b)) = Ret (rec_b, None) /\
  -1 = Compare (str "a") (key rec_b) /\
  (-1 < 0 -> left rec_b = 0) /\ (0 < -1 -> right rec_b = 0).
Proof.
  apply (binSearch_result 5 (file db_b) (str "a") (record_at_offset 12)
           rec_b (-1)).
  by_evaluation.
Defined.

(** X11.  Whatever the file holds, a value that [Get] returns comes
    with no error and is the value of a record of the file whose key is
    the key asked for: [Get] returns no value of another key and no
    value together with an error. *)
Theorem Get_returns_stored_value (db : HashDB) (k v : bytes)
    (e : option error) :
  Get db k = Ret (Some v, e) ->
  e = None /\
  exists r,
    readRecord (file db) (record_at_offset (offset r)) = Ret (r, None) /\
    key r = k /\ value r = v.
Proof.
  unfold Get. intros H.
  destruct (index (buckets db) (bucket db k)) as [off| |]; cbn [bind] in H;
    try discriminate.
  destruct (off =? 0); [discriminate|].
  destruct (binSearch _ _ _ _) as [[[r cmp] [e'|]]| |] eqn:Eb; cbn [bind] in H;
    try discriminate.
  destruct (Z.eqb_spec cmp 0) as [Hc|]; [|discriminate].
  injection H as <- <-. split; [reflexivity|].
  destruct (binSearch_stops_at _ _ _ _ _ _ Eb) as (Hr & Hcmp & _).
  exists r. split; [exact Hr|]. split; [|reflexivity].
  symmetry. apply Compare_eq. congruence.
Qed.

Lemma Get_returns_stored_value_witness :
  @None error = None /\
  exists r,
    readRecord (file db3) (record_at_offset (offset r)) = Ret (r, None) /\
    key r = str "key02" /\ value r = str "value02".
Proof.
  apply (Get_returns_stored_value db3 (str "key02") (str "value02") None).
  by_evaluation.
Defined.

(** ** [Set] on any database *)

(** X12.  Whatever the database holds, a [Set] that returns, with or
    without an error, leaves the exponent and the length of the bucket
    array as they are and changes no entry of the array other than the
    entry of the bucket of its key. *)
Theorem Set_keeps_directory_shape (db : HashDB) (k v : bytes) (db' : HashDB)
    (err : option error) :
  Set_ db k v = Ret (db', err) ->
  nbuckets db' = nbuckets db /\
  length (buckets db') = length (buckets db) /\
  forall j, 0 <= j -> j <> bucket db k -> root db' j = root db j.
Proof.
  intros Hset. destruct (Set_structure db k v db' err Hset) as (Hn & Hb & _).
  split; [exact Hn|].
  destruct Hb as [Hb|Hb]; rewrite ?Hb.
  - split; [reflexivity|]. intros j _ _. unfold root. rewrite Hb. reflexivity.
  - split; [apply length_update|]. intros j Hj Hne. unfold root. rewrite Hb.
    apply nth_update_other. pose proof (bucket_nonneg db k). lia.
Qed.

Lemma Set_keeps_directory_shape_witness :
  nbuckets db2 = nbuckets db1 /\
  length (buckets db2) = length (buckets db1) /\
  forall j, 0 <= j -> j <> bucket db1 (str "key02") -> root db2 j = root db1 j.
Proof.
  apply (Set_keeps_directory_shape db1 (str "key02") (str "value02") db2 None).
  by_evaluation.
Defined.

(** X13.  Whatever the database holds, after a [Set] of a pair that
    fits (28 + key length + value length <= 2^31) has returned without
    an error, the file holds at its former end the record of the pair:
    [readRecord] there gives the key, the value, the allocated size and
    no children. *)
Theorem Set_record_at_end (db : HashDB) (k v : bytes) (db' : HashDB) :
  Set_ db k v = Ret (db', None) -> fits k v ->
  len (data (file db)) <= maxOffset ->
  readRecord (file db') (record_at_offset (len (data (file db))))
  = Ret (new_record (len (data (file db))) k v, None).
Proof.
  intros Hset Hfit Hmax.
  destruct (Set_structure db k v db' None Hset) as (_ & _ & Hw).
  destruct (Hw eq_refl) as (f & Hf). clear Hw.
  set (eof := len (data (file db))) in *.
  pose proof (len_nonneg (data (file db))) as Hpos. fold eof in Hpos.
  pose proof (new_record_size eof k v Hfit) as Hs.
  pose proof (len_nonneg k) as Hk. pose proof (len_nonneg v) as Hv.
  unfold maxOffset in Hmax.
  unfold writeRecord in Hf. cbn [offset new_record] in Hf.
  rewrite to_int64_small in Hf by lia.
  fold (new_record eof k v) in Hf.
  unfold WriteAt in Hf.
  destruct (Z.ltb_spec eof 0); [lia|].
  pose proof (encode_nonempty (new_record eof k v) ltac:(lia)) as Hne.
  pose proof (len_encode (new_record eof k v) ltac:(lia)) as Hl.
  destruct (encode (new_record eof k v)) as [|x b] eqn:Ee; [congruence|].
  destruct (Z.ltb_spec maxOffset (eof + len (x :: b))); [discriminate|].
  injection Hf as Hf. rewrite <- Ee in *.
  assert (Hwf : wf_record (new_record eof k v)).
  { apply new_record_wf; [exact Hfit|lia|]. rewrite <- Hl. assumption. }
  unfold splice in Hf.
  apply (readRecord_encode _
           (firstn (Z.to_nat eof) (data f)
              ++ repeat x00 (Z.to_nat eof - length (data f)))
           (skipn (Z.to_nat eof + length (encode (new_record eof k v))) (data f))
           _ _ Hwf).
  - rewrite <- Hf. cbn [data]. rewrite <- !app_assoc. reflexivity.
  - rewrite len_app. unfold len.
    rewrite length_firstn, repeat_length. cbn [offset new_record]. lia.
  - reflexivity.
Qed.

Lemma Set_record_at_end_witness :
  readRecord (file db2) (record_at_offset (len (data (file db1))))
  = Ret (new_record (len (data (file db1))) (str "key02") (str "value02"),
         None).
Proof.
  apply (Set_record_at_end db1 (str "key02") (str "value02") db2);
    by_evaluation.
Defined.

(** ** [Set] and [Get] after [Create] *)

(** X14.  On a database reached by [Create] with fewer than 2^64
    buckets and [Set] calls of pairs that fit, a [Set] of a pair that
    fits returns without an error whenever the file with the new
    record stays within the largest file offset; the file grows by
    exactly the allocated size of the record, and the bytes from its
    former end on are the encoding of the record.  This holds also for
    a key that is stored already. *)
Theorem Set_succeeds_and_appends (nb : Z) (ops : list (bytes * bytes))
    (db : HashDB) (k v : bytes) :
  CreateAndSet nb ops = Some db -> all_fit ops -> 0 <= nb < 64 -> fits k v ->
  len (data (file db)) + record_size k v <= maxOffset ->
  exists db',
    Set_ db k v = Ret (db', None) /\
    len (data (file db')) = len (data (file db)) + record_size k v /\
    skipn (length (data (file db))) (data (file db'))
    = encode (new_record (len (data (file db))) k v).
Proof.
  intros Hrun Hfit Hnb Hkv Hroom.
  destruct (reach_Inv nb ops db Hrun Hfit Hnb) as (_ & log & trees & HInv).
  apply (Set_appends db ops log trees k v HInv Hkv Hroom).
Qed.

Lemma Set_succeeds_and_appends_witness :
  exists db',
    Set_ db1 (str "key02") (str "value02") = Ret (db', None) /\
    len (data (file db')) =
      len (data (file db1)) + record_size (str "key02") (str "value02") /\
    skipn (length (data (file db1))) (data (file db'))
    = encode (new_record (len (data (file db1))) (str "key02") (str "value02")).
Proof.
  destruct db1_state as (Hrun & Hfit).
  apply (Set_succeeds_and_appends 1 [(str "key00", str "value00")] db1
           (str "key02") (str "value02") Hrun Hfit);
    clear Hrun Hfit; first [lia | by_evaluation].
Defined.

(** X15.  [Create] with an exponent of at most 45 followed by [Set]
    calls of pairs that fit returns without an error at every call, as
    long as the directory and the records together stay within the
    largest file offset. *)
Theorem stores_succeed (nb : Z) (ops : list (bytes * bytes)) :
  0 <= nb <= 45 -> all_fit ops ->
  4 + 8 * 2 ^ nb + total_size ops <= maxOffset ->
  exists db, CreateAndSet nb ops = Some db.
Proof.
  intros Hnb Hfit Hroom. unfold CreateAndSet.
  destruct (Create_returns nb Hnb) as (db0 & Hc & HInv). rewrite Hc.
  apply (SetAll_returns ops db0 [] [] (fun _ => Leaf) HInv Hfit).
  rewrite (Create_len nb db0 Hnb Hc). exact Hroom.
Qed.

Lemma stores_succeed_witness : exists db, CreateAndSet 1 ops3 = Some db.
Proof.
  apply (stores_succeed 1 ops3); [lia|all_fit_evaluated|by_evaluation].
Defined.





(** X18.  After [Create] and any run of [Set] and [Get] calls whose
    pairs fit, the file mirrors the bucket array: its first 4 bytes
    are the exponent and the 8 bytes at [4 + 8 * i] are the root offset
    of bucket [i], big endian. *)
Theorem directory_on_disk (nb : Z) (l : list op) (db : HashDB) :
  CreateAndRun nb l = Some db -> all_fit (sets_of l) -> 0 <= nb < 64 ->
  nbuckets db = nb /\ len (buckets db) = 2 ^ nb /\
  be_value (firstn 4 (data (file db))) = nb /\
  forall i, 0 <= i < 2 ^ nb ->
    be_value (firstn 8 (skipn (Z.to_nat (4 + 8 * i)) (data (file db))))
    = root db i.
Proof.
  intros Hrun Hfit Hnb. apply CreateAndRun_Set in Hrun.
  destruct (reach_Inv nb _ db Hrun Hfit Hnb) as (En & log & trees & HInv).
  pose proof (inv_buckets _ _ _ _ HInv) as Hb. rewrite En in Hb.
  split; [exact En|]. split; [exact Hb|].
  rewrite (inv_data _ _ _ _ HInv). unfold directory. rewrite En.
  rewrite <- app_assoc. split.
  - rewrite firstn_app_exact by (rewrite length_be_bytes; reflexivity).
    apply be_value_be_bytes_small. cbn. lia.
  - intros i Hi.
    replace (Z.to_nat (4 + 8 * i)) with (8 * Z.to_nat i + 4)%nat by lia.
    rewrite <- skipn_skipn.
    rewrite (skipn_app_exact (be_bytes 4 nb))
      by (rewrite length_be_bytes; reflexivity).
    rewrite flat_be8_nth by (unfold len in Hb; lia).
    fold (root db i).
    pose proof (Inv_root_range db _ log trees i HInv
                  ltac:(rewrite En; exact Hi)) as Hr.
    apply be_value_be_bytes_small. unfold maxOffset in Hr. cbn. lia.
Qed.

Lemma directory_on_disk_witness :
  nbuckets db3 = 1 /\ len (buckets db3) = 2 ^ 1 /\
  be_value (firstn 4 (data (file db3))) = 1 /\
  forall i, 0 <= i < 2 ^ 1 ->
    be_value (firstn 8 (skipn (Z.to_nat (4 + 8 * i)) (data (file db3))))
    = root db3 i.
Proof.
  destruct calls3_state as (Hrun & Hfit).
  apply (directory_on_disk 1 calls3 db3 Hrun Hfit). lia.
Defined.

(** X19.  After [Create] and any run of [Set] and [Get] calls whose
    pairs fit, [Get] of any key returns, without an error, the value of
    the first [Set] of that key in the run, and no value when the run
    has no [Set] of the key: the database is a map in which the first
    store of a key stays. *)
Theorem Get_is_first_value (nb : Z) (l : list op) (db : HashDB) (k : bytes) :
  CreateAndRun nb l = Some db -> all_fit (sets_of l) -> 0 <= nb < 64 ->
  Get db k = Ret (first_value (sets_of l) k, None).
Proof.
  intros Hrun Hfit Hnb. apply CreateAndRun_Set in Hrun.
  destruct (reach_Inv nb _ db Hrun Hfit Hnb) as (_ & log & trees & HInv).
  apply (Get_view db _ log trees HInv db []); try reflexivity.
  rewrite app_nil_r. reflexivity.
Qed.

Lemma Get_is_first_value_witness :
  Get db3 (str "key02") = Ret (first_value (sets_of calls3) (str "key02"), None).
Proof.
  destruct calls3_state as (Hrun & Hfit).
  apply (Get_is_first_value 1 calls3 db3 (str "key02") Hrun Hfit). lia.
Defined.

(** X20.  After [Create] and any run of [Set] and [Get] calls whose
    pairs fit, every [Get] and every [Set], of any key and any value,
    returns: no call panics (no index and no slice bound is out of
    range) and no walk goes on for ever. *)
Theorem calls_return (nb : Z) (l : list op) (db : HashDB) (k v : bytes) :
  CreateAndRun nb l = Some db -> all_fit (sets_of l) -> 0 <= nb < 64 ->
  (exists res, Get db k = Ret res) /\ (exists res, Set_ db k v = Ret res).
Proof.
  intros Hrun Hfit Hnb. apply CreateAndRun_Set in Hrun.
  destruct (reach_Inv nb _ db Hrun Hfit Hnb) as (_ & log & trees & HInv).
  split.
  - eexists. apply (Get_view db _ log trees HInv db []); try reflexivity.
    rewrite app_nil_r. reflexivity.
  - apply (Set_returns db _ log trees HInv).
Qed.

Lemma calls_return_witness :
  (exists res, Get db3 big_key = Ret res) /\
  (exists res, Set_ db3 big_key big_key = Ret res).
Proof.
  destruct calls3_state as (Hrun & Hfit).
  apply (calls_return 1 calls3 db3 big_key big_key Hrun Hfit). lia.
Defined.





(** X23.  Whatever the database holds, no call shortens the file: after
    any calls of [Set] and [Get] that return, with or without an error,
    the file is at least as long as before. *)
Theorem file_never_shrinks (db db' : HashDB) :
  later db db' -> len (data (file db)) <= len (data (file db')).
Proof.
  induction 1 as [db|db db1 db' k v err Hset _ IH|db db' k res _ _ IH].
  - lia.
  - pose proof (Set_grows db k v db1 err Hset). unfold len in *. lia.
  - exact IH.
Qed.

Lemma file_never_shrinks_witness :
  len (data (file db1)) <= len (data (file db3)).
Proof. apply (file_never_shrinks db1 db3). exact later_db1_db3. Defined.

(** X24.  After [Create] and any run of [Set] and [Get] calls whose
    pairs fit, every record in the tree of a bucket has a key of that
    bucket: the walk from the root of the bucket of a key meets no key
    of another bucket. *)
Theorem keys_in_their_bucket (nb : Z) (l : list op) (db : HashDB) (i : Z) :
  CreateAndRun nb l = Some db -> all_fit (sets_of l) -> 0 <= nb < 64 ->
  0 <= i < 2 ^ nb ->
  exists t,
    tree_at (file db) (root db i) t /\ all_keys (fun k => bucket db k = i) t.
Proof.
  intros Hrun Hfit Hnb Hi. apply CreateAndRun_Set in Hrun.
  destruct (reach_Inv nb _ db Hrun Hfit Hnb) as (En & log & trees & HInv).
  rewrite <- En in Hi.
  destruct (Inv_tree_at db _ log trees HInv (file db) [] i
              ltac:(rewrite app_nil_r; reflexivity) Hi) as (Ht0 & _).
  exists (trees i). split; [exact Ht0|].
  apply (inv_trees _ _ _ _ HInv i Hi).
Qed.

Lemma keys_in_their_bucket_witness :
  exists t,
    tree_at (file db3) (root db3 0) t /\ all_keys (fun k => bucket db3 k = 0) t.
Proof.
  destruct calls3_state as (Hrun & Hfit).
  apply (keys_in_their_bucket 1 calls3 db3 0 Hrun Hfit); lia.
Defined.

(** ** The tests of the repository *)

(** X25.  [TestSetAndGet] passes whatever the order in which the loop
    over the map meets the four pairs: [Create] with exponent 6 and the
    four [Set] calls return without an error, and [Get] of each of the
    four keys then returns its value without an error (the empty value
    of "empty" too). *)
Theorem TestSetAndGet_any_order (order : list (bytes * bytes)) :
  Permutation (pairs test_data) order ->
  exists db, CreateAndSet 6 order = Some db /\
    forall k v, In (k, v) (pairs test_data) -> Get db k = Ret (Some v, None).
Proof.
  intros HP.
  destruct (stores_then_lookups 6 order) as (db & Hrun & Hget).
  - lia.
  - apply (Permutation_Forall HP). all_fit_evaluated.
  - apply (Permutation_NoDup (Permutation_map fst HP)).
    repeat constructor; not_in_evaluated.
  - unfold len. rewrite <- (Permutation_length HP). cbn. lia.
  - exists db. split; [exact Hrun|]. intros k v Hin. apply Hget.
    apply (Permutation_in _ HP). exact Hin.
Qed.

Lemma TestSetAndGet_any_order_witness :
  exists db, CreateAndSet 6 (rev (pairs test_data)) = Some db /\
    forall k v, In (k, v) (pairs test_data) -> Get db k = Ret (Some v, None).
Proof.
  apply (TestSetAndGet_any_order (rev (pairs test_data))).
  apply Permutation_rev.
Defined.

(** X26.  [TestCollision] passes: [Create] and the [Set] calls of the
    keys [key00], [key01], ... return without an error and [Get] of
    every key then returns its value.  This holds for the exponent 2
    and the 16 keys of the test and as well for every exponent up to
    45 and every number of keys up to 100. *)
Theorem TestCollision_passes (nb : Z) (n : nat) :
  0 <= nb <= 45 -> (n <= 100)%nat ->
  exists db, CreateAndSet nb (collision_pairs n) = Some db /\
    forall i, (i < n)%nat ->
      Get db (collision_key i) = Ret (Some (collision_value i), None).
Proof.
  intros Hnb Hn.
  destruct (stores_then_lookups nb (collision_pairs n) Hnb
              (collision_pairs_fit n) (collision_keys_NoDup n Hn))
    as (db & Hrun & Hget).
  - unfold len, collision_pairs. rewrite length_map, length_seq. lia.
  - exists db. split; [exact Hrun|]. intros i Hi. apply Hget.
    unfold collision_pairs.
    apply (in_map (fun i => (collision_key i, collision_value i))).
    apply in_seq. lia.
Qed.

Lemma TestCollision_passes_witness :
  exists db, CreateAndSet 2 (collision_pairs 16) = Some db /\
    forall i, (i < 16)%nat ->
      Get db (collision_key i) = Ret (Some (collision_value i), None).
Proof. apply (TestCollision_passes 2 16); lia. Defined.
